(** * distrohop: tag extraction, shard store and tag search

    A shallow embedding of the Go packages [internal/tags],
    [internal/store], [internal/store/combined], [internal/store/cached]
    and the ingestion loop of [internal/pull].

    Go strings are byte sequences; they are embedded as [string]
    (a list of 8-bit [ascii]).  Go's [int] results that can be [-1]
    are embedded as [Z] or [option nat]; a run-time panic (index or
    slice bound out of range) is an explicit outcome. *)

From Stdlib Require Import Ascii String ZArith QArith Lia.
From stdpp Require Import base option list sorting strings gmap.

Local Open Scope string_scope.
Local Open Scope list_scope.

(** ** Go's [strings] and [path] helpers used by the program *)
Module GoStrings.

Definition byte_eqb (a b : ascii) : bool := bool_decide (a = b).

(** [s[n:]] for [n <= len(s)]. *)
Fixpoint drop_str (n : nat) (s : string) : string :=
  match n, s with
  | O, _ => s
  | S n', String _ s' => drop_str n' s'
  | S _, EmptyString => EmptyString
  end.

(** [s[:n]] for [n <= len(s)]. *)
Fixpoint take_str (n : nat) (s : string) : string :=
  match n, s with
  | O, _ => EmptyString
  | S n', String c s' => String c (take_str n' s')
  | S _, EmptyString => EmptyString
  end.

(** [strings.HasPrefix(s, p)]. *)
Fixpoint HasPrefix (s p : string) : bool :=
  match p, s with
  | EmptyString, _ => true
  | String a p', String b s' => byte_eqb a b && HasPrefix s' p'
  | String _ _, EmptyString => false
  end.

(** [strings.HasSuffix(s, suffix)]. *)
Definition HasSuffix (s suffix : string) : bool :=
  (String.length suffix <=? String.length s)%nat &&
  bool_decide (drop_str (String.length s - String.length suffix) s = suffix).

(** [strings.TrimPrefix(s, p)]. *)
Definition TrimPrefix (s p : string) : string :=
  if HasPrefix s p then drop_str (String.length p) s else s.

(** [strings.TrimSuffix(s, suffix)]. *)
Definition TrimSuffix (s suffix : string) : string :=
  if HasSuffix s suffix
  then take_str (String.length s - String.length suffix) s
  else s.

(** [strings.Index(s, sub)]: byte offset of the first occurrence. *)
Fixpoint Index (s sub : string) : option nat :=
  if HasPrefix s sub then Some O
  else match s with
       | EmptyString => None
       | String _ s' => S <$> Index s' sub
       end.

(** [strings.Cut(s, sep)] returns [(before, after, found)]. *)
Definition Cut (s sep : string) : string * string * bool :=
  match Index s sep with
  | Some i => (take_str i s, drop_str (i + String.length sep) s, true)
  | None => (s, EmptyString, false)
  end.

(** [strings.LastIndexByte(s, c)]; [None] stands for [-1]. *)
Fixpoint LastIndexByte (s : string) (c : ascii) : option nat :=
  match s with
  | EmptyString => None
  | String b s' =>
      match LastIndexByte s' c with
      | Some i => Some (S i)
      | None => if byte_eqb b c then Some O else None
      end
  end.

(** [strings.Split(s, sep)] for a one-byte separator, which is what
    every call site passes (["/"], ["."], ["\x1F"]).  The result is
    never empty: [Split("", sep) = [""]]. *)
Fixpoint Split (s : string) (sep : ascii) : list string :=
  match s with
  | EmptyString => [EmptyString]
  | String c s' =>
      if byte_eqb c sep then EmptyString :: Split s' sep
      else match Split s' sep with
           | w :: ws => String c w :: ws
           | [] => [String c EmptyString]
           end
  end.

Definition has_byte (c : ascii) (s : string) : bool :=
  bool_decide (is_Some (LastIndexByte s c)).

(** [path.Ext(p)]: the suffix of [p] beginning at the final dot of
    its final slash-separated element, or [""]. *)
Fixpoint Ext (p : string) : string :=
  match p with
  | EmptyString => EmptyString
  | String c rest =>
      match Ext rest with
      | EmptyString =>
          if byte_eqb c "."%char && negb (has_byte "/"%char rest) then p
          else EmptyString
      | e => e
      end
  end.

(** The last byte [s[len(s)-1]] of a non-empty string (the one call
    site indexes a name in which [".so"] was just found). *)
Fixpoint last_byte (s : string) : ascii :=
  match s with
  | EmptyString => "000"%char
  | String c EmptyString => c
  | String _ s' => last_byte s'
  end.

End GoStrings.

(** ** Package [tags]: from a file path to its tags *)
Module Tags.
Import GoStrings.

Definition byte_le (a b : ascii) : bool := (nat_of_ascii a <=? nat_of_ascii b)%nat.
Definition byte_lt (a b : ascii) : bool := (nat_of_ascii a <? nat_of_ascii b)%nat.

(** [isNum]: every byte is a decimal digit (true on [""]). *)
Fixpoint isNum (s : string) : bool :=
  match s with
  | EmptyString => true
  | String c s' =>
      if byte_lt c "0"%char || byte_lt "9"%char c then false else isNum s'
  end.

(** [soversionIsValid]. *)
Definition soversionIsValid (s : string) : bool :=
  if bool_decide (s = EmptyString) then true
  else forallb isNum (Split s "."%char).

(** [manualName]; [ext[1:]] is the extension without its dot. *)
Definition manualName (fileName : string) : string :=
  let fileName := TrimSuffix fileName ".gz" in
  let ext := Ext fileName in
  if (String.length ext =? 0)%nat || negb (isNum (drop_str 1 ext))
  then EmptyString else fileName.

(** [pythonName]: both markers are 15 bytes long. *)
Fixpoint pythonName_from (filePath : string) (starts : list string) : string :=
  match starts with
  | [] => EmptyString
  | start :: rest =>
      match Index filePath start with
      | None => pythonName_from filePath rest
      | Some i =>
          let start := (i + 15)%nat in
          match Index (drop_str start filePath) "/" with
          | None => pythonName_from filePath rest
          | Some e => take_str e (drop_str start filePath)
          end
      end
  end.

Definition pythonName (filePath : string) : string :=
  pythonName_from filePath ["/dist-packages/"; "/site-packages/"]%string.

Definition ext_in (name : string) (exts : list string) : bool :=
  bool_decide (Ext name ∈ exts).

(** The lib bucket.  The guard on the last byte is the source's
    [lastChar >= '0' || lastChar <= '9']. *)
Definition lib_tags (name : string) : option (list string) :=
  let '(libName, soversion, ok) := Cut name ".so" in
  if ok && soversionIsValid soversion then
    let tags := ["lib=" +:+ name] in
    let lastChar := last_byte name in
    let tags :=
      if byte_le "0"%char lastChar || byte_le lastChar "9"%char then
        tags ++ ["lib=" +:+ libName +:+ ".so";
                 "lib=" +:+ TrimPrefix libName "lib"]
      else tags in
    Some tags
  else if bool_decide (Ext name = ".a") then
    Some ["lib=" +:+ name; "lib=" +:+ TrimSuffix name ".a"]
  else None.

(** What one directory element contributes.  [Some tags] is the
    source's [added = true] with [tags] appended; [None] leaves
    [added] false, whether through [continue] or a failed guard. *)
Definition bucket (filePath name elem : string) : option (list string) :=
  if bool_decide (elem ∈ ["usr"; "opt"; "local"; "share"]%string) then None
  else if bool_decide (elem ∈ ["bin"; "sbin"]%string) then
    Some ["bin=" +:+ name]
  else if bool_decide (elem ∈ ["icons"; "pixmaps"]%string) then
    if ext_in name [".svg"; ".png"; ".jpg"; ".jpeg"]%string
    then Some ["icon=" +:+ name] else None
  else if bool_decide (elem = "man") then
    let manName := manualName name in
    if bool_decide (manName ≠ EmptyString) then Some ["man=" +:+ manName] else None
  else if bool_decide (elem ∈ ["dist-packages"; "site-packages"]%string) then
    let pyName := pythonName filePath in
    if bool_decide (pyName ≠ EmptyString) then Some ["py=" +:+ pyName] else None
  else if bool_decide (elem ∈ ["pkgconfig"; "pkg-config"]%string) then
    if bool_decide (Ext name = ".pc")
    then Some ["pkgcfg=" +:+ TrimSuffix name ".pc"] else None
  else if bool_decide (elem = "applications") then
    if bool_decide (Ext name = ".desktop")
    then Some ["desktop=" +:+ TrimSuffix name ".desktop"] else None
  else if bool_decide (elem = "dbus-1") then
    if bool_decide (Ext name = ".service")
    then Some ["dbus=" +:+ TrimSuffix name ".service"] else None
  else if bool_decide (elem = "systemd") then
    if ext_in name [".service"; ".target"; ".socket"; ".timer"]%string
    then Some ["systemd=" +:+ name] else None
  else if bool_decide (elem = "include") then
    if ext_in name [".h"; ".hh"; ".hpp"; ".hxx"; "h++"]%string then
      let '(_, hdrName, ok) := Cut filePath "include/" in
      Some ["hdr=" +:+ (if ok then hdrName else name)]
    else None
  else if bool_decide (elem ∈ ["lib"; "lib32"; "lib64"]%string) then
    lib_tags name
  else None.

(** The [for _, elem := range pathElems] loop: it stops at the first
    element that added tags. *)
Fixpoint walk (filePath name : string) (pathElems : list string)
  : option (list string) :=
  match pathElems with
  | [] => None
  | elem :: rest =>
      match bucket filePath name elem with
      | Some tags => Some tags
      | None => walk filePath name rest
      end
  end.

(** [Generate].  [None] is the panic of [filePath[:lastSlash]] when
    the path holds no slash ([lastSlash = -1]). *)
Definition Generate (filePath : string) : option (list string) :=
  match LastIndexByte filePath "/"%char with
  | None => None
  | Some lastSlash =>
      let name := drop_str (S lastSlash) filePath in
      let dir := take_str lastSlash filePath in
      match walk filePath name (Split dir "/"%char) with
      | Some tags => Some tags
      | None => Some ["file=" +:+ filePath]
      end
  end.

(** What the specification asks of the lib bucket: every variant when the
    basename ends in a digit, the basename alone otherwise. *)
Definition is_digit (c : ascii) : bool := byte_le "0"%char c && byte_le c "9"%char.

Definition lib_tags_spec (name : string) : list string :=
  let '(libName, _, _) := Cut name ".so" in
  if is_digit (last_byte name) then
    ["lib=" +:+ name; "lib=" +:+ libName +:+ ".so";
     "lib=" +:+ TrimPrefix libName "lib"]
  else ["lib=" +:+ name].

End Tags.


(** ** Regular expressions over bytes, as far as [tagRegex] needs them

    Go's [regexp] matches runes, not bytes.  For [\w+=.+] the two agree:
    [\w] and [=] are ASCII, an ASCII byte always starts a rune, and the
    rune that starts after [=] is a newline exactly when its first byte
    is [0x0A].  [MatchString] reports whether the string CONTAINS a
    match; it is not anchored. *)
Module Regex.

Inductive re : Type :=
| Void
| Eps
| Class (p : ascii → bool)
| Cat (r1 r2 : re)
| Alt (r1 r2 : re)
| Star (r : re).

Definition Plus (r : re) : re := Cat r (Star r).

(** The language of a regular expression. *)
Inductive matches : re → list ascii → Prop :=
| m_eps : matches Eps []
| m_class p c : p c = true → matches (Class p) [c]
| m_cat r1 r2 w1 w2 :
    matches r1 w1 → matches r2 w2 → matches (Cat r1 r2) (w1 ++ w2)
| m_alt_l r1 r2 w : matches r1 w → matches (Alt r1 r2) w
| m_alt_r r1 r2 w : matches r2 w → matches (Alt r1 r2) w
| m_star_nil r : matches (Star r) []
| m_star_app r w1 w2 :
    matches r w1 → matches (Star r) w2 → matches (Star r) (w1 ++ w2).

(** [contains r w]: some substring of [w] is in the language. *)
Definition contains (r : re) (w : list ascii) : Prop :=
  ∃ pre m post, w = pre ++ m ++ post ∧ matches r m.

Fixpoint nullable (r : re) : bool :=
  match r with
  | Void => false
  | Eps => true
  | Class _ => false
  | Cat r1 r2 => nullable r1 && nullable r2
  | Alt r1 r2 => nullable r1 || nullable r2
  | Star _ => true
  end.

Fixpoint deriv (c : ascii) (r : re) : re :=
  match r with
  | Void | Eps => Void
  | Class p => if p c then Eps else Void
  | Cat r1 r2 =>
      if nullable r1 then Alt (Cat (deriv c r1) r2) (deriv c r2)
      else Cat (deriv c r1) r2
  | Alt r1 r2 => Alt (deriv c r1) (deriv c r2)
  | Star r1 => Cat (deriv c r1) (Star r1)
  end.

Definition full_match (r : re) (w : list ascii) : bool :=
  nullable (foldl (λ r c, deriv c r) r w).

Definition any_byte : re := Class (λ _, true).

(** [Regexp.MatchString]. *)
Definition MatchString (r : re) (s : string) : bool :=
  full_match (Cat (Star any_byte) (Cat r (Star any_byte)))
             (list_ascii_of_string s).

(** [\w]: ASCII letters, digits and the underscore. *)
Definition word_byte (c : ascii) : bool :=
  let n := nat_of_ascii c in
  ((48 <=? n) && (n <=? 57) || (65 <=? n) && (n <=? 90) ||
   (97 <=? n) && (n <=? 122) || (n =? 95))%nat.

(** [.]: any byte but the newline. *)
Definition dot_byte (c : ascii) : bool := negb (nat_of_ascii c =? 10)%nat.

Definition eq_byte (c : ascii) : bool := (nat_of_ascii c =? 61)%nat.

(** [tagRegex = regexp.MustCompile(`\w+=.+`)]. *)
Definition tagRegex : re :=
  Cat (Plus (Class word_byte)) (Cat (Class eq_byte) (Plus (Class dot_byte))).

End Regex.


(** ** External collaborators of the store

    [github.com/zeebo/sbloom] and [encoding/json] are libraries, not
    code of this repository.  The store only relies on the contract of
    a Bloom filter: what was added is reported present, later additions
    never remove an answer, and a filter survives its gob round trip. *)
Module Sbloom.

Class FilterOps (Filter : Type) := {
  NewFilter : Filter;
  Add : Filter → string → Filter;
  Lookup : Filter → string → bool;
  GobEncode : Filter → string;
  GobDecode : string → option Filter;
  Lookup_Add : ∀ f t, Lookup (Add f t) t = true;
  Lookup_Add_mono : ∀ f t u, Lookup f u = true → Lookup (Add f t) u = true;
  GobDecode_GobEncode : ∀ f, GobDecode (GobEncode f) = Some f
}.

End Sbloom.

(** ** Package [store] *)
Module Store.
Import GoStrings.

(** *** Outcomes and the read trace *)

Inductive error : Type :=
| ErrBlocked
| ErrNotFound
| ErrInvalidTag (tag : string)
| ErrGob
| ErrJSON
| ErrOther (msg : string)
| ErrJoin1 (e : error)
| ErrJoin2 (e1 e2 : error).

Inductive panic : Type :=
| OutOfRange
| MakesliceCap
| PebbleClosed.

Inductive outcome (A : Type) : Type :=
| Ok (a : A)
| Err (e : error)
| Panic (p : panic).
Global Arguments Ok {A} a.
Global Arguments Err {A} e.
Global Arguments Panic {A} p.

(** What an operation read from the database. *)
Inductive event : Type :=
| Read (key : string)
| Scan (lower upper : string).

(** A computation yields the reads it performed and its outcome. *)
Definition M (A : Type) : Type := list event * outcome A.

Definition ret {A} (a : A) : M A := ([], Ok a).
Definition fail {A} (e : error) : M A := ([], Err e).
Definition throw {A} (p : panic) : M A := ([], Panic p).

Definition bind {A B} (m : M A) (k : A → M B) : M B :=
  match m with
  | (t, Ok a) => let '(t', r) := k a in (t ++ t', r)
  | (t, Err e) => (t, Err e)
  | (t, Panic p) => (t, Panic p)
  end.

Notation "x ←! m ; k" := (bind m (λ x, k))
  (at level 20, m at level 100, k at level 200, right associativity,
   format "x  ←!  m ;  '/' k").

(** *** The ordered key/value database (pebble)

    Keys are compared bytewise.  Failures of the storage medium are
    outside the model: a read is a value or [ErrNotFound], and using
    a closed database panics. *)

Record DB : Type := mkDB {
  data : gmap string string;
  closed : bool
}.

Definition db_Get (d : DB) (key : string) : M string :=
  if closed d then throw PebbleClosed
  else ([Read key],
        match data d !! key with
        | Some v => Ok v
        | None => Err ErrNotFound
        end).

Definition db_Set (d : DB) (key value : string) : M DB :=
  if closed d then throw PebbleClosed
  else ret (mkDB (<[key := value]> (data d)) false).

(** [Batch.Commit]: the recorded writes are applied in order. *)
Definition db_Apply (d : DB) (b : list (string * string)) : M DB :=
  if closed d then throw PebbleClosed
  else ret (mkDB (foldl (λ m kv, <[kv.1 := kv.2]> m) (data d) b) false).

Definition db_Close (d : DB) : M DB :=
  if closed d then throw PebbleClosed
  else ret (mkDB (data d) true).

Definition key_le (a b : string * string) : Prop := String.le a.1 b.1.

Definition in_range (lower upper : string) (kv : string * string) : Prop :=
  String.le lower kv.1 ∧ String.le kv.1 upper ∧ kv.1 ≠ upper.

Global Instance key_le_dec : RelDecision key_le.
Proof. intros a b. unfold key_le. apply _. Defined.

Global Instance in_range_dec lower upper kv : Decision (in_range lower upper kv).
Proof. unfold in_range. apply _. Defined.

(** What [iter.First(); iter.Valid(); iter.Next()] visits for the
    bounds [[lower, upper)]: the entries in range, by ascending key. *)
Definition range_scan (m : gmap string string) (lower upper : string)
  : list (string * string) :=
  merge_sort key_le (filter (in_range lower upper) (map_to_list m)).

Definition db_NewIter (d : DB) (lower upper : string)
  : M (list (string * string)) :=
  if closed d then throw PebbleClosed
  else ([Scan lower upper], Ok (range_scan (data d) lower upper)).

(** *** The reader/writer lock [blocked]

    [writer] is set while [Replace] holds (or waits for) the write
    lock; [TryRLock] fails exactly then and never waits. *)
Record RWMutex : Type := mkRW { writer : bool; readers : nat }.

Definition TryRLock (m : RWMutex) : option RWMutex :=
  if writer m then None else Some (mkRW false (S (readers m))).

Definition RUnlock (m : RWMutex) : RWMutex :=
  mkRW (writer m) (pred (readers m)).

Definition Lock (m : RWMutex) : RWMutex := mkRW true (readers m).
Definition Unlock (m : RWMutex) : RWMutex := mkRW false (readers m).

Record Store : Type := mkStore {
  Path : string;
  db : DB;
  blocked : RWMutex;
  SearchThreads : Z
}.

Definition set_db (s : Store) (d : DB) : Store :=
  mkStore (Path s) d (blocked s) (SearchThreads s).

Definition set_blocked (s : Store) (m : RWMutex) : Store :=
  mkStore (Path s) (db s) m (SearchThreads s).

(** [if !s.blocked.TryRLock() { return ErrBlocked }] followed by
    [defer s.blocked.RUnlock()]: the body runs with one more reader
    and the lock is handed back as it was found. *)
Definition with_rlock {A} (s : Store) (body : M A) : M A :=
  match TryRLock (blocked s) with
  | None => fail ErrBlocked
  | Some _ => body
  end.

Record Package : Type := mkPackage { Name : string; Tags : list string }.

(** [index.Record]. *)
Record Record_ : Type := mkRecord {
  rName : string;
  rTags : list string;
  rError : option string
}.

(** The unit separator [0x1F] that joins the tags of a package. *)
Definition US : ascii := "031"%char.

(** The first byte of the reserved keys. *)
Definition STX : ascii := "002"%char.

Definition filterKey (firstChar : ascii) : string :=
  String STX (String firstChar EmptyString).

(** [metaKey = []byte("\x02META")]. *)
Definition metaKey : string := String STX "META".

Record RepoMeta : Type := mkMeta { ETag : string; LastModified : string }.

(** [json.Marshal] and [json.Unmarshal] at [RepoMeta]. *)
Class MetaCodec := {
  Marshal : RepoMeta → string;
  Unmarshal : string → option RepoMeta
}.

(** [slices.Compact]: consecutive runs of equal strings collapse. *)
Fixpoint Compact (l : list string) : list string :=
  match l with
  | [] => []
  | x :: rest =>
      match rest with
      | y :: _ => if bool_decide (x = y) then Compact rest else x :: Compact rest
      | [] => [x]
      end
  end.

(** [slices.Sort] at strings. *)
Definition Sort (l : list string) : list string := merge_sort String.le l.

(** [name[0]] of a non-empty name. *)
Definition first_byte (name : string) : ascii :=
  match name with
  | String c _ => c
  | EmptyString => "000"%char
  end.

(** The confidence [float32(num) / float32(den)] of a result, kept as
    the two lengths it is computed from.  [0/0] is the NaN that Go
    computes for an empty tag list. *)
Record conf : Type := mkConf { num : nat; den : nat }.

(** [conf == 0]: a quotient of lengths is zero exactly when the
    numerator is and the denominator is not (NaN differs from 0). *)
Definition conf_is_zero (c : conf) : bool :=
  (num c =? 0)%nat && negb (den c =? 0)%nat.

(** [a < b] on confidences; false as soon as one side is NaN. *)
Definition conf_lt (a b : conf) : bool :=
  (num a * den b <? num b * den a)%nat.

(** The value of a confidence as a rational, for [den > 0]. *)
Definition conf_Q (c : conf) : Q :=
  Qmake (Z.of_nat (num c)) (Pos.of_nat (den c)).

Record TagResult : Type := mkResult {
  Confidence : conf;
  Overlap : list string;
  Package_ : Package
}.

(** [overlap]. *)
Definition overlap (stags ptags : list string) : list string * conf :=
  let overlapTags := filter (λ stag, stag ∈ ptags) stags in
  (overlapTags, mkConf (length overlapTags) (length stags)).

(** The comparison function of [SortResults]. *)
Definition result_cmp (a b : TagResult) : comparison :=
  if conf_lt (Confidence a) (Confidence b) then Gt
  else if conf_lt (Confidence b) (Confidence a) then Lt
  else String.compare (Name (Package_ a)) (Name (Package_ b)).

Definition result_le (a b : TagResult) : Prop := result_cmp a b ≠ Gt.

Global Instance result_le_dec : RelDecision result_le.
Proof. intros a b. unfold result_le. apply _. Defined.

(** One step of the insertion sort that [slices.SortFunc] runs on a
    slice of up to twelve elements: [x] moves left past every element
    that it compares smaller than.  [placed] is the part already in
    order, its last element first. *)
Fixpoint insert_result (x : TagResult) (placed : list TagResult)
  : list TagResult :=
  match placed with
  | [] => [x]
  | y :: rest =>
      match result_cmp x y with
      | Lt => y :: insert_result x rest
      | _ => x :: placed
      end
  end.

(** [SortResults].  [slices.SortFunc] promises no order among results
    that compare equal (the same confidence and the same name, which
    only results of different shards can have); from thirteen results
    on it sorts by pattern-defeating quicksort, which may leave such
    results in another order than the insertion sort does.  The
    properties proved of the results do not depend on that order. *)
Definition SortResults (results : list TagResult) : list TagResult :=
  reverse (foldl (λ placed x, insert_result x placed) [] results).

(** [startChars]. *)
Definition startChars : list ascii :=
  list_ascii_of_string
    "0123456789ABCDEFGHIJKLMNOPQRSTUVWXYZabcdefghijklmnopqrstuvwxyz".

Definition byte_succ (c : ascii) : ascii :=
  ascii_of_nat ((nat_of_ascii c + 1) mod 256).

(** [iterOpts]: the bounds [[c, c+1)] for each starting byte. *)
Definition iterOpts : list (string * string) :=
  (λ c, (String c EmptyString, String (byte_succ c) EmptyString)) <$> startChars.

(** [s[:len(s)-1]] and [s[len(s)-1]]; [None] for the empty string,
    where both expressions are out of range. *)
Fixpoint split_last (s : string) : option (string * ascii) :=
  match s with
  | EmptyString => None
  | String c rest =>
      match split_last rest with
      | None => Some (EmptyString, c)
      | Some (init, l) => Some (String c init, l)
      end
  end.

(** The loop of [GetPkgNamesByPrefix] over the keys the iterator
    yields, with its counter [i]. *)
Fixpoint collect_names (n i : Z) (keys : list string) : list string :=
  match keys with
  | [] => []
  | key :: rest =>
      if (i =? n - 1)%Z then []
      else key :: collect_names n (i + 1)%Z rest
  end.

(** The body of the iterator loop of [Search] for one entry. *)
Definition scan_entry (tags : list string) (kv : string * string)
  : option TagResult :=
  let ptags := Split kv.2 US in
  let '(overlapTags, c) := overlap tags ptags in
  if conf_is_zero c then None
  else Some (mkResult c overlapTags (mkPackage kv.1 ptags)).

(** The serialised form of a tag list: the tags, [0x1F] between two. *)
Fixpoint join (tags : list string) : string :=
  match tags with
  | [] => EmptyString
  | tag :: rest =>
      match rest with
      | [] => tag
      | _ :: _ => tag +:+ String US (join rest)
      end
  end.

(** The byte [0x1F] does not occur in the string. *)
Fixpoint sep_free (s : string) : bool :=
  match s with
  | EmptyString => true
  | String c rest => negb (byte_eqb c US) && sep_free rest
  end.

(** A read of the filter of some starting byte. *)
Definition filter_read (e : event) : Prop := ∃ c, e = Read (filterKey c).

(** Two results for the same package: the same tags overlap, and the
    confidence is the same when the queries are reorderings of one
    another. *)
Definition same_match (T1 T2 : list string) (r1 r2 : TagResult) : Prop :=
  Package_ r1 = Package_ r2 ∧
  (∀ x, x ∈ Overlap r1 ↔ x ∈ Overlap r2) ∧
  (T1 ≡ₚ T2 → Confidence r1 = Confidence r2).

Section WithLibraries.
Context {Filter : Type} `{!Sbloom.FilterOps Filter} `{!MetaCodec}.
Import Sbloom.

(** The filter of [firstChar] exists and reports [tag] present. *)
Definition covered (filters : gmap ascii Filter) (firstChar : ascii)
    (tag : string) : Prop :=
  ∃ f, filters !! firstChar = Some f ∧ Lookup f tag = true.

(** [Open] on a directory that holds [contents]. *)
Definition Open (path : string) (contents : gmap string string) : Store :=
  mkStore path (mkDB contents false) (mkRW false 0) 4.

(** The loop of [joinTags]: each tag is added to the filter of
    [firstChar] and written out, [0x1F] between two tags. *)
Fixpoint joinTags_loop (firstChar : ascii) (tags : list string)
    (filters : gmap ascii Filter) (out : string)
  : string * gmap ascii Filter :=
  match tags with
  | [] => (out, filters)
  | tag :: rest =>
      let filters := alter (λ f, Add f tag) firstChar filters in
      let out := out +:+ tag in
      let out := match rest with
                 | [] => out
                 | _ :: _ => out +:+ String US EmptyString
                 end in
      joinTags_loop firstChar rest filters out
  end.

(** [joinTags]. *)
Definition joinTags (firstChar : ascii) (tags : list string)
    (filters : gmap ascii Filter) : string * gmap ascii Filter :=
  let filters :=
    match filters !! firstChar with
    | Some _ => filters
    | None => <[firstChar := NewFilter]> filters
    end in
  joinTags_loop firstChar tags filters EmptyString.

(** One iteration of the loop of [WriteBatch]; [b] is the batch
    being built.  Reads go to the database, not to the batch. *)
Definition WriteBatch_item (s : Store) (item : Record_)
    (st : list (string * string) * gmap ascii Filter)
  : M (list (string * string) * gmap ascii Filter) :=
  let '(b, filters) := st in
  if (String.length (rName item) =? 0)%nat || (length (rTags item) =? 0)%nat
  then ret (b, filters)
  else
    let key := rName item in
    match db_Get (db s) key with
    | (t, Err ErrNotFound) =>
        let tags := Compact (Sort (rTags item)) in
        let '(val, filters) := joinTags (first_byte (rName item)) tags filters in
        (t, Ok (b ++ [(key, val)], filters))
    | (t, Err e) => (t, Err e)
    | (t, Panic p) => (t, Panic p)
    | (t, Ok curVal) =>
        let tags := Split curVal US ++ rTags item in
        let tags := Compact (Sort tags) in
        let '(val, filters) := joinTags (first_byte (rName item)) tags filters in
        (t, Ok (b ++ [(key, val)], filters))
    end.

Fixpoint WriteBatch_loop (s : Store) (items : list Record_)
    (st : list (string * string) * gmap ascii Filter)
  : M (list (string * string) * gmap ascii Filter) :=
  match items with
  | [] => ret st
  | item :: rest =>
      st' ←! WriteBatch_item s item st;
      WriteBatch_loop s rest st'
  end.

(** [WriteBatch].  [batch] lists the records of the Go map in the
    order the [range] statement happens to visit them. *)
Definition WriteBatch (s : Store) (batch : list Record_)
    (filters : gmap ascii Filter) : M (Store * gmap ascii Filter) :=
  with_rlock s
    (st ←! WriteBatch_loop s batch ([], filters);
     d ←! db_Apply (db s) st.1;
     ret (set_db s d, st.2)).

Fixpoint WriteFilters_loop (d : DB) (fs : list (ascii * Filter)) : M DB :=
  match fs with
  | [] => ret d
  | (firstChar, filter) :: rest =>
      d' ←! db_Set d (filterKey firstChar) (GobEncode filter);
      WriteFilters_loop d' rest
  end.

(** [WriteFilters]. *)
Definition WriteFilters (s : Store) (filters : gmap ascii Filter) : M Store :=
  with_rlock s
    (d ←! WriteFilters_loop (db s) (map_to_list filters);
     ret (set_db s d)).

(** [GetFilter]. *)
Definition GetFilter (s : Store) (firstChar : ascii) : M Filter :=
  with_rlock s
    (data ←! db_Get (db s) (filterKey firstChar);
     match GobDecode data with
     | Some filter => ret filter
     | None => fail ErrGob
     end).

(** [GetPkg]. *)
Definition GetPkg (s : Store) (name : string) : M Package :=
  with_rlock s
    (data ←! db_Get (db s) name;
     ret (mkPackage name (Split data US))).

(** [Store.GetPkgNamesByPrefix]. *)
Definition GetPkgNamesByPrefix (s : Store) (prefix : string) (n : Z)
  : M (list string) :=
  with_rlock s
    (if (n <? 0)%Z then throw MakesliceCap
     else
       match split_last prefix with
       | None => throw OutOfRange
       | Some (init, l) =>
           let upper := init +:+ String (byte_succ l) EmptyString in
           kvs ←! db_NewIter (db s) prefix upper;
           ret (collect_names n 0 (kvs.*1))
       end).

(** [WriteMeta]. *)
Definition WriteMeta (s : Store) (meta : RepoMeta) : M Store :=
  with_rlock s
    (d ←! db_Set (db s) metaKey (Marshal meta);
     ret (set_db s d)).

(** [GetMeta]. *)
Definition GetMeta (s : Store) : M RepoMeta :=
  with_rlock s
    (data ←! db_Get (db s) metaKey;
     match Unmarshal data with
     | Some meta => ret meta
     | None => fail ErrJSON
     end).

(** [Close]. *)
Definition Close (s : Store) : M Store :=
  with_rlock s
    (d ←! db_Close (db s);
     ret (set_db s d)).

(** The gate of a worker on one range: [found] says whether the
    filter of the range exists and may hold one of the tags. *)
Definition filter_gate (s : Store) (tags : list string) (firstChar : ascii)
  : M bool :=
  match GetFilter s firstChar with
  | (t, Ok filter) => (t, Ok (existsb (Lookup filter) tags))
  | (t, Err ErrNotFound) => (t, Ok false)
  | (t, Err e) => (t, Err e)
  | (t, Panic p) => (t, Panic p)
  end.

(** What a worker does with one element of [opts]. *)
Definition search_opt (s : Store) (tags : list string) (opt : string * string)
  : M (list TagResult) :=
  found ←! filter_gate s tags (first_byte opt.1);
  if negb found then ret []
  else
    kvs ←! db_NewIter (db s) opt.1 opt.2;
    ret (omap (scan_entry tags) kvs).

(** The workers drain [opts]; the ranges are taken here one after
    the other.  [SortResults] makes the order in which the workers
    append irrelevant, and the first error ends the search. *)
Fixpoint run_workers (s : Store) (tags : list string)
    (opts : list (string * string)) (results : list TagResult)
  : M (list TagResult) :=
  match opts with
  | [] => ret results
  | opt :: rest =>
      out ←! search_opt s tags opt;
      run_workers s tags rest (results ++ out)
  end.

(** [Store.Search], without the elapsed time. *)
Definition Search (s : Store) (tags : list string) : M (list TagResult) :=
  match find (λ tag, negb (Regex.MatchString Regex.tagRegex tag)) tags with
  | Some tag => fail (ErrInvalidTag tag)
  | None =>
      if (SearchThreads s <=? 0)%Z then ret (SortResults [])
      else
        results ←! run_workers s tags iterOpts [];
        ret (SortResults results)
  end.

(** *** Properties of a shard under construction *)

(** Nobody holds the write lock and the database is open. *)
Definition good (s : Store) : Prop :=
  writer (blocked s) = false ∧ closed (db s) = false.

(** Whatever [filters] reports present, [filters'] reports too. *)
Definition grows (filters filters' : gmap ascii Filter) : Prop :=
  ∀ c T, covered filters c T → covered filters' c T.

(** Every filter stored for a starting byte decodes. *)
Definition filters_decode (s : Store) : bool :=
  forallb (λ c, match data (db s) !! filterKey c with
                | Some v => bool_decide (is_Some (GobDecode v))
                | None => true
                end) startChars.

Section Invariants.

(** The tags the refresh was given; a tag of a stored value is one of
    these or a piece that [Split] cut out of an earlier value. *)
Variable src : string → Prop.

Definition tag_ok (T : string) : Prop := src T ∨ sep_free T = true.

(** What is known of the value stored under a package name. *)
Definition entry_ok (filters : gmap ascii Filter) (k v : string) : Prop :=
  ∃ ts, v = join ts ∧ ts ≠ [] ∧
        (∀ T, T ∈ ts → covered filters (first_byte k) T) ∧
        (∀ T, T ∈ ts → tag_ok T).

Definition batch_ok (filters : gmap ascii Filter) (b : list (string * string)) : Prop :=
  ∀ k v, (k, v) ∈ b → entry_ok filters k v.

Definition db_ok (filters : gmap ascii Filter) (m : gmap string string) : Prop :=
  ∀ k v, m !! k = Some v → entry_ok filters k v.

End Invariants.

End WithLibraries.

End Store.


(** ** [Store.Replace] over a file system

    A directory that holds a database is identified with the contents
    of that database.  Every call that can fail at run time takes its
    verdict from [Faults]. *)
Module Replace.
Import GoStrings Store.

Abbreviation FS := (gmap string (gmap string string)).

Inductive step : Type :=
| RmPre | Close2 | Close1 | Rename1 | Rename2 | Rollback | Reopen | RmPost.

(** [o st = true]: the call made at step [st] fails. *)
Definition Faults : Type := step → bool.

(** [filepath.Dir] and [filepath.Join] on clean slash-separated
    paths. *)
Definition filepath_Dir (path : string) : string :=
  match LastIndexByte path "/"%char with
  | None => "."
  | Some O => "/"
  | Some i => take_str i path
  end.

Definition filepath_Join (dir elem : string) : string :=
  if bool_decide (dir = "/") then "/" +:+ elem
  else if bool_decide (dir = ".") then elem
  else dir +:+ "/" +:+ elem.

Definition oldPath (s : Store) : string :=
  filepath_Join (filepath_Dir (Path s)) "db-old".

(** [os.RemoveAll]. *)
Definition os_RemoveAll (fault : bool) (fs : FS) (path : string)
  : option error * FS :=
  if fault then (Some (ErrOther "removeall"), fs)
  else (None, delete path fs).

(** [os.Rename] of a database directory: the source must exist, and
    a target that exists is not empty, which makes the call fail. *)
Definition os_Rename (fault : bool) (fs : FS) (old new : string)
  : option error * FS :=
  match fs !! old with
  | None => (Some (ErrOther "rename: no such file or directory"), fs)
  | Some d =>
      if fault then (Some (ErrOther "rename"), fs)
      else if bool_decide (is_Some (fs !! new))
      then (Some (ErrOther "rename: directory not empty"), fs)
      else (None, <[new := d]> (delete old fs))
  end.

(** [pebble.Open]: opens the database of the directory, creating an
    empty one when there is none. *)
Definition pebble_Open (fault : bool) (fs : FS) (path : string)
  : option error * FS * DB :=
  if fault then (Some (ErrOther "open"), fs, mkDB ∅ true)
  else match fs !! path with
       | Some d => (None, fs, mkDB d false)
       | None => (None, <[path := ∅]> fs, mkDB ∅ false)
       end.

(** [errors.Join(err, err2)] drops a nil second error. *)
Definition errors_Join (e : error) (e2 : option error) : error :=
  match e2 with
  | None => ErrJoin1 e
  | Some e2 => ErrJoin2 e e2
  end.

Record result : Type := mkResult {
  r_err : outcome unit;
  r_fs : FS;
  r_s : Store;
  r_s2 : Store
}.

Definition unlocked (s : Store) : Store := set_blocked s (Unlock (blocked s)).

(** [Store.Replace].  [Ok ()] is the nil error. *)
Definition Replace (o : Faults) (fs : FS) (s s2 : Store) : result :=
  let oldPath := oldPath s in
  match os_RemoveAll (o RmPre) fs oldPath with
  | (Some e, fs) => mkResult (Err e) fs s s2
  | (None, fs) =>
    let s := set_blocked s (Lock (blocked s)) in
    if closed (db s2) then mkResult (Panic PebbleClosed) fs s s2 else
    let s2 := set_db s2 (mkDB (data (db s2)) true) in
    if o Close2 then mkResult (Err (ErrOther "close")) fs (unlocked s) s2 else
    if closed (db s) then mkResult (Panic PebbleClosed) fs s s2 else
    let s := set_db s (mkDB (data (db s)) true) in
    if o Close1 then mkResult (Err (ErrOther "close")) fs (unlocked s) s2 else
    match os_Rename (o Rename1) fs (Path s) oldPath with
    | (Some e, fs) => mkResult (Err e) fs (unlocked s) s2
    | (None, fs) =>
      match os_Rename (o Rename2) fs (Path s2) (Path s) with
      | (Some e, fs) =>
          let '(e2, fs) := os_Rename (o Rollback) fs oldPath (Path s) in
          mkResult (Err (errors_Join e e2)) fs (unlocked s) s2
      | (None, fs) =>
        match pebble_Open (o Reopen) fs (Path s) with
        | (Some e, fs, _) => mkResult (Err e) fs (unlocked s) s2
        | (None, fs, d) =>
            let s := unlocked (set_db s d) in
            match os_RemoveAll (o RmPost) fs oldPath with
            | (Some e, fs) => mkResult (Err e) fs s s2
            | (None, fs) => mkResult (Ok ()) fs s s2
            end
        end
      end
    end
  end.

(** The store is open, nobody holds its write lock, and its directory
    holds what the store holds. *)
Definition coherent (fs : FS) (s : Store) : Prop :=
  closed (db s) = false ∧ writer (blocked s) = false ∧
  fs !! Path s = Some (data (db s)).

(** The three directories of a replace are different ones. *)
Definition layout (s s2 : Store) : Prop :=
  Path s ≠ oldPath s ∧ Path s2 ≠ Path s ∧ Path s2 ≠ oldPath s.

(** Full success: no error, the live path holds the new contents,
    the old directory is gone, the store is open on the new contents
    and the lock is released. *)
Definition replaced (s s2 : Store) (r : result) : Prop :=
  r_err r = Ok () ∧
  r_fs r !! Path s = Some (data (db s2)) ∧
  r_fs r !! oldPath s = None ∧
  db (r_s r) = mkDB (data (db s2)) false ∧
  writer (blocked (r_s r)) = false.

(** Failure with the old shard where it was. *)
Definition kept (s : Store) (r : result) : Prop :=
  ∃ e, r_err r = Err e ∧
       r_fs r !! Path s = Some (data (db s)) ∧
       writer (blocked (r_s r)) = false.

(** An all-or-nothing replace. *)
Definition all_or_nothing (s s2 : Store) (r : result) : Prop :=
  replaced s s2 r ∨ kept s r.

(** The first call of [Replace] that fails, in the order in which
    [Replace] makes them.  The rollback rename is made only after the
    second rename has failed. *)
Definition first_fault (o : Faults) : option step :=
  if o RmPre then Some RmPre
  else if o Close2 then Some Close2
  else if o Close1 then Some Close1
  else if o Rename1 then Some Rename1
  else if o Rename2 then Some Rename2
  else if o Reopen then Some Reopen
  else if o RmPost then Some RmPost
  else None.

End Replace.

(** ** The ingestion loop of [pull.Pull] *)
Module Pull.
Import Store.

Definition batchSize : nat := 5000.

Section WithLibraries.
Context {Filter : Type} `{!Sbloom.FilterOps Filter} `{!MetaCodec}.

Record state : Type := mkState {
  st_s2 : Store;
  st_filters : gmap ascii Filter;
  st_collected : gmap string Record_;
  st_i : nat
}.

(** [collected[rec.Name]] after one record. *)
Definition collect (collected : gmap string Record_) (rec : Record_)
  : gmap string Record_ :=
  match collected !! rName rec with
  | None => <[rName rec := rec]> collected
  | Some curRec =>
      <[rName rec := mkRecord (rName curRec) (rTags curRec ++ rTags rec)
                              (rError curRec)]> collected
  end.

(** The records of the map, as [range] hands them to [WriteBatch]. *)
Definition records (collected : gmap string Record_) : list Record_ :=
  (map_to_list collected).*2.

(** The body of [for rec := range out]. *)
Definition ingest_step (st : state) (rec : Record_) : M state :=
  match rError rec with
  | Some msg => fail (ErrOther msg)
  | None =>
      let collected := collect (st_collected st) rec in
      if (batchSize <=? st_i st)%nat then
        sf ←! WriteBatch (st_s2 st) (records collected) (st_filters st);
        ret (mkState sf.1 sf.2 ∅ 1)
      else ret (mkState (st_s2 st) (st_filters st) collected (S (st_i st)))
  end.

Fixpoint ingest_loop (st : state) (recs : list Record_) : M state :=
  match recs with
  | [] => ret st
  | rec :: rest =>
      st' ←! ingest_step st rec;
      ingest_loop st' rest
  end.

(** [Pull] from the opening of the shadow shard in a fresh
    directory [dir] up to, and without, the final [s.Replace(s2)]:
    the result is the shard that the replace installs. *)
Definition refresh (dir : string) (recs : list Record_) (meta : RepoMeta)
  : M Store :=
  let s2 := Open dir ∅ in
  st ←! ingest_loop (mkState s2 ∅ ∅ 0) recs;
  sf ←! (if bool_decide (st_collected st = ∅)
         then ret (st_s2 st, st_filters st)
         else WriteBatch (st_s2 st) (records (st_collected st)) (st_filters st));
  s2 ←! WriteFilters sf.1 sf.2;
  WriteMeta s2 meta.

(** *** The invariant of the loop *)

(** A tag of a record that went through the loop is either already in
    the shard (its package has a value and the filter reports the tag)
    or waits in [collected]. *)
Definition settled (st : state) (name T : string) : Prop :=
  is_Some (data (db (st_s2 st)) !! name) ∧
  covered (st_filters st) (first_byte name) T.

Definition pending (collected : gmap string Record_) (name T : string) : Prop :=
  ∃ cur, collected !! name = Some cur ∧ T ∈ rTags cur.

Section Invariants.
Variable src : string → Prop.

Definition collected_ok (collected : gmap string Record_) : Prop :=
  ∀ k cur, collected !! k = Some cur →
           rName cur = k ∧ ∀ T, T ∈ rTags cur → src T.

Definition ingest_inv (seen : list Record_) (st : state) : Prop :=
  good (st_s2 st) ∧
  db_ok src (st_filters st) (data (db (st_s2 st))) ∧
  collected_ok (st_collected st) ∧
  ∀ rec T, rec ∈ seen → rName rec ≠ EmptyString → T ∈ rTags rec →
           settled st (rName rec) T ∨ pending (st_collected st) (rName rec) T.

End Invariants.

End WithLibraries.

End Pull.

(** ** A small Bloom filter and a metadata codec to run the model on

    A growable bit array probed at two positions per tag.  It stands in
    for [sbloom] wherever the store is evaluated on concrete data. *)
Module BitBloom.

Fixpoint set_bit (n : nat) (bits : list bool) : list bool :=
  match n, bits with
  | O, [] => [true]
  | O, _ :: rest => true :: rest
  | S n', [] => false :: set_bit n' []
  | S n', b :: rest => b :: set_bit n' rest
  end.

Fixpoint get_bit (n : nat) (bits : list bool) : bool :=
  match n, bits with
  | _, [] => false
  | O, b :: _ => b
  | S n', _ :: rest => get_bit n' rest
  end.

Definition byte_sum (t : string) : nat :=
  foldr (λ c acc, nat_of_ascii c + acc) 0 (list_ascii_of_string t).

Definition hash1 (t : string) : nat := byte_sum t mod 31.
Definition hash2 (t : string) : nat := (7 * String.length t + byte_sum t) mod 29.

Definition add (bits : list bool) (t : string) : list bool :=
  set_bit (hash2 t) (set_bit (hash1 t) bits).

Definition lookup (bits : list bool) (t : string) : bool :=
  get_bit (hash1 t) bits && get_bit (hash2 t) bits.

Fixpoint encode (bits : list bool) : string :=
  match bits with
  | [] => EmptyString
  | b :: rest => String (if b then "1"%char else "0"%char) (encode rest)
  end.

Fixpoint decode (s : string) : option (list bool) :=
  match s with
  | EmptyString => Some []
  | String c rest =>
      if bool_decide (c = "1"%char) then (true ::.) <$> decode rest
      else if bool_decide (c = "0"%char) then (false ::.) <$> decode rest
      else None
  end.

Lemma get_set_same n bits : get_bit n (set_bit n bits) = true.
Proof.
  revert bits; induction n as [|n IH]; intros [|b rest]; simpl; auto.
Qed.

Lemma get_set_mono n m bits :
  get_bit m bits = true → get_bit m (set_bit n bits) = true.
Proof.
  revert m bits; induction n as [|n IH]; intros [|m] [|b rest]; simpl;
    auto; try discriminate.
Qed.

Lemma decode_encode bits : decode (encode bits) = Some bits.
Proof.
  induction bits as [|[] rest IH]; simpl; [done| |]; by rewrite IH.
Qed.

Global Program Instance ops : Sbloom.FilterOps (list bool) := {|
  Sbloom.NewFilter := [];
  Sbloom.Add := add;
  Sbloom.Lookup := lookup;
  Sbloom.GobEncode := encode;
  Sbloom.GobDecode := decode
|}.
Next Obligation.
  intros f t. unfold lookup, add.
  apply andb_true_intro; split;
    [apply get_set_mono, get_set_same | apply get_set_same].
Qed.
Next Obligation.
  intros f t u. unfold lookup, add.
  intros [H1 H2]%andb_prop.
  apply andb_true_intro; split; do 2 apply get_set_mono; assumption.
Qed.
Next Obligation. exact decode_encode. Qed.

(** The codec keeps the two fields on two lines. *)
Definition marshal (m : Store.RepoMeta) : string :=
  Store.ETag m +:+ String "010"%char (Store.LastModified m).

Definition unmarshal (s : string) : option Store.RepoMeta :=
  let '(etag, lastmod, ok) := GoStrings.Cut s (String "010"%char EmptyString) in
  if ok then Some (Store.mkMeta etag lastmod) else None.

Global Instance codec : Store.MetaCodec := {|
  Store.Marshal := marshal;
  Store.Unmarshal := unmarshal
|}.

End BitBloom.

(** ** The shard of the search scenario: three packages written by one
    batch into a fresh store, then the filters. *)
Module Scenario.
Import Store.

Definition batch : list Record_ :=
  [ mkRecord "A" ["bin=foo"; "lib=libX.so.1"] None;
    mkRecord "B" ["lib=libX.so.1"] None;
    mkRecord "C" ["bin=foo"] None ].

Definition fresh : Store := Open "/data/r/db" ∅.

Definition built : M Store :=
  Pull.refresh (Filter := list bool) "/data/r/db" batch (mkMeta "etag" "").

Definition shard : Store :=
  match built with
  | (_, Ok s) => s
  | _ => fresh
  end.

(** The shard while a replace holds the write lock. *)
Definition shard_in_replace : Store := set_blocked shard (Lock (blocked shard)).

(** A refreshed shadow shard next to it, and the file system that
    holds both directories. *)
Definition shadow : Store :=
  Open "/data/r/distrohop-pull.1" {["D" := "bin=bar"]}.

(** The shard of another repository that holds [A] with other tags. *)
Definition mirror : Store :=
  Open "/data/q/db" {["A" := "bin=qux"]}.




Definition disk : gmap string (gmap string string) :=
  {[ Path shard := data (db shard); Path shadow := data (db shadow) ]}.

(** The second rename fails; the rollback rename fails or not. *)
Definition rename2_fails (rollback_fails : bool) : Replace.Faults :=
  λ st, match st with
        | Replace.Rename2 => true
        | Replace.Rollback => rollback_fails
        | _ => false
        end.

(** Reopening the database at the live path fails. *)
Definition reopen_fails : Replace.Faults :=
  λ st, match st with
        | Replace.Reopen => true
        | _ => false
        end.

Definition query : list string := ["bin=foo"; "lib=libX.so.1"].

(** The same set of tags, one of them given twice. *)
Definition query_dup : list string := ["bin=foo"; "bin=foo"; "lib=libX.so.1"].

Definition hit_A : TagResult :=
  mkResult (mkConf 2 2) ["bin=foo"; "lib=libX.so.1"]
           (mkPackage "A" ["bin=foo"; "lib=libX.so.1"]).
Definition hit_B : TagResult :=
  mkResult (mkConf 1 2) ["lib=libX.so.1"] (mkPackage "B" ["lib=libX.so.1"]).
Definition hit_C : TagResult :=
  mkResult (mkConf 1 2) ["bin=foo"] (mkPackage "C" ["bin=foo"]).

Definition hit_A_dup : TagResult :=
  mkResult (mkConf 3 3) ["bin=foo"; "bin=foo"; "lib=libX.so.1"]
           (mkPackage "A" ["bin=foo"; "lib=libX.so.1"]).
Definition hit_B_dup : TagResult :=
  mkResult (mkConf 1 3) ["lib=libX.so.1"] (mkPackage "B" ["lib=libX.so.1"]).
Definition hit_C_dup : TagResult :=
  mkResult (mkConf 2 3) ["bin=foo"; "bin=foo"] (mkPackage "C" ["bin=foo"]).

End Scenario.

(** ** The kinds of tags that [tags.Generate] writes *)
Module TagKinds.

(** The part of a tag before its [=]. *)
Definition tag_kinds : list string :=
  ["bin"; "icon"; "man"; "py"; "pkgcfg"; "desktop"; "dbus"; "systemd";
   "hdr"; "lib"; "file"]%string.

(** A byte that [soversionIsValid] lets through. *)
Definition version_byte (c : ascii) : Prop :=
  Tags.is_digit c = true ∨ c = "."%char.

(** [kind=value] with one of the kinds above. *)
Definition tag_shape (tag : string) : Prop :=
  ∃ kind value, tag = kind +:+ "=" +:+ value ∧ kind ∈ tag_kinds.

End TagKinds.

(** ** Readings of the store used to state its properties *)
Module StoreViews.
Import GoStrings Store.

(** More overlapping tags first; among equals, the smaller name. *)
Definition ranked (a b : TagResult) : Prop :=
  (length (Overlap b) <= length (Overlap a))%nat ∧
  (length (Overlap a) = length (Overlap b) →
   String.le (Name (Package_ a)) (Name (Package_ b))).

(** The tags stored for a name, as [GetPkg] splits them; none when the
    name has no entry. *)
Definition stored_tags (m : gmap string string) (name : string) : list string :=
  match m !! name with
  | Some v => Split v US
  | None => []
  end.

(** [WriteBatch] passes over a record without a name or without tags. *)
Definition skipped (item : Record_) : bool :=
  (String.length (rName item) =? 0)%nat || (length (rTags item) =? 0)%nat.

(** The tags [WriteBatch] writes for a record: the stored ones and the
    new ones, sorted, each once. *)
Definition merged_tags (m : gmap string string) (item : Record_) : list string :=
  Compact (Sort (stored_tags m (rName item) ++ rTags item)).

(** The writes that [WriteBatch] records in its batch. *)
Definition batch_writes (m : gmap string string) (batch : list Record_)
  : list (string * string) :=
  omap (λ item, if skipped item then None
                else Some (rName item, join (merged_tags m item))) batch.

(** The database after [WriteBatch] committed the batch. *)
Definition after_batch (m : gmap string string) (batch : list Record_)
  : gmap string string :=
  foldl (λ m kv, <[kv.1 := kv.2]> m) m (batch_writes m batch).

(** A tag comes from one of the records under the name. *)
Definition ingested (recs : list Record_) (name T : string) : Prop :=
  ∃ rec, rec ∈ recs ∧ rName rec = name ∧ T ∈ rTags rec.

End StoreViews.

(** ** What the loop of [Pull] keeps true of the shadow shard *)
Module PullViews.
Import GoStrings Store Pull StoreViews.

Section WithLibraries.
Context {Filter : Type}.

(** The tags in the shard and the tags that wait in [collected] are
    together the tags of the records read so far, name by name; the
    stored lists are sorted and free of duplicates. *)
Definition exact_inv (seen : list Record_) (st : state (Filter := Filter)) : Prop :=
  let m := data (db (st_s2 st)) in
  good (st_s2 st) ∧ SearchThreads (st_s2 st) = 4%Z ∧
  (∀ k cur, st_collected st !! k = Some cur → rName cur = k) ∧
  (∀ rec T, rec ∈ seen → T ∈ rTags rec → sep_free T = true) ∧
  (∀ k, is_Some (m !! k) → stored_tags m k ≠ []) ∧
  (∀ k, StronglySorted String.le (stored_tags m k) ∧ NoDup (stored_tags m k)) ∧
  (∀ k T, T ∈ stored_tags m k ∨ pending (st_collected st) k T → ingested seen k T) ∧
  (∀ k T, k ≠ EmptyString → ingested seen k T →
          T ∈ stored_tags m k ∨ pending (st_collected st) k T).

(** Every name in the shard, and every name with tags that waits in
    [collected], is the name of a record read so far that has a tag. *)
Definition key_inv (seen : list Record_) (st : state (Filter := Filter)) : Prop :=
  good (st_s2 st) ∧
  (∀ k cur, st_collected st !! k = Some cur → rName cur = k) ∧
  (∀ k, is_Some (data (db (st_s2 st)) !! k) → ∃ T, ingested seen k T) ∧
  (∀ k T, pending (st_collected st) k T → ingested seen k T).

End WithLibraries.

End PullViews.

(** ** The interface [store.ReadOnly]

    A read returns a value and an error, or panics.  The errors are
    those of package [store] and the one that package [combined] adds. *)
Module Iface.
Import GoStrings Store.

Inductive error : Type :=
| ErrNoSuchPackage (name : string)
| StoreErr (e : Store.error).

Inductive reply (A : Type) : Type :=
| Crash (p : panic)
| Return (out : A) (err : option error).
Global Arguments Crash {A} p.
Global Arguments Return {A} out err.

Record ReadOnly : Type := mkReadOnly {
  ro_GetPkg : string → reply Package;
  ro_GetPkgNamesByPrefix : string → Z → reply (list string);
  ro_Search : list string → reply (list TagResult)
}.

(** The zero value that a Go function returns beside an error. *)
Definition lift {A} (zero : A) (m : M A) : reply A :=
  match m.2 with
  | Ok a => Return a None
  | Err e => Return zero (Some (StoreErr e))
  | Panic p => Crash p
  end.

Definition no_package : Package := mkPackage EmptyString [].

(** [*store.Store] as a [ReadOnly]. *)
Definition of_store {Filter : Type} `{!Sbloom.FilterOps Filter} (s : Store.Store)
  : ReadOnly :=
  mkReadOnly (λ name, lift no_package (Store.GetPkg s name))
             (λ prefix n, lift [] (Store.GetPkgNamesByPrefix s prefix n))
             (λ tags, lift [] (Store.Search (Filter := Filter) s tags)).

(** [errors.Is(err, pebble.ErrNotFound)]: the error itself or one that
    [errors.Join] holds. *)
Fixpoint store_not_found (e : Store.error) : bool :=
  match e with
  | ErrNotFound => true
  | ErrJoin1 e1 => store_not_found e1
  | ErrJoin2 e1 e2 => store_not_found e1 || store_not_found e2
  | _ => false
  end.

Definition is_not_found (e : error) : bool :=
  match e with
  | StoreErr e => store_not_found e
  | ErrNoSuchPackage _ => false
  end.

End Iface.

(** ** Package [combined]

    Each method starts one goroutine per store and waits for all of
    them.  The methods below take the stores in the order in which
    their goroutines finish, [done], which may be any arrangement of
    [cs.Stores]: a panic in a goroutine ends the process, the error of
    [errgroup.Wait] is the first one returned, and the values are
    appended, or overwritten, as the goroutines finish. *)
Module Combined.
Import GoStrings Store Iface.

Fixpoint first_panic {A} (rs : list (reply A)) : option panic :=
  match rs with
  | [] => None
  | Crash p :: _ => Some p
  | Return _ _ :: rest => first_panic rest
  end.

(** The first error among those that a goroutine hands to the group. *)
Fixpoint first_error {A} (handed : error → bool) (rs : list (reply A))
  : option error :=
  match rs with
  | [] => None
  | Return _ (Some e) :: rest =>
      if handed e then Some e else first_error handed rest
  | _ :: rest => first_error handed rest
  end.

(** The values of the calls that returned no error. *)
Definition values {A} (rs : list (reply A)) : list A :=
  omap (λ r, match r with Return a None => Some a | _ => None end) rs.

(** [GetPkg]: [out] is overwritten by every store that holds the
    name; [pebble.ErrNotFound] of a store is passed over. *)
Definition GetPkg (done : list ReadOnly) (name : string) : reply Package :=
  let rs := (λ s, ro_GetPkg s name) <$> done in
  match first_panic rs with
  | Some p => Crash p
  | None =>
      let out := foldl (λ _ pkg, pkg) no_package (values rs) in
      match first_error (λ e, negb (is_not_found e)) rs with
      | Some e => Return out (Some e)
      | None =>
          if bool_decide (Name out = EmptyString)
          then Return out (Some (ErrNoSuchPackage name))
          else Return out None
      end
  end.

(** [GetPkgNamesByPrefix]; [out[:n]] panics for a negative [n]. *)
Definition GetPkgNamesByPrefix (done : list ReadOnly) (prefix : string) (n : Z)
  : reply (list string) :=
  let rs := (λ s, ro_GetPkgNamesByPrefix s prefix n) <$> done in
  match first_panic rs with
  | Some p => Crash p
  | None =>
      match first_error (λ _, true) rs with
      | Some e => Return [] (Some e)
      | None =>
          let out := Sort (concat (values rs)) in
          if (n <? Z.of_nat (length out))%Z then
            if (n <? 0)%Z then Crash OutOfRange
            else Return (take (Z.to_nat n) out) None
          else Return out None
      end
  end.

(** [Search], without the latency. *)
Definition Search (done : list ReadOnly) (tags : list string)
  : reply (list TagResult) :=
  let rs := (λ s, ro_Search s tags) <$> done in
  match first_panic rs with
  | Some p => Crash p
  | None =>
      match first_error (λ _, true) rs with
      | Some e => Return [] (Some e)
      | None => Return (SortResults (concat (values rs))) None
      end
  end.

End Combined.

(** ** Package [cached]

    The cache is [github.com/patrickmn/go-cache]: an entry carries the
    instant, in nanoseconds, after which it is expired ([0] for an
    entry that never expires); [Get] passes over an expired entry and
    the janitor's [DeleteExpired] removes the expired entries every
    cleanup interval.  The readings of the clock are arguments. *)
Module Cached.
Import GoStrings Store Iface.

(** [strings.Join(elems, sep)]. *)
Fixpoint Join (elems : list string) (sep : string) : string :=
  match elems with
  | [] => EmptyString
  | e :: rest =>
      match rest with
      | [] => e
      | _ :: _ => e +:+ sep +:+ Join rest sep
      end
  end.

(** [cache.Item] holding a [cacheRecord], without its latency. *)
Record Item : Type := mkItem {
  Object : list TagResult;
  Expiration : Z
}.

Definition expired (now : Z) (it : Item) : bool :=
  (0 <? Expiration it)%Z && (Expiration it <? now)%Z.

(** [cache.Get] at the instant [now]. *)
Definition cache_Get (items : gmap string Item) (now : Z) (k : string)
  : option (list TagResult) :=
  match items !! k with
  | Some it => if expired now it then None else Some (Object it)
  | None => None
  end.

(** [cache.Set(k, x, cache.DefaultExpiration)] at the instant [now],
    for a cache made with the default expiration [exp]. *)
Definition cache_Set (items : gmap string Item) (exp now : Z) (k : string)
    (x : list TagResult) : gmap string Item :=
  <[k := mkItem x (if (0 <? exp)%Z then now + exp else 0)%Z]> items.

(** [cache.DeleteExpired] at the instant [now]. *)
Definition cache_DeleteExpired (items : gmap string Item) (now : Z)
  : gmap string Item :=
  filter (λ kv, expired now kv.2 = false) items.

(** The cached store: the store it wraps, the expiration [exp] that
    [New] hands to [cache.New], and the entries of the cache. *)
Record Store : Type := mkCached {
  inner : ReadOnly;
  exp : Z;
  cache : gmap string Item
}.

Definition cacheKey (tags : list string) : string :=
  Join tags (String US EmptyString).

(** [Search]: the cache after the call and what the call returns.
    [now] is the instant at which [cache.Get] looks at the entry and
    [later] the one at which [cache.Set] stamps the new entry. *)
Definition Search (cs : Store) (now later : Z) (tags : list string)
  : Store * reply (list TagResult) :=
  match cache_Get (cache cs) now (cacheKey tags) with
  | Some results => (cs, Return results None)
  | None =>
      match ro_Search (inner cs) tags with
      | Crash p => (cs, Crash p)
      | Return _ (Some e) => (cs, Return [] (Some e))
      | Return res None =>
          if bool_decide (res ≠ [])
          then (mkCached (inner cs) (exp cs)
                  (cache_Set (cache cs) (exp cs) later (cacheKey tags) res),
                Return res None)
          else (cs, Return res None)
      end
  end.

(** A run of the janitor between two calls. *)
Definition sweep (cs : Store) (now : Z) : Store :=
  mkCached (inner cs) (exp cs) (cache_DeleteExpired (cache cs) now).

(** What happens to a cached store between two calls: the janitor
    runs, or a query is answered; the wrapped combined store is
    refreshed in place, so each query names the answers [other] that
    the wrapped store gives by then. *)
Inductive op : Type :=
  | Sweep (now : Z)
  | Query (other : ReadOnly) (now later : Z) (tags : list string).



Definition step (cs : Store) (o : op) : Store :=
  match o with
  | Sweep now => sweep cs now
  | Query other now later tags =>
      (Search (mkCached other (exp cs) (cache cs)) now later tags).1
  end.

Definition run (cs : Store) (ops : list op) : Store := foldl step cs ops.

(** Every entry of the cache is a non-empty answer that the wrapped
    store gives for a tag list with the key of the entry. *)
Definition cache_ok (cs : Store) : Prop :=
  ∀ key it, cache cs !! key = Some it →
    Object it ≠ [] ∧
    ∃ tags, cacheKey tags = key ∧
            ro_Search (inner cs) tags = Return (Object it) None.

End Cached.

(** The cache of the server, [cached.New(cs, time.Hour, 10*time.Minute)],
    over the shard of the scenario. *)
Module CacheScenario.
Import Iface Cached.

Definition hour : Z := 3600000000000.

Definition results : list Store.TagResult :=
  [Scenario.hit_A; Scenario.hit_B; Scenario.hit_C].

Definition shard : ReadOnly := of_store (Filter := list bool) Scenario.shard.
Definition shadow : ReadOnly := of_store (Filter := list bool) Scenario.shadow.

Definition cold : Cached.Store := mkCached shard hour ∅.

(** The cache after the query of the scenario was answered at the
    instant [5]. *)
Definition warm : Cached.Store :=
  mkCached shard hour
    (<[cacheKey Scenario.query := mkItem results (5 + hour)]> ∅).

(** The same key as the query of the scenario, from one tag. *)
Definition joined_query : list string :=
  ["bin=foo" +:+ String Store.US "lib=libX.so.1"].



End CacheScenario.

(** * Proofs *)

(** ** The derivative matcher decides the language *)
Module RegexFacts.
Import Regex.

Lemma nullable_spec r : nullable r = true ↔ matches r [].
Proof.
  split.
  - induction r; simpl; intros Hn; try discriminate.
    + constructor.
    + apply andb_prop in Hn as [H1 H2].
      change (@nil ascii) with (@nil ascii ++ []). constructor; auto.
    + apply orb_prop in Hn as [H|H]; [apply m_alt_l|apply m_alt_r]; auto.
    + constructor.
  - intros Hm. remember [] as w eqn:Hw. induction Hm; simpl; auto; try discriminate.
    + apply app_eq_nil in Hw as [-> ->]. rewrite IHHm1, IHHm2; auto.
    + rewrite IHHm; auto.
    + rewrite IHHm; auto using orb_true_r.
Qed.

Lemma star_cons r c w :
  matches (Star r) (c :: w) →
  ∃ w1 w2, w = w1 ++ w2 ∧ matches r (c :: w1) ∧ matches (Star r) w2.
Proof.
  intros Hm. remember (Star r) as sr eqn:Hsr. remember (c :: w) as cw eqn:Hcw.
  revert w Hcw.
  induction Hm as [| | | | | |r' w1 w2 H1 _ H2 IH2]; intros w' Hcw;
    try discriminate.
  injection Hsr as ->. destruct w1 as [|a w1]; simpl in Hcw.
  - apply IH2; auto.
  - injection Hcw as <- <-. eauto.
Qed.

Lemma cat_inv r1 r2 w :
  matches (Cat r1 r2) w →
  ∃ w1 w2, w = w1 ++ w2 ∧ matches r1 w1 ∧ matches r2 w2.
Proof. inversion 1; subst; eauto. Qed.

Lemma alt_inv r1 r2 w : matches (Alt r1 r2) w → matches r1 w ∨ matches r2 w.
Proof. inversion 1; subst; eauto. Qed.

Lemma class_inv p w : matches (Class p) w → ∃ c, w = [c] ∧ p c = true.
Proof. inversion 1; subst; eauto. Qed.

Lemma deriv_spec c r w : matches (deriv c r) w ↔ matches r (c :: w).
Proof.
  revert w. induction r as [| |p|r1 IH1 r2 IH2|r1 IH1 r2 IH2|r IH]; intros w; simpl.
  - split; inversion 1.
  - split; inversion 1.
  - destruct (p c) eqn:Hp; split; intros Hm.
    + inversion Hm; subst. by constructor.
    + apply class_inv in Hm as (c' & [= -> ->] & _). constructor.
    + inversion Hm.
    + apply class_inv in Hm as (c' & [= -> ->] & Hc). congruence.
  - assert (Hcat : matches (Cat (deriv c r1) r2) w →
                   matches (Cat r1 r2) (c :: w)).
    { intros (w1 & w2 & -> & H1 & H2)%cat_inv.
      change (c :: w1 ++ w2) with ((c :: w1) ++ w2).
      constructor; [by apply IH1|done]. }
    assert (Hinv : matches (Cat r1 r2) (c :: w) →
                   matches (Cat (deriv c r1) r2) w ∨
                   (matches r1 [] ∧ matches r2 (c :: w))).
    { intros (w1 & w2 & Heq & H1 & H2)%cat_inv.
      destruct w1 as [|a w1]; simpl in Heq.
      - right. subst. auto.
      - injection Heq as <- ->. left. constructor; [by apply IH1|done]. }
    destruct (nullable r1) eqn:Hn; split; intros Hm.
    + apply alt_inv in Hm as [Hm|Hm]; [auto|].
      change (c :: w) with ([] ++ c :: w). constructor.
      * by apply nullable_spec.
      * by apply IH2.
    + destruct (Hinv Hm) as [?|[_ ?]]; [by apply m_alt_l|].
      apply m_alt_r. by apply IH2.
    + auto.
    + destruct (Hinv Hm) as [?|[Hnil _]]; [done|].
      apply nullable_spec in Hnil. congruence.
  - split; intros [Hm|Hm]%alt_inv.
    + apply m_alt_l. by apply IH1.
    + apply m_alt_r. by apply IH2.
    + apply m_alt_l. by apply IH1.
    + apply m_alt_r. by apply IH2.
  - split; intros Hm.
    + apply cat_inv in Hm as (w1 & w2 & -> & H1 & H2).
      change (c :: w1 ++ w2) with ((c :: w1) ++ w2).
      constructor; [by apply IH|done].
    + apply star_cons in Hm as (w1 & w2 & -> & H1 & H2).
      constructor; [by apply IH|done].
Qed.

Lemma full_match_spec r w : full_match r w = true ↔ matches r w.
Proof.
  unfold full_match. revert r. induction w as [|c w IH]; intros r; simpl.
  - apply nullable_spec.
  - rewrite IH. apply deriv_spec.
Qed.

Lemma star_any w : matches (Star any_byte) w.
Proof.
  induction w as [|c w IH]; [constructor|].
  change (c :: w) with ([c] ++ w). constructor; [by constructor|done].
Qed.

(** [MatchString] is the unanchored search. *)
Lemma MatchString_spec r s :
  MatchString r s = true ↔ contains r (list_ascii_of_string s).
Proof.
  unfold MatchString, contains. rewrite full_match_spec. split.
  - intros (pre & rest & -> & _ & Hrest)%cat_inv.
    apply cat_inv in Hrest as (m & post & -> & Hm & _). eauto.
  - intros (pre & m & post & -> & Hm).
    constructor; [apply star_any|]. constructor; [done|apply star_any].
Qed.

Lemma MatchString_false r s :
  MatchString r s = false ↔ ¬ contains r (list_ascii_of_string s).
Proof.
  rewrite <-MatchString_spec. destruct (MatchString r s); split; done.
Qed.

End RegexFacts.

(** ** The lock, the names by prefix and the validation of tags *)
Module StoreFacts.
Import GoStrings Store Sbloom.

Section WithLibraries.
Context {Filter : Type} `{!FilterOps Filter} `{!MetaCodec}.

Lemma with_rlock_blocked {A} (s : Store) (body : M A) :
  writer (blocked s) = true → with_rlock s body = ([], Err ErrBlocked).
Proof. intros Hw. unfold with_rlock, TryRLock. by rewrite Hw. Qed.

Lemma with_rlock_free {A} (s : Store) (body : M A) :
  writer (blocked s) = false → with_rlock s body = body.
Proof. intros Hw. unfold with_rlock, TryRLock. by rewrite Hw. Qed.

(** The deferred [RUnlock] hands the lock back as [TryRLock] found it. *)
Lemma RUnlock_TryRLock m m' : TryRLock m = Some m' → RUnlock m' = m.
Proof.
  unfold TryRLock, RUnlock. destruct m as [[] n]; simpl; [done|].
  by intros [= <-].
Qed.

Lemma Lock_writer s : writer (blocked (set_blocked s (Lock (blocked s)))) = true.
Proof. reflexivity. Qed.

Lemma split_last_None prefix : split_last prefix = None ↔ prefix = EmptyString.
Proof.
  destruct prefix as [|c rest]; simpl; [done|].
  destruct (split_last rest) as [[? ?]|]; done.
Qed.

Lemma GetFilter_err s c t e :
  GetFilter s c = (t, Err e) → e = ErrBlocked ∨ e = ErrNotFound ∨ e = ErrGob.
Proof.
  unfold GetFilter, with_rlock. destruct (TryRLock (blocked s)); simpl.
  - unfold db_Get. destruct (closed (db s)); simpl; [done|].
    destruct (data (db s) !! filterKey c) as [v|]; simpl.
    + destruct (GobDecode v); simpl; intros [= <- <-]; auto.
    + intros [= <- <-]; auto.
  - intros [= <- <-]; auto.
Qed.

Lemma filter_gate_err s tags c t e :
  filter_gate s tags c = (t, Err e) → e = ErrBlocked ∨ e = ErrGob.
Proof.
  unfold filter_gate. destruct (GetFilter s c) as [t' [f|e'|p]] eqn:Hg;
    [done| |done].
  apply GetFilter_err in Hg as [->|[->| ->]]; intros [= <- <-]; auto.
Qed.

Lemma search_opt_err s tags opt t e :
  search_opt s tags opt = (t, Err e) → e = ErrBlocked ∨ e = ErrGob.
Proof.
  unfold search_opt, bind.
  destruct (filter_gate s tags (first_byte opt.1)) as [t' [found|e'|p]] eqn:Hg.
  - destruct found; simpl; [|done].
    unfold db_NewIter. destruct (closed (db s)); simpl; done.
  - apply filter_gate_err in Hg. by intros [= <- <-].
  - done.
Qed.

Lemma run_workers_err s tags opts results t e :
  run_workers s tags opts results = (t, Err e) → e = ErrBlocked ∨ e = ErrGob.
Proof.
  revert results t. induction opts as [|opt rest IH]; intros results t; simpl.
  - done.
  - unfold bind at 1.
    destruct (search_opt s tags opt) as [t' [out|e'|p]] eqn:Hs.
    + destruct (run_workers s tags rest (results ++ out)) as [t'' r] eqn:Hr.
      intros [= <- ->]. eauto.
    + apply search_opt_err in Hs. by intros [= <- <-].
    + done.
Qed.

(** *** The iterator: the entries in range, by ascending key *)

Global Instance key_le_total : Total key_le.
Proof. intros a b. unfold key_le. apply total, _. Qed.

Lemma elem_of_range_scan (m : gmap string string) lower upper kv :
  kv ∈ range_scan m lower upper ↔ m !! kv.1 = Some kv.2 ∧ in_range lower upper kv.
Proof.
  unfold range_scan. rewrite merge_sort_Permutation, list_elem_of_filter.
  rewrite elem_of_map_to_list'. tauto.
Qed.

Lemma range_scan_sorted (m : gmap string string) lower upper :
  Sorted key_le (range_scan m lower upper).
Proof. unfold range_scan. apply (Sorted_merge_sort key_le). Qed.

Lemma collect_names_take n i keys :
  (0 ≤ i)%Z → (i < n)%Z →
  collect_names n i keys = take (Z.to_nat (n - 1 - i)) keys.
Proof.
  revert i. induction keys as [|k rest IH]; intros i Hi Hn; simpl.
  - by rewrite take_nil.
  - destruct (Z.eqb_spec i (n - 1)) as [->|Hne].
    + by replace (n - 1 - (n - 1))%Z with 0%Z by lia.
    + rewrite IH by lia.
      replace (Z.to_nat (n - 1 - i)) with (S (Z.to_nat (n - 1 - (i + 1)))) by lia.
      done.
Qed.


(** With a non-empty prefix and a limit of at least one, the call
    returns the first [n-1] names of the range. *)
Lemma GetPkgNamesByPrefix_short_by_one s prefix init l n :
  good s → split_last prefix = Some (init, l) → (1 ≤ n)%Z →
  GetPkgNamesByPrefix s prefix n
  = ([Scan prefix (init +:+ String (byte_succ l) EmptyString)],
     Ok (take (Z.to_nat (n - 1))
           (range_scan (data (db s)) prefix
              (init +:+ String (byte_succ l) EmptyString)).*1)).
Proof.
  intros [Hw Hc] Hsl Hn. unfold GetPkgNamesByPrefix.
  rewrite with_rlock_free by done.
  destruct (Z.ltb_spec n 0) as [?|_]; [lia|]. rewrite Hsl.
  unfold bind, db_NewIter. rewrite Hc. simpl.
  rewrite collect_names_take by lia. do 3 f_equal. lia.
Qed.

(** *** What a result of [Search] is made of *)

Lemma scan_entry_Some tags kv r :
  scan_entry tags kv = Some r →
  Confidence r = mkConf (length (Overlap r)) (length tags) ∧
  Overlap r = filter (λ stag, stag ∈ Tags (Package_ r)) tags ∧
  Package_ r = mkPackage kv.1 (Split kv.2 US) ∧
  conf_is_zero (Confidence r) = false.
Proof.
  unfold scan_entry, overlap.
  destruct (conf_is_zero _) eqn:Hz; [done|]. by intros [= <-].
Qed.

Lemma filter_gate_true s tags c t :
  filter_gate s tags c = (t, Ok true) → tags ≠ [].
Proof.
  unfold filter_gate. destruct (GetFilter s c) as [t' [f|[]|p]];
    try done.
  intros [= _ Hex] ->. done.
Qed.

Lemma search_opt_ok s tags opt t out r :
  search_opt s tags opt = (t, Ok out) → r ∈ out →
  tags ≠ [] ∧ ∃ kv, kv ∈ range_scan (data (db s)) opt.1 opt.2 ∧
                    scan_entry tags kv = Some r.
Proof.
  unfold search_opt, bind.
  destruct (filter_gate s tags (first_byte opt.1)) as [t' [found|e|p]] eqn:Hg;
    [|done..].
  destruct found; simpl.
  - unfold db_NewIter. destruct (closed (db s)); simpl; [done|].
    intros [= <- <-] Hr. split; [by eapply filter_gate_true|].
    by apply list_elem_of_omap in Hr.
  - intros [= <- <-] Hr. by apply elem_of_nil in Hr.
Qed.

Lemma run_workers_ok s tags opts results t rs r :
  run_workers s tags opts results = (t, Ok rs) → r ∈ rs →
  r ∈ results ∨
  (tags ≠ [] ∧ ∃ opt kv, opt ∈ opts ∧
     kv ∈ range_scan (data (db s)) opt.1 opt.2 ∧
     scan_entry tags kv = Some r).
Proof.
  revert results t. induction opts as [|opt rest IH]; intros results t; simpl.
  - intros [= <- <-]. auto.
  - unfold bind at 1.
    destruct (search_opt s tags opt) as [t' [out|e|p]] eqn:Hs; [|done..].
    destruct (run_workers s tags rest (results ++ out)) as [t'' r'] eqn:Hr.
    intros [= <- ->] Hin.
    destruct (IH _ _ Hr Hin) as [Hacc|(Hne & opt' & kv & ? & ? & ?)].
    + apply elem_of_app in Hacc as [?|Hout]; [by left|].
      right. destruct (search_opt_ok _ _ _ _ _ _ Hs Hout) as (? & kv & ? & ?).
      split; [done|]. exists opt, kv. split; [left|]; done.
    + right. split; [done|]. exists opt', kv. split; [by right|done].
Qed.

Lemma insert_result_Permutation x placed : insert_result x placed ≡ₚ x :: placed.
Proof.
  induction placed as [|y rest IH]; simpl; [done|].
  destruct (result_cmp x y); try done. rewrite IH. apply Permutation_swap.
Qed.

Lemma SortResults_Permutation rs : SortResults rs ≡ₚ rs.
Proof.
  unfold SortResults. rewrite reverse_Permutation.
  induction rs as [|x rs IH] using rev_ind; [done|].
  rewrite foldl_snoc, insert_result_Permutation, IH.
  by rewrite Permutation_cons_append.
Qed.

Lemma SortResults_elem r rs : r ∈ SortResults rs ↔ r ∈ rs.
Proof. by rewrite SortResults_Permutation. Qed.

(** The comparison is antisymmetric: what is not smaller is not
    followed by something greater. *)
Lemma result_cmp_not_Lt x y : result_cmp x y ≠ Lt → result_le y x.
Proof.
  unfold result_le, result_cmp, conf_lt.
  destruct (Nat.ltb_spec (num (Confidence x) * den (Confidence y))
                         (num (Confidence y) * den (Confidence x))) as [H1|H1];
  destruct (Nat.ltb_spec (num (Confidence y) * den (Confidence x))
                         (num (Confidence x) * den (Confidence y))) as [H2|H2];
    try lia; try done.
  rewrite (String.compare_antisym (Name (Package_ x)) (Name (Package_ y))).
  by destruct (String.compare (Name (Package_ y)) (Name (Package_ x))).
Qed.

Lemma insert_result_Sorted x placed :
  Sorted (flip result_le) placed → Sorted (flip result_le) (insert_result x placed).
Proof.
  induction 1 as [|y rest Hs IH Hhd]; simpl; [by repeat constructor|].
  destruct (result_cmp x y) eqn:Hcmp.
  - constructor; [by constructor|]. constructor.
    apply result_cmp_not_Lt. by rewrite Hcmp.
  - constructor; [done|].
    destruct Hhd as [|z rest' Hz]; simpl.
    + constructor. unfold flip, result_le. by rewrite Hcmp.
    + destruct (result_cmp x z); constructor; try done;
        unfold flip, result_le; by rewrite Hcmp.
  - constructor; [by constructor|]. constructor.
    apply result_cmp_not_Lt. by rewrite Hcmp.
Qed.

Lemma SortResults_Sorted rs : Sorted result_le (SortResults rs).
Proof.
  unfold SortResults.
  apply (Sorted_reverse (flip result_le)).
  induction rs as [|x rs IH] using rev_ind; [constructor|].
  rewrite foldl_snoc. by apply insert_result_Sorted.
Qed.

(** Every result of a successful search comes from an entry of the
    database, scanned with a non-empty tag list. *)
Lemma Search_ok s tags t rs r :
  Search s tags = (t, Ok rs) → r ∈ rs →
  tags ≠ [] ∧ ∃ opt kv, opt ∈ iterOpts ∧
    kv ∈ range_scan (data (db s)) opt.1 opt.2 ∧
    scan_entry tags kv = Some r.
Proof.
  unfold Search. destruct (find _ tags); [done|].
  destruct (SearchThreads s <=? 0)%Z.
  - intros [= <- <-] Hr. by apply elem_of_nil in Hr.
  - unfold bind.
    destruct (run_workers s tags iterOpts []) as [t' [res|e|p]] eqn:Hr;
      [|done..].
    intros [= <- <-] Hin. apply (proj1 (SortResults_elem _ _)) in Hin.
    destruct (run_workers_ok _ _ _ _ _ _ _ Hr Hin) as [Hnil|?]; [|done].
    by apply elem_of_nil in Hnil.
Qed.

(** *** The search with no tag *)

Lemma filter_gate_nil s c :
  writer (blocked s) = false → closed (db s) = false →
  (∀ v, data (db s) !! filterKey c = Some v → is_Some (GobDecode v)) →
  filter_gate s [] c = ([Read (filterKey c)], Ok false).
Proof.
  intros Hw Hc Hdec. unfold filter_gate, GetFilter.
  rewrite with_rlock_free by done. unfold bind, db_Get. rewrite Hc.
  destruct (data (db s) !! filterKey c) as [v|] eqn:Hv; [|done].
  destruct (Hdec v eq_refl) as [f ->]. done.
Qed.

Lemma run_workers_nil s opts results :
  writer (blocked s) = false → closed (db s) = false →
  (∀ opt v, opt ∈ opts →
     data (db s) !! filterKey (first_byte opt.1) = Some v →
     is_Some (GobDecode v)) →
  ∃ t, run_workers s [] opts results = (t, Ok results) ∧ Forall filter_read t.
Proof.
  intros Hw Hc. revert results.
  induction opts as [|opt rest IH]; intros results Hdec; simpl.
  - exists []. by split.
  - destruct (IH results) as (t & Ht & Hall).
    { intros opt' v ?. apply Hdec. by right. }
    unfold bind at 1, search_opt, bind.
    rewrite filter_gate_nil; [|done..|].
    2:{ intros v. apply Hdec. by left. }
    simpl. rewrite app_nil_r, Ht.
    eexists. split; [done|]. constructor; [by eexists|done].
Qed.

(** *** Tag lists with the same elements *)

Lemma find_invalid_same_set (T1 T2 : list string) (bad : string → bool) :
  (∀ x, x ∈ T1 ↔ x ∈ T2) → find bad T1 = None → find bad T2 = None.
Proof.
  intros Hset Hn. destruct (find bad T2) as [x|] eqn:Hf; [|done].
  apply find_some in Hf as [Hin Hb].
  apply list_elem_of_In, Hset, list_elem_of_In in Hin.
  eapply find_none in Hn; [|done]. congruence.
Qed.

Lemma existsb_same_set {A} (f : A → bool) (T1 T2 : list A) :
  (∀ x, x ∈ T1 ↔ x ∈ T2) → existsb f T1 = existsb f T2.
Proof.
  intros Hset. apply eq_true_iff_eq. rewrite !existsb_exists.
  split; intros (x & Hin & Hx); exists x; split; try done;
    by apply list_elem_of_In, Hset, list_elem_of_In.
Qed.

Lemma filter_gate_same_set s (T1 T2 : list string) c :
  (∀ x, x ∈ T1 ↔ x ∈ T2) → filter_gate s T1 c = filter_gate s T2 c.
Proof.
  intros Hset. unfold filter_gate.
  destruct (GetFilter s c) as [t [f|e|p]]; [|done..].
  by rewrite (existsb_same_set _ T1 T2).
Qed.

Lemma scan_entry_same_set (T1 T2 : list string) kv :
  (∀ x, x ∈ T1 ↔ x ∈ T2) →
  option_Forall2 (same_match T1 T2) (scan_entry T1 kv) (scan_entry T2 kv).
Proof.
  intros Hset. unfold scan_entry, overlap, conf_is_zero. simpl.
  set (P := λ stag : string, stag ∈ Split kv.2 US).
  assert (Hov : ∀ x, x ∈ filter P T1 ↔ x ∈ filter P T2).
  { intros x. rewrite !list_elem_of_filter. by rewrite Hset. }
  assert (Hz : ∀ T : list string, (length T =? 0)%nat = true ↔ ∀ x, x ∉ T).
  { intros T. rewrite Nat.eqb_eq. split.
    - intros ->%length_zero_iff_nil x. apply not_elem_of_nil.
    - intros Hno. destruct T as [|y T]; [done|]. destruct (Hno y). by left. }
  assert (H1 : (length (filter P T1) =? 0)%nat = (length (filter P T2) =? 0)%nat).
  { apply eq_true_iff_eq. rewrite !Hz. split; intros Hno x Hx;
      apply (Hno x); by apply Hov. }
  assert (H2 : (length T1 =? 0)%nat = (length T2 =? 0)%nat).
  { apply eq_true_iff_eq. rewrite !Hz. split; intros Hno x Hx;
      apply (Hno x); by apply Hset. }
  rewrite H1, H2.
  destruct ((length (filter P T2) =? 0)%nat && negb (length T2 =? 0)%nat);
    constructor.
  split; [done|]. split; [done|]. simpl. intros Hperm.
  by rewrite Hperm.
Qed.

Lemma omap_scan_same_set (T1 T2 : list string) kvs :
  (∀ x, x ∈ T1 ↔ x ∈ T2) →
  Forall2 (same_match T1 T2)
    (omap (scan_entry T1) kvs) (omap (scan_entry T2) kvs).
Proof.
  intros Hset. induction kvs as [|kv kvs IH]; simpl; [constructor|].
  destruct (scan_entry_same_set T1 T2 kv Hset); [by constructor|done].
Qed.

Lemma search_opt_same_set s (T1 T2 : list string) opt t out1 :
  (∀ x, x ∈ T1 ↔ x ∈ T2) →
  search_opt s T1 opt = (t, Ok out1) →
  ∃ out2, search_opt s T2 opt = (t, Ok out2) ∧
          Forall2 (same_match T1 T2) out1 out2.
Proof.
  intros Hset. unfold search_opt.
  rewrite <-(filter_gate_same_set s T1 T2) by done. unfold bind.
  destruct (filter_gate s T1 (first_byte opt.1)) as [t' [found|e|p]];
    [|done..].
  destruct found; simpl.
  - unfold db_NewIter. destruct (closed (db s)); simpl; [done|].
    intros [= <- <-]. eexists. split; [done|]. by apply omap_scan_same_set.
  - intros [= <- <-]. eexists. split; [done|]. constructor.
Qed.

Lemma run_workers_same_set s (T1 T2 : list string) opts acc1 acc2 t rs1 :
  (∀ x, x ∈ T1 ↔ x ∈ T2) →
  Forall2 (same_match T1 T2) acc1 acc2 →
  run_workers s T1 opts acc1 = (t, Ok rs1) →
  ∃ rs2, run_workers s T2 opts acc2 = (t, Ok rs2) ∧
         Forall2 (same_match T1 T2) rs1 rs2.
Proof.
  intros Hset. revert acc1 acc2 t.
  induction opts as [|opt rest IH]; intros acc1 acc2 t Hacc; simpl.
  - intros [= <- <-]. eauto.
  - unfold bind.
    destruct (search_opt s T1 opt) as [t' [out1|e|p]] eqn:Hs; [|done..].
    destruct (search_opt_same_set _ _ _ _ _ _ Hset Hs) as (out2 & -> & Hout).
    destruct (run_workers s T1 rest (acc1 ++ out1)) as [t1 r1] eqn:Hr.
    intros [= <- ->].
    destruct (IH (acc1 ++ out1) (acc2 ++ out2) t1) as (rs2 & -> & Hrs);
      [by apply Forall2_app|done|].
    eauto.
Qed.

Lemma Forall2_elem_l {A B} (R : A → B → Prop) l1 l2 x :
  Forall2 R l1 l2 → x ∈ l1 → ∃ y, y ∈ l2 ∧ R x y.
Proof.
  induction 1 as [|a b l1 l2 Hab _ IH]; [by intros ?%elem_of_nil|].
  intros [->|Hin]%elem_of_cons.
  - exists b. split; [left|done].
  - destruct (IH Hin) as (y & ? & ?). exists y. split; [by right|done].
Qed.

Lemma Search_same_set s (T1 T2 : list string) t rs1 :
  (∀ x, x ∈ T1 ↔ x ∈ T2) →
  Search s T1 = (t, Ok rs1) →
  ∃ rs2, Search s T2 = (t, Ok rs2) ∧
         ∀ r1, r1 ∈ rs1 → ∃ r2, r2 ∈ rs2 ∧ same_match T1 T2 r1 r2.
Proof.
  intros Hset. unfold Search.
  destruct (find _ T1) eqn:Hf; [done|].
  rewrite (find_invalid_same_set T1 T2 _ Hset Hf).
  destruct (SearchThreads s <=? 0)%Z.
  - intros [= <- <-]. eexists. split; [done|].
    by intros r1 ?%elem_of_nil.
  - unfold bind.
    destruct (run_workers s T1 iterOpts []) as [t' [res|e|p]] eqn:Hr;
      [|done..].
    destruct (run_workers_same_set s T1 T2 iterOpts [] [] _ _ Hset
                (List.Forall2_nil _) Hr) as (res2 & -> & Hres).
    intros [= <- <-]. eexists. split; [done|].
    intros r1 Hin. apply (proj1 (SortResults_elem _ _)) in Hin.
    destruct (Forall2_elem_l _ _ _ _ Hres Hin) as (r2 & ? & ?).
    exists r2. split; [by apply SortResults_elem|done].
Qed.



Lemma filters_decode_spec s :
  filters_decode s = true →
  ∀ c v, c ∈ startChars → data (db s) !! filterKey c = Some v →
         is_Some (GobDecode v).
Proof.
  unfold filters_decode. rewrite forallb_forall.
  intros Hall c v Hc%list_elem_of_In Hv. specialize (Hall c Hc).
  rewrite Hv in Hall. by apply bool_decide_eq_true in Hall.
Qed.

End WithLibraries.

End StoreFacts.

(** ** What a refresh writes: packages, filters, metadata *)
Module IngestFacts.
Import GoStrings Store Sbloom StoreFacts.

Lemma str_app_nil_r s : s +:+ EmptyString = s.
Proof. induction s as [|c s IH]; simpl; [done|]. unfold String.app in *. simpl. by rewrite IH. Qed.

Lemma str_app_assoc s1 s2 s3 : (s1 +:+ s2) +:+ s3 = s1 +:+ (s2 +:+ s3).
Proof. induction s1 as [|c s1 IH]; simpl; [done|]. unfold String.app in *. simpl. by rewrite IH. Qed.

Lemma Split_nonempty s sep : Split s sep ≠ [].
Proof.
  induction s as [|c s IH]; simpl; [done|].
  destruct (byte_eqb c sep); [done|]. by destruct (Split s sep).
Qed.

Lemma Split_sep_free s w : w ∈ Split s US → sep_free w = true.
Proof.
  revert w. induction s as [|c s IH]; simpl; intros w.
  - by intros ->%list_elem_of_singleton.
  - destruct (byte_eqb c US) eqn:Hc.
    + intros [->|?]%elem_of_cons; [done|auto].
    + destruct (Split s US) as [|w0 ws] eqn:Hs.
      * intros ->%list_elem_of_singleton. simpl. by rewrite Hc.
      * intros [->|?]%elem_of_cons.
        -- simpl. rewrite Hc. simpl. apply IH. by left.
        -- apply IH. by right.
Qed.

Lemma Split_app_sep t rest :
  sep_free t = true → Split (t +:+ String US rest) US = t :: Split rest US.
Proof.
  induction t as [|c t IH]; simpl; intros Hf.
  - reflexivity.
  - apply andb_prop in Hf as [Hc Ht]. apply negb_true_iff in Hc.
    change (String c t +:+ String US rest) with (String c (t +:+ String US rest)).
    simpl. rewrite Hc, IH by done. done.
Qed.

Lemma Split_sep_free_id t : sep_free t = true → Split t US = [t].
Proof.
  induction t as [|c t IH]; simpl; intros Hf; [done|].
  apply andb_prop in Hf as [Hc Ht]. apply negb_true_iff in Hc.
  by rewrite Hc, IH.
Qed.

(** Splitting the serialised form gives the tags back, when no tag
    holds the separator. *)
Lemma Split_join ts :
  ts ≠ [] → (∀ T, T ∈ ts → sep_free T = true) → Split (join ts) US = ts.
Proof.
  induction ts as [|t ts IH]; [done|]. intros _ Hfree.
  destruct ts as [|t' ts].
  - simpl. apply Split_sep_free_id, Hfree. by left.
  - change (join (t :: t' :: ts)) with (t +:+ String US (join (t' :: ts))).
    rewrite Split_app_sep by (apply Hfree; by left).
    rewrite IH; [done|done|]. intros T HT. apply Hfree. by right.
Qed.

Lemma elem_of_rev {A} (x : A) l : x ∈ l → x ∈ rev l.
Proof. rewrite !list_elem_of_In. apply in_rev. Qed.

Lemma Compact_elem x l : x ∈ Compact l ↔ x ∈ l.
Proof.
  induction l as [|a l IH]; simpl; [done|].
  destruct l as [|b l]; [done|].
  case_bool_decide as Hab.
  - subst b. rewrite IH. rewrite !elem_of_cons. tauto.
  - rewrite (elem_of_cons (Compact _)), IH. rewrite !elem_of_cons. tauto.
Qed.

Lemma Sort_elem x l : x ∈ Sort l ↔ x ∈ l.
Proof. unfold Sort. by rewrite merge_sort_Permutation. Qed.

Lemma Compact_Sort_elem x l : x ∈ Compact (Sort l) ↔ x ∈ l.
Proof. by rewrite Compact_elem, Sort_elem. Qed.

Lemma Compact_Sort_nonempty l : l ≠ [] → Compact (Sort l) ≠ [].
Proof.
  destruct l as [|a l]; [done|]. intros _ Hnil.
  assert (a ∈ Compact (Sort (a :: l))) as Hin by (apply Compact_Sort_elem; by left).
  rewrite Hnil in Hin. by apply elem_of_nil in Hin.
Qed.


Section WithLibraries.
Context {Filter : Type} `{!FilterOps Filter} `{!MetaCodec}.
Variable src : string → Prop.

Local Abbreviation tag_ok := (Store.tag_ok src).
Local Abbreviation entry_ok := (Store.entry_ok src).
Local Abbreviation batch_ok := (Store.batch_ok src).
Local Abbreviation db_ok := (Store.db_ok src).

Lemma grows_refl filters : grows filters filters.
Proof. by intros c T. Qed.

Lemma grows_trans f1 f2 f3 : grows f1 f2 → grows f2 f3 → grows f1 f3.
Proof. intros H1 H2 c T ?. by apply H2, H1. Qed.

Lemma entry_ok_grows filters filters' k v :
  grows filters filters' → entry_ok filters k v → entry_ok filters' k v.
Proof.
  intros Hg (ts & -> & Hne & Hcov & Hok). exists ts. repeat split; auto.
Qed.

Lemma joinTags_loop_spec c tags filters out f0 :
  filters !! c = Some f0 →
  ∃ filters' f',
    joinTags_loop c tags filters out = (out +:+ join tags, filters') ∧
    filters' !! c = Some f' ∧
    (∀ c', c' ≠ c → filters' !! c' = filters !! c') ∧
    (∀ T, Lookup f0 T = true → Lookup f' T = true) ∧
    (∀ T, T ∈ tags → Lookup f' T = true).
Proof.
  revert filters out f0. induction tags as [|tag rest IH]; intros filters out f0 Hf.
  - simpl. exists filters, f0. rewrite str_app_nil_r.
    repeat split; auto. by intros T ?%elem_of_nil.
  - cbn [joinTags_loop].
    set (filters1 := alter (λ f, Add f tag) c filters).
    assert (filters1 !! c = Some (Add f0 tag)) as Hf1.
    { unfold filters1. by rewrite lookup_alter_eq, Hf. }
    destruct (IH filters1
                (match rest with
                 | [] => out +:+ tag
                 | _ :: _ => (out +:+ tag) +:+ String US EmptyString
                 end) _ Hf1)
      as (filters' & f' & Heq & Hc & Hother & Hmono & Hin).
    exists filters', f'. rewrite Heq. split; [|repeat split].
    + f_equal. destruct rest as [|tag' rest'].
      * simpl. by rewrite str_app_nil_r.
      * change (join (tag :: tag' :: rest'))
          with (tag +:+ String US (join (tag' :: rest'))).
        by rewrite !str_app_assoc.
    + done.
    + intros c' Hne. rewrite Hother by done. unfold filters1.
      by rewrite lookup_alter_ne.
    + intros T HT. apply Hmono. by apply Lookup_Add_mono.
    + intros T [->|HT]%elem_of_cons; [|by apply Hin].
      apply Hmono, Lookup_Add.
Qed.

Lemma joinTags_spec c tags filters :
  ∃ filters',
    joinTags c tags filters = (join tags, filters') ∧
    grows filters filters' ∧
    (∀ T, T ∈ tags → covered filters' c T).
Proof.
  unfold joinTags.
  destruct (filters !! c) as [f0|] eqn:Hf.
  - destruct (joinTags_loop_spec c tags filters EmptyString f0 Hf)
      as (filters' & f' & Heq & Hc & Hother & Hmono & Hin).
    exists filters'. split; [done|]. split.
    + intros c' T (f & Hc' & HT). destruct (decide (c' = c)) as [->|Hne].
      * exists f'. split; [done|]. apply Hmono. congruence.
      * exists f. by rewrite Hother.
    + intros T HT. exists f'. auto.
  - destruct (joinTags_loop_spec c tags (<[c:=NewFilter]> filters)
                EmptyString NewFilter (lookup_insert_eq _ _ _))
      as (filters' & f' & Heq & Hc & Hother & Hmono & Hin).
    exists filters'. split; [done|]. split.
    + intros c' T (f & Hc' & HT). destruct (decide (c' = c)) as [->|Hne].
      * congruence.
      * exists f. by rewrite Hother, lookup_insert_ne.
    + intros T HT. exists f'. auto.
Qed.


Lemma WriteBatch_item_spec s item b filters :
  good s →
  (∀ k v, data (db s) !! k = Some v → entry_ok filters k v) →
  batch_ok filters b →
  (∀ T, T ∈ rTags item → src T) →
  ∃ t b' filters',
    WriteBatch_item s item (b, filters) = (t, Ok (b', filters')) ∧
    grows filters filters' ∧
    batch_ok filters' b' ∧
    (∀ kv, kv ∈ b → kv ∈ b') ∧
    (rName item ≠ EmptyString → rTags item ≠ [] →
       rName item ∈ b'.*1 ∧
       ∀ T, T ∈ rTags item → covered filters' (first_byte (rName item)) T).
Proof.
  intros [Hw Hc] Hdb Hb Hsrc. unfold WriteBatch_item.
  destruct (String.length (rName item) =? 0)%nat eqn:Hlen; simpl.
  { exists [], b, filters. split; [done|]. split; [apply grows_refl|].
    split; [done|]. split; [done|].
    intros Hne. apply Nat.eqb_eq in Hlen. by destruct (rName item). }
  destruct (length (rTags item) =? 0)%nat eqn:Hlen2; simpl.
  { exists [], b, filters. split; [done|]. split; [apply grows_refl|].
    split; [done|]. split; [done|].
    intros _ Hne. apply Nat.eqb_eq in Hlen2. by destruct (rTags item). }
  assert (rTags item ≠ []) as Hne.
  { intros Heq. by rewrite Heq in Hlen2. }
  unfold db_Get. rewrite Hc.
  set (c := first_byte (rName item)).
  assert (Hcommon : ∀ tags,
    tags ≠ [] → (∀ T, T ∈ rTags item → T ∈ tags) → (∀ T, T ∈ tags → tag_ok T) →
    ∃ filters', joinTags c tags filters = (join tags, filters') ∧
      grows filters filters' ∧
      batch_ok filters' (b ++ [(rName item, join tags)]) ∧
      (∀ kv, kv ∈ b → kv ∈ b ++ [(rName item, join tags)]) ∧
      (rName item ∈ (b ++ [(rName item, join tags)]).*1 ∧
       ∀ T, T ∈ rTags item → covered filters' c T)).
  { intros tags Hnonempty Hsub Hok.
    destruct (joinTags_spec c tags filters) as (filters' & Heq & Hg & Hcov).
    exists filters'. split; [done|]. split; [done|]. split; [|split; [|split]].
    - intros k v [Hin|Hin]%elem_of_app.
      + eapply entry_ok_grows; [done|]. by apply Hb.
      + apply list_elem_of_singleton in Hin as [= -> ->].
        exists tags. repeat split; auto.
    - intros kv ?. apply elem_of_app. by left.
    - rewrite fmap_app. apply elem_of_app. right. simpl. by left.
    - auto. }
  destruct (data (db s) !! rName item) as [curVal|] eqn:Hcur.
  - destruct (Hcommon (Compact (Sort (Split curVal US ++ rTags item))))
      as (filters' & Heq & Hg & Hb' & Hsub' & Hin').
    + apply Compact_Sort_nonempty. by destruct (Split curVal US).
    + intros T HT. apply Compact_Sort_elem, elem_of_app. by right.
    + intros T [HT|HT]%Compact_Sort_elem%elem_of_app.
      * right. by eapply Split_sep_free.
      * left. by apply Hsrc.
    + rewrite Heq. eexists _, _, _. split; [done|]. auto.
  - destruct (Hcommon (Compact (Sort (rTags item))))
      as (filters' & Heq & Hg & Hb' & Hsub' & Hin').
    + by apply Compact_Sort_nonempty.
    + intros T HT. by apply Compact_Sort_elem.
    + intros T HT. apply (proj1 (Compact_Sort_elem _ _)) in HT.
      left. by apply Hsrc.
    + simpl. rewrite Heq. eexists _, _, _. split; [done|]. auto.
Qed.



Lemma db_ok_grows filters filters' m :
  grows filters filters' → db_ok filters m → db_ok filters' m.
Proof. intros Hg Hm k v Hkv. eapply entry_ok_grows; [done|]. by apply Hm. Qed.

Lemma WriteBatch_loop_spec s items b filters :
  good s →
  db_ok filters (data (db s)) →
  batch_ok filters b →
  (∀ item T, item ∈ items → T ∈ rTags item → src T) →
  ∃ t b' filters',
    WriteBatch_loop s items (b, filters) = (t, Ok (b', filters')) ∧
    grows filters filters' ∧
    batch_ok filters' b' ∧
    (∀ kv, kv ∈ b → kv ∈ b') ∧
    (∀ item, item ∈ items → rName item ≠ EmptyString → rTags item ≠ [] →
       rName item ∈ b'.*1 ∧
       ∀ T, T ∈ rTags item → covered filters' (first_byte (rName item)) T).
Proof.
  intros Hgood. revert b filters.
  induction items as [|item rest IH]; intros b filters Hdb Hb Hsrc.
  - exists [], b, filters. split; [done|]. split; [apply grows_refl|].
    split; [done|]. split; [done|]. by intros item ?%elem_of_nil.
  - destruct (WriteBatch_item_spec s item b filters Hgood Hdb Hb)
      as (t1 & b1 & filters1 & Heq1 & Hg1 & Hb1 & Hsub1 & Hitem).
    { intros T HT. eapply Hsrc; [left|done]. }
    destruct (IH b1 filters1) as (t2 & b2 & filters2 & Heq2 & Hg2 & Hb2 & Hsub2 & Hrest).
    { by eapply db_ok_grows. }
    { done. }
    { intros item' T Hin HT. eapply Hsrc; [right|]; done. }
    exists (t1 ++ t2), b2, filters2. split; [|split; [|split; [|split]]].
    + cbn [WriteBatch_loop]. unfold bind. by rewrite Heq1, Heq2.
    + by eapply grows_trans.
    + done.
    + auto.
    + intros item' [->|Hin]%elem_of_cons Hn Ht; [|by apply Hrest].
      destruct (Hitem Hn Ht) as [Hk Hcov]. split.
      * apply list_elem_of_fmap in Hk as ([k v] & Hkeq & Hkv).
        apply list_elem_of_fmap. exists (k, v). split; [done|]. by apply Hsub2.
      * intros T HT. by apply Hg2, Hcov.
Qed.

Lemma apply_lookup (m : gmap string string) (b : list (string * string)) k v :
  foldl (λ m kv, <[kv.1 := kv.2]> m) m b !! k = Some v →
  (k, v) ∈ b ∨ m !! k = Some v.
Proof.
  revert m. induction b as [|[k' v'] b IH]; intros m; simpl; [auto|].
  intros [Hin|Hm]%IH; [left; by right|].
  destruct (decide (k' = k)) as [->|Hne].
  - rewrite lookup_insert_eq in Hm. injection Hm as ->. left. by left.
  - rewrite lookup_insert_ne in Hm by done. by right.
Qed.

Lemma apply_is_Some (m : gmap string string) (b : list (string * string)) k :
  k ∈ b.*1 ∨ is_Some (m !! k) →
  is_Some (foldl (λ m kv, <[kv.1 := kv.2]> m) m b !! k).
Proof.
  revert m. induction b as [|[k' v'] b IH]; intros m; simpl.
  - intros [?%elem_of_nil|?]; done.
  - intros [[->|Hin]%elem_of_cons|Hm]; apply IH.
    + right. rewrite lookup_insert_eq. eauto.
    + by left.
    + right. destruct (decide (k' = k)) as [->|Hne].
      * rewrite lookup_insert_eq. eauto.
      * by rewrite lookup_insert_ne.
Qed.

Lemma WriteBatch_spec s batch filters :
  good s →
  db_ok filters (data (db s)) →
  (∀ item T, item ∈ batch → T ∈ rTags item → src T) →
  ∃ t s' filters',
    WriteBatch s batch filters = (t, Ok (s', filters')) ∧
    good s' ∧
    db_ok filters' (data (db s')) ∧
    grows filters filters' ∧
    (∀ k, is_Some (data (db s) !! k) → is_Some (data (db s') !! k)) ∧
    (∀ item, item ∈ batch → rName item ≠ EmptyString → rTags item ≠ [] →
       is_Some (data (db s') !! rName item) ∧
       ∀ T, T ∈ rTags item → covered filters' (first_byte (rName item)) T).
Proof.
  intros Hgood Hdb Hsrc.
  destruct (WriteBatch_loop_spec s batch [] filters Hgood Hdb)
    as (t & b & filters' & Heq & Hg & Hb & _ & Hitems).
  { by intros k v ?%elem_of_nil. }
  { done. }
  destruct Hgood as [Hw Hc].
  unfold WriteBatch. rewrite with_rlock_free by done.
  unfold bind. rewrite Heq. unfold db_Apply. rewrite Hc. simpl.
  eexists _, _, _. split; [done|]. split; [done|]. split; [|split; [done|split]].
  - intros k v [Hin|Hm]%apply_lookup; [by apply Hb|].
    eapply entry_ok_grows; [done|]. by apply Hdb.
  - intros k Hk. apply apply_is_Some. by right.
  - intros item Hin Hn Ht. destruct (Hitems item Hin Hn Ht) as [Hk Hcov].
    split; [|done]. apply apply_is_Some. by left.
Qed.


(** *** The loop of [Pull] *)
Import Pull.

Local Abbreviation collected_ok := (Pull.collected_ok src).
Local Abbreviation ingest_inv := (Pull.ingest_inv src).


Lemma collect_ok collected rec :
  collected_ok collected → (∀ T, T ∈ rTags rec → src T) →
  collected_ok (collect collected rec).
Proof.
  intros Hok Hsrc k cur. unfold collect.
  destruct (collected !! rName rec) as [curRec|] eqn:Hcur.
  - destruct (decide (rName rec = k)) as [<-|Hne].
    + rewrite lookup_insert_eq. intros [= <-]. simpl.
      destruct (Hok _ _ Hcur) as [Hn Ht]. split; [done|].
      intros T [?|?]%elem_of_app; auto.
    + rewrite lookup_insert_ne by done. apply Hok.
  - destruct (decide (rName rec = k)) as [<-|Hne].
    + rewrite lookup_insert_eq. by intros [= <-].
    + rewrite lookup_insert_ne by done. apply Hok.
Qed.

Lemma collect_pending collected rec name T :
  pending collected name T → pending (collect collected rec) name T.
Proof.
  intros (cur & Hcur & HT). unfold collect, pending.
  destruct (collected !! rName rec) as [curRec|] eqn:Hrec.
  - destruct (decide (rName rec = name)) as [<-|Hne].
    + rewrite lookup_insert_eq. eexists. split; [done|]. simpl.
      apply elem_of_app. left. congruence.
    + rewrite lookup_insert_ne by done. eauto.
  - destruct (decide (rName rec = name)) as [<-|Hne]; [congruence|].
    rewrite lookup_insert_ne by done. eauto.
Qed.

Lemma collect_new collected rec T :
  T ∈ rTags rec → pending (collect collected rec) (rName rec) T.
Proof.
  intros HT. unfold collect, pending.
  destruct (collected !! rName rec) as [curRec|] eqn:Hrec;
    rewrite lookup_insert_eq; eexists; (split; [done|]); simpl; [|done].
  apply elem_of_app. by right.
Qed.

Lemma elem_of_records collected item :
  item ∈ records collected ↔ ∃ k, collected !! k = Some item.
Proof.
  unfold records. rewrite list_elem_of_fmap. split.
  - intros ([k v] & -> & Hin). exists k. by apply elem_of_map_to_list.
  - intros (k & Hk). exists (k, item). split; [done|].
    by apply elem_of_map_to_list.
Qed.

(** Writing out [collected] settles everything that was pending. *)
Lemma flush_spec seen s2 filters collected i i' :
  ingest_inv seen (mkState s2 filters collected i) →
  ∃ t s' filters',
    WriteBatch s2 (records collected) filters = (t, Ok (s', filters')) ∧
    ingest_inv seen (mkState s' filters' ∅ i').
Proof.
  intros (Hgood & Hdb & Hcol & Hseen). simpl in *.
  destruct (WriteBatch_spec s2 (records collected) filters Hgood Hdb)
    as (t & s' & filters' & Heq & Hgood' & Hdb' & Hg & Hkeep & Hitems).
  { intros item T (k & Hk)%elem_of_records HT. by apply (Hcol k item). }
  exists t, s', filters'. split; [done|].
  split; [done|]. split; [done|]. split.
  { intros k cur. simpl. by rewrite lookup_empty. }
  intros rec T Hin Hn HT. left. unfold settled. simpl.
  destruct (Hseen rec T Hin Hn HT) as [[Hsome Hcov]|(cur & Hcur & HTcur)].
  - simpl in *. split; [by apply Hkeep|by apply Hg].
  - destruct (Hcol _ _ Hcur) as [Hname _].
    destruct (Hitems cur) as [Hsome Hcov].
    { apply elem_of_records. eauto. }
    { congruence. }
    { intros Hnil. rewrite Hnil in HTcur. by apply elem_of_nil in HTcur. }
    rewrite Hname in Hsome, Hcov. auto.
Qed.

Lemma ingest_step_spec seen st rec :
  ingest_inv seen st → rError rec = None → (∀ T, T ∈ rTags rec → src T) →
  ∃ t st', ingest_step st rec = (t, Ok st') ∧ ingest_inv (rec :: seen) st'.
Proof.
  intros (Hgood & Hdb & Hcol & Hseen) Herr Hsrc.
  unfold ingest_step. rewrite Herr.
  assert (ingest_inv (rec :: seen)
            (mkState (st_s2 st) (st_filters st)
               (collect (st_collected st) rec) (S (st_i st)))) as Hinv.
  { split; [done|]. split; [done|]. split; [by apply collect_ok|].
    intros rec' T [->|Hin]%elem_of_cons Hn HT; simpl.
    - right. by apply collect_new.
    - destruct (Hseen rec' T Hin Hn HT) as [?|?]; [by left|].
      right. by apply collect_pending. }
  destruct (batchSize <=? st_i st)%nat.
  - destruct (flush_spec _ _ _ _ _ 1 Hinv) as (t & s' & filters' & Heq & Hinv').
    exists t, (mkState s' filters' ∅ 1). split; [|done].
    unfold bind. rewrite Heq. simpl. by rewrite app_nil_r.
  - eexists _, _. split; [done|]. done.
Qed.

Lemma ingest_loop_spec recs seen st t st' :
  ingest_inv seen st →
  (∀ rec T, rec ∈ recs → T ∈ rTags rec → src T) →
  ingest_loop st recs = (t, Ok st') →
  ingest_inv (rev recs ++ seen) st'.
Proof.
  revert seen st t. induction recs as [|rec rest IH]; intros seen st t Hinv Hsrc.
  - simpl. by intros [= <- <-].
  - cbn [ingest_loop]. destruct (rError rec) as [msg|] eqn:Herr.
    { unfold bind, ingest_step. by rewrite Herr. }
    destruct (ingest_step_spec seen st rec Hinv Herr) as (t1 & st1 & Heq & Hinv1).
    { intros T HT. eapply Hsrc; [left|done]. }
    unfold bind. rewrite Heq.
    destruct (ingest_loop st1 rest) as [t2 r2] eqn:Hloop. intros [= <- ->].
    simpl. rewrite <-app_assoc. simpl. eapply IH; [done| |done].
    intros rec' T Hin HT. eapply Hsrc; [right|]; done.
Qed.

Lemma ingest_loop_total recs seen st :
  ingest_inv seen st →
  (∀ rec T, rec ∈ recs → T ∈ rTags rec → src T) →
  Forall (λ rec, rError rec = None) recs →
  ∃ t st', ingest_loop st recs = (t, Ok st').
Proof.
  revert seen st. induction recs as [|rec rest IH]; intros seen st Hinv Hsrc Hall.
  - simpl. by eexists _, _.
  - apply Forall_cons in Hall as [Herr Hall].
    destruct (ingest_step_spec seen st rec Hinv Herr) as (t1 & st1 & Heq & Hinv1).
    { intros T HT. eapply Hsrc; [left|done]. }
    destruct (IH (rec :: seen) st1 Hinv1) as (t2 & st2 & Heq2); [|done|].
    { intros rec' T Hin HT. eapply Hsrc; [right|]; done. }
    cbn [ingest_loop]. unfold bind. rewrite Heq, Heq2. by eexists _, _.
Qed.


(** *** The filters and the metadata go in last *)

Lemma first_byte_filterKey c : first_byte (filterKey c) = STX.
Proof. reflexivity. Qed.

Lemma WriteFilters_loop_spec d l :
  closed d = false →
  ∃ d', WriteFilters_loop d l = ([], Ok d') ∧ closed d' = false ∧
    (∀ k, first_byte k ≠ STX → data d' !! k = data d !! k) ∧
    (∀ c, c ∉ l.*1 → data d' !! filterKey c = data d !! filterKey c) ∧
    (NoDup l.*1 → ∀ c f, (c, f) ∈ l →
       data d' !! filterKey c = Some (GobEncode f)).
Proof.
  revert d. induction l as [|[c f] l IH]; intros d Hc.
  - exists d. repeat split; auto. by intros _ c f ?%elem_of_nil.
  - cbn [WriteFilters_loop]. unfold db_Set. rewrite Hc.
    destruct (IH (mkDB (<[filterKey c := GobEncode f]> (data d)) false) eq_refl)
      as (d' & Heq & Hc' & Hother & Hnotin & Hin).
    exists d'. unfold bind, ret. rewrite Heq. simpl in *.
    split; [done|]. split; [done|]. split; [|split].
    + intros k Hk. rewrite Hother by done. apply lookup_insert_ne.
      intros <-. by apply Hk.
    + intros c' Hc'notin. apply not_elem_of_cons in Hc'notin as [Hne Hnot].
      rewrite Hnotin by done. apply lookup_insert_ne. by intros [= ->].
    + intros [Hfresh Hnd]%NoDup_cons c' f' [[= -> ->]|Hin']%elem_of_cons.
      * rewrite Hnotin by done. apply lookup_insert_eq.
      * by apply Hin.
Qed.

Lemma WriteFilters_spec s filters :
  good s →
  ∃ s', WriteFilters s filters = ([], Ok s') ∧ good s' ∧
    (∀ k, first_byte k ≠ STX → data (db s') !! k = data (db s) !! k) ∧
    (∀ c f, filters !! c = Some f →
       data (db s') !! filterKey c = Some (GobEncode f)).
Proof.
  intros [Hw Hc]. unfold WriteFilters. rewrite with_rlock_free by done.
  destruct (WriteFilters_loop_spec (db s) (map_to_list filters) Hc)
    as (d' & Heq & Hc' & Hother & _ & Hin).
  exists (set_db s d'). unfold bind, ret. rewrite Heq. simpl.
  split; [done|]. split; [done|]. split; [done|].
  intros c f Hcf. apply Hin; [apply NoDup_fst_map_to_list|].
  by apply elem_of_map_to_list.
Qed.

Lemma WriteMeta_spec s meta :
  good s →
  ∃ s', WriteMeta s meta = ([], Ok s') ∧ good s' ∧
    (∀ k, k ≠ metaKey → data (db s') !! k = data (db s) !! k).
Proof.
  intros [Hw Hc]. unfold WriteMeta. rewrite with_rlock_free by done.
  unfold bind, db_Set, ret. rewrite Hc. simpl.
  eexists. split; [done|]. split; [done|].
  intros k Hk. simpl. by apply lookup_insert_ne.
Qed.

Lemma GetFilter_stored s c f :
  good s → data (db s) !! filterKey c = Some (GobEncode f) →
  GetFilter s c = ([Read (filterKey c)], Ok f).
Proof.
  intros [Hw Hc] Hf. unfold GetFilter. rewrite with_rlock_free by done.
  unfold bind, db_Get. rewrite Hc, Hf, GobDecode_GobEncode. done.
Qed.

Lemma ingest_inv_start dir :
  ingest_inv [] (mkState (Open dir ∅) ∅ ∅ 0).
Proof.
  split; [done|]. split; [|split].
  - intros k v. simpl. by rewrite lookup_empty.
  - intros k cur. simpl. by rewrite lookup_empty.
  - by intros rec T ?%elem_of_nil.
Qed.

(** What a completed refresh leaves in the shadow shard. *)
Lemma refresh_spec dir recs meta t s' :
  (∀ rec T, rec ∈ recs → T ∈ rTags rec → src T) →
  refresh dir recs meta = (t, Ok s') →
  ∃ filters,
    good s' ∧
    (∀ c f, filters !! c = Some f →
       GetFilter s' c = ([Read (filterKey c)], Ok f)) ∧
    (∀ rec T, rec ∈ recs → rName rec ≠ EmptyString → T ∈ rTags rec →
       covered filters (first_byte (rName rec)) T ∧
       (first_byte (rName rec) ≠ STX →
        ∃ v, data (db s') !! rName rec = Some v ∧
             entry_ok filters (rName rec) v)).
Proof.
  intros Hsrc. unfold refresh.
  destruct (ingest_loop (mkState (Open dir ∅) ∅ ∅ 0) recs) as [t1 [st| |]] eqn:Hloop;
    [|done..].
  pose proof (ingest_loop_spec recs [] _ _ _ (ingest_inv_start dir) Hsrc Hloop)
    as Hinv.
  rewrite app_nil_r in Hinv. unfold bind at 1.
  assert (∃ t2 s2 filters,
    (if bool_decide (st_collected st = ∅)
     then ret (st_s2 st, st_filters st)
     else WriteBatch (st_s2 st) (records (st_collected st)) (st_filters st))
    = (t2, Ok (s2, filters)) ∧
    ingest_inv (rev recs) (mkState s2 filters ∅ 0))
    as (t2 & s2 & filters & -> & Hinv2).
  { case_bool_decide as Hempty.
    - eexists _, _, _. split; [done|]. destruct st as [s2 filters col i].
      simpl in *. subst col. exact Hinv.
    - destruct st as [s2 filters col i].
      destruct (flush_spec _ _ _ _ _ 0 Hinv) as (t2 & s2' & filters' & Heq & ?).
      eauto. }
  destruct Hinv2 as (Hgood2 & Hdb2 & _ & Hseen). simpl in *.
  unfold bind at 1.
  destruct (WriteFilters_spec s2 filters Hgood2) as (s3 & -> & Hgood3 & Hkeep3 & Hfil3).
  destruct (WriteMeta_spec s3 meta Hgood3) as (s4 & Heq4 & Hgood4 & Hkeep4).
  unfold bind. rewrite Heq4. simpl. intros [= <- <-].
  exists filters. split; [done|]. split.
  - intros c f Hcf. apply GetFilter_stored; [done|].
    rewrite Hkeep4 by done. by apply Hfil3.
  - intros rec T Hin Hn HT.
    destruct (Hseen rec T) as [[Hsome Hcov]|(cur & Hcur & _)];
      [by apply elem_of_rev|done|done| |by rewrite lookup_empty in Hcur].
    simpl in *. split; [done|]. intros Hstx.
    destruct Hsome as [v Hv]. exists v. split; [|by apply Hdb2].
    rewrite Hkeep4, Hkeep3; [done|done|].
    intros Heq. apply Hstx. by rewrite Heq.
Qed.

Lemma refresh_total dir recs meta :
  (∀ rec T, rec ∈ recs → T ∈ rTags rec → src T) →
  Forall (λ rec, rError rec = None) recs →
  ∃ t s', refresh dir recs meta = (t, Ok s').
Proof.
  intros Hsrc Hall. unfold refresh.
  destruct (ingest_loop_total recs [] _ (ingest_inv_start dir) Hsrc Hall)
    as (t1 & st & Hloop).
  pose proof (ingest_loop_spec recs [] _ _ _ (ingest_inv_start dir) Hsrc Hloop)
    as Hinv.
  rewrite Hloop. unfold bind at 1.
  assert (∃ t2 s2 filters,
    (if bool_decide (st_collected st = ∅)
     then ret (st_s2 st, st_filters st)
     else WriteBatch (st_s2 st) (records (st_collected st)) (st_filters st))
    = (t2, Ok (s2, filters)) ∧ good s2)
    as (t2 & s2 & filters & -> & Hgood2).
  { case_bool_decide as Hempty.
    - eexists _, _, _. split; [done|]. apply Hinv.
    - destruct st as [s2 filters col i].
      destruct (flush_spec _ _ _ _ _ 0 Hinv) as (t2 & s2' & filters' & Heq & Hi).
      eexists _, _, _. split; [done|]. apply Hi. }
  unfold bind at 1. cbn [fst snd].
  destruct (WriteFilters_spec s2 filters Hgood2) as (s3 & -> & Hgood3 & _).
  destruct (WriteMeta_spec s3 meta Hgood3) as (s4 & Heq4 & _).
  unfold bind. rewrite Heq4. simpl. eauto.
Qed.

End WithLibraries.

End IngestFacts.

(** ** The properties of the store and of the search *)
Section StoreProperties.
Import GoStrings Store Sbloom StoreFacts IngestFacts.
Context {Filter : Type} `{!FilterOps Filter} `{!MetaCodec}.

(** C4. While [Replace] holds the write lock, each of [WriteBatch],
    [WriteFilters], [GetFilter], [GetPkg], [GetPkgNamesByPrefix],
    [WriteMeta], [GetMeta] and [Close] returns [ErrBlocked] at once:
    it has read nothing from the database (its read trace is empty)
    and yields no new store. *)
Theorem C4_blocked_operations_fail_fast
    (s : Store) (batch : list Record_) (filters : gmap ascii Filter)
    (firstChar : ascii) (name prefix : string) (n : Z) (meta : RepoMeta) :
  writer (blocked s) = true →
  WriteBatch s batch filters = ([], Err ErrBlocked) ∧
  WriteFilters s filters = ([], Err ErrBlocked) ∧
  GetFilter s firstChar = ([], Err ErrBlocked) ∧
  GetPkg s name = ([], Err ErrBlocked) ∧
  GetPkgNamesByPrefix s prefix n = ([], Err ErrBlocked) ∧
  WriteMeta s meta = ([], Err ErrBlocked) ∧
  GetMeta s = ([], Err ErrBlocked) ∧
  Close s = ([], Err ErrBlocked).
Proof.
  intros Hw.
  unfold WriteBatch, WriteFilters, GetFilter, GetPkg, GetPkgNamesByPrefix,
    WriteMeta, GetMeta, Close.
  repeat split; by apply with_rlock_blocked.
Qed.

(** C9. [GetPkgNamesByPrefix] reaches the out-of-range panic of
    [prefix[len(prefix)-1]] exactly when the prefix is empty and the
    call got past the lock and the allocation; with a non-empty
    prefix, a non-negative [n] and an open database the call returns
    the names or [ErrBlocked].  With the empty prefix a call that gets
    the read lock panics, in the allocation when [n] is negative and at
    the index otherwise; a call that does not get the lock, because a
    replace holds it, returns [ErrBlocked] whatever the prefix is. *)
Theorem C9_prefix_index_in_range (s : Store) (prefix : string) (n : Z) :
  ((GetPkgNamesByPrefix s prefix n).2 = Panic OutOfRange
   ↔ prefix = EmptyString ∧ writer (blocked s) = false ∧ (0 ≤ n)%Z)
  ∧ (prefix ≠ EmptyString → (0 ≤ n)%Z → closed (db s) = false →
     (∃ t names, GetPkgNamesByPrefix s prefix n = (t, Ok names))
     ∨ GetPkgNamesByPrefix s prefix n = ([], Err ErrBlocked))
  ∧ (prefix = EmptyString → writer (blocked s) = false →
     GetPkgNamesByPrefix s prefix n
     = ([], Panic (if (n <? 0)%Z then MakesliceCap else OutOfRange)))
  ∧ (writer (blocked s) = true →
     GetPkgNamesByPrefix s prefix n = ([], Err ErrBlocked)).
Proof.
  unfold GetPkgNamesByPrefix. split; [|split; [|split]].
  - destruct (writer (blocked s)) eqn:Hw.
    + rewrite with_rlock_blocked by done. simpl. split; [done|].
      by intros (_ & ? & _).
    + rewrite with_rlock_free by done.
      destruct (Z.ltb_spec n 0) as [Hn|Hn]; simpl.
      * split; [done|]. intros (_ & _ & ?). lia.
      * destruct (split_last prefix) as [[init l]|] eqn:Hsl.
        -- assert (prefix ≠ EmptyString) as Hne.
           { intros Heq. apply split_last_None in Heq. congruence. }
           unfold bind, db_NewIter. destruct (closed (db s)); simpl;
             (split; [done|]); by intros (? & _).
        -- apply split_last_None in Hsl. simpl. split; auto.
  - intros Hne Hn Hc.
    destruct (writer (blocked s)) eqn:Hw.
    + right. by apply with_rlock_blocked.
    + left. rewrite with_rlock_free by done.
      destruct (Z.ltb_spec n 0) as [?|_]; [lia|].
      destruct (split_last prefix) as [[init l]|] eqn:Hsl.
      * unfold bind, db_NewIter. rewrite Hc. simpl. eauto.
      * by apply split_last_None in Hsl.
  - intros -> Hw. rewrite with_rlock_free by done.
    by destruct (n <? 0)%Z.
  - intros Hw. by apply with_rlock_blocked.
Qed.

(** C8. [Search] fails with [ErrInvalidTag] if and only if one of the
    tags holds no match of [\w+=.+]; the error then names such a tag
    and is raised before anything was read from the database.
    [Search(["justfoo"])] is such a failure. *)
Theorem C8_invalid_tag_iff (s : Store) (tags : list string) :
  ((∃ t tag, Search s tags = (t, Err (ErrInvalidTag tag)))
   ↔ ∃ tag, tag ∈ tags ∧
       ¬ Regex.contains Regex.tagRegex (list_ascii_of_string tag))
  ∧ (∀ t tag, Search s tags = (t, Err (ErrInvalidTag tag)) →
       t = [] ∧ tag ∈ tags ∧
       ¬ Regex.contains Regex.tagRegex (list_ascii_of_string tag))
  ∧ Search s ["justfoo"] = ([], Err (ErrInvalidTag "justfoo")).
Proof.
  assert (Hfwd : ∀ t tag, Search s tags = (t, Err (ErrInvalidTag tag)) →
    t = [] ∧ tag ∈ tags ∧
    ¬ Regex.contains Regex.tagRegex (list_ascii_of_string tag)).
  { intros t tag. unfold Search.
    destruct (find _ tags) as [bad|] eqn:Hfind.
    - intros [= <- <-]. apply find_some in Hfind as [Hin Hm].
      split; [done|]. split; [by apply list_elem_of_In|].
      apply RegexFacts.MatchString_false. by apply negb_true_iff.
    - destruct (SearchThreads s <=? 0)%Z; [done|].
      unfold bind. destruct (run_workers s tags iterOpts []) as [t' [r|e|p]] eqn:Hr;
        [done| |done].
      apply run_workers_err in Hr as [-> | ->]; done. }
  split; [split|split; [done|reflexivity]].
  - intros (t & tag & Hs). apply Hfwd in Hs as (_ & ? & ?). eauto.
  - intros (tag & Hin & Hbad). unfold Search.
    destruct (find _ tags) as [bad|] eqn:Hfind; [by eauto|].
    exfalso. apply list_elem_of_In in Hin.
    eapply find_none in Hfind; [|done].
    apply negb_false_iff, RegexFacts.MatchString_spec in Hfind. done.
Qed.


(** C1. Every result [r] of a successful [Search(T)] has the
    confidence [|r.Overlap| / |T|]; each overlapping tag is a tag of
    [T] and of the package; and the confidence is positive and at
    most one. *)
Theorem C1_confidence_is_overlap_ratio
    (s : Store) (T : list string) (t : list event)
    (rs : list TagResult) (r : TagResult) :
  Search s T = (t, Ok rs) → r ∈ rs →
  Confidence r = mkConf (length (Overlap r)) (length T) ∧
  (∀ x, x ∈ Overlap r → x ∈ T ∧ x ∈ Tags (Package_ r)) ∧
  Qlt 0 (conf_Q (Confidence r)) ∧ Qle (conf_Q (Confidence r)) 1.
Proof.
  intros Hs Hr.
  destruct (Search_ok _ _ _ _ _ Hs Hr) as (Hne & opt & kv & _ & _ & Hscan).
  apply scan_entry_Some in Hscan as (Hconf & Hov & _ & Hz).
  split; [done|]. split.
  { intros x. rewrite Hov, list_elem_of_filter. tauto. }
  rewrite Hconf in Hz |- *. unfold conf_is_zero in Hz. simpl in Hz.
  assert (length (Overlap r) <= length T)%nat as Hle.
  { rewrite Hov. apply length_filter. }
  assert (length T ≠ 0) as HT by (by destruct T).
  assert (length (Overlap r) ≠ 0) as Hpos.
  { intros H0. rewrite H0 in Hz. simpl in Hz.
    apply negb_false_iff, Nat.eqb_eq in Hz. done. }
  unfold conf_Q, Qlt, Qle. simpl.
  assert (Z.pos (Pos.of_nat (length T)) = Z.of_nat (length T)) as ->.
  { destruct (length T) as [|n]; [done|].
    rewrite <-Pos.of_nat_succ, Zpos_P_of_succ_nat. lia. }
  lia.
Qed.

(** C7, as the code has it.  When [T1] and [T2] hold the same tags,
    [Search(T2)] succeeds whenever [Search(T1)] does, the two match
    the same packages and each package overlaps in the same set of
    tags; the confidence of a package is the same in both when [T2]
    is a reordering of [T1] (as it is when neither repeats a tag). *)
Theorem C7_same_tags_same_matches
    (s : Store) (T1 T2 : list string) (t : list event) (rs1 : list TagResult) :
  (∀ x, x ∈ T1 ↔ x ∈ T2) →
  Search s T1 = (t, Ok rs1) →
  ∃ rs2, Search s T2 = (t, Ok rs2) ∧
    (∀ r1, r1 ∈ rs1 → ∃ r2, r2 ∈ rs2 ∧ same_match T1 T2 r1 r2) ∧
    (∀ r2, r2 ∈ rs2 → ∃ r1, r1 ∈ rs1 ∧ same_match T1 T2 r1 r2).
Proof.
  intros Hset Hs1.
  destruct (Search_same_set s T1 T2 t rs1 Hset Hs1) as (rs2 & Hs2 & H12).
  exists rs2. split; [done|]. split; [done|].
  assert (Hset' : ∀ x, x ∈ T2 ↔ x ∈ T1) by (intros x; by rewrite Hset).
  destruct (Search_same_set s T2 T1 t rs2 Hset' Hs2) as (rs1' & Hs1' & H21).
  rewrite Hs1 in Hs1'. injection Hs1' as <-.
  intros r2 Hr2. destruct (H21 r2 Hr2) as (r1 & Hr1 & Hp & Ho & Hc).
  exists r1. split; [done|]. split; [done|]. split.
  - intros x. by rewrite Ho.
  - intros Hperm. symmetry. by apply Hc.
Qed.

(** C10, as the code has it.  On a shard that no replace blocks,
    whose database is open and whose stored filters decode,
    [Search([])] returns no result and no error; all it reads are
    the filters, and no range of packages is scanned. *)
Theorem C10_empty_query_finds_nothing (s : Store) :
  writer (blocked s) = false →
  closed (db s) = false →
  (∀ c v, c ∈ startChars → data (db s) !! filterKey c = Some v →
          is_Some (GobDecode v)) →
  ∃ t, Search s [] = (t, Ok []) ∧ Forall filter_read t.
Proof.
  intros Hw Hc Hdec. unfold Search. cbn [find].
  destruct (SearchThreads s <=? 0)%Z.
  - exists []. by split.
  - destruct (run_workers_nil s iterOpts [] Hw Hc) as (t & Ht & Hall).
    { intros opt v Hin. unfold iterOpts in Hin.
      apply list_elem_of_fmap in Hin as (c & -> & Hin). by apply Hdec. }
    exists t. unfold bind. rewrite Ht. simpl. rewrite app_nil_r. done.
Qed.

End StoreProperties.

Section ReplaceProperties.
Import GoStrings Store Replace.

(** C3, as the code has it.  On an open live shard and an open shadow
    shard in three different directories, what [Replace] leaves is
    decided by the first call that fails.  When none fails it
    succeeds: the live path holds the new contents, [db-old] is gone
    and the store is open on the new contents.  When the initial
    cleanup, the close of either database or the first rename fails,
    it returns an error with the old shard still at its path (the
    live database is already closed in the last two cases).  When the
    second rename fails and the rollback rename succeeds, the old
    shard is back at its path and the joined error is returned.  When
    the rollback rename fails as well, the joined error holds both
    errors, the old shard is left at [db-old] and the live path holds
    nothing.  When reopening fails, the new contents are at the live
    path, the old shard is at [db-old] and the store is left closed.
    When the final cleanup fails, the error is returned although the
    new contents are live and the store is open on them, and [db-old]
    is left behind.  In every case but the first an error is
    returned, and the lock is released. *)
Theorem C3_replace_outcomes (o : Faults) (fs : FS) (s s2 : Store) :
  coherent fs s → coherent fs s2 → layout s s2 →
  let r := Replace o fs s s2 in
  match first_fault o with
  | None => replaced s s2 r
  | Some RmPre | Some Close2 =>
      kept s r ∧ r_fs r !! Path s2 = Some (data (db s2)) ∧
      closed (db (r_s r)) = false
  | Some Close1 | Some Rename1 =>
      kept s r ∧ r_fs r !! Path s2 = Some (data (db s2)) ∧
      closed (db (r_s r)) = true
  | Some Rename2 =>
      if o Rollback
      then (∃ e e2, r_err r = Err (ErrJoin2 e e2)) ∧
           r_fs r !! Path s = None ∧
           r_fs r !! oldPath s = Some (data (db s)) ∧
           ¬ all_or_nothing s s2 r
      else (∃ e, r_err r = Err (ErrJoin1 e)) ∧
           kept s r ∧
           r_fs r !! oldPath s = None
  | Some Reopen =>
      (∃ e, r_err r = Err e) ∧
      r_fs r !! Path s = Some (data (db s2)) ∧
      r_fs r !! oldPath s = Some (data (db s)) ∧
      closed (db (r_s r)) = true
  | Some RmPost =>
      (∃ e, r_err r = Err e) ∧
      r_fs r !! Path s = Some (data (db s2)) ∧
      r_fs r !! oldPath s = Some (data (db s)) ∧
      db (r_s r) = mkDB (data (db s2)) false
  | Some Rollback => False
  end ∧
  (replaced s s2 r ∨ ∃ e, r_err r = Err e) ∧
  writer (blocked (r_s r)) = false.
Proof.
  intros (Hc1 & Hw1 & Hf1) (Hc2 & Hw2 & Hf2) (Hp1 & Hp2 & Hp3) r. subst r.
  unfold first_fault, all_or_nothing, Replace, os_RemoveAll, os_Rename,
    pebble_Open, replaced, kept.
  destruct (o RmPre) eqn:HRmPre; simpl.
  { repeat split; eauto. }
  rewrite Hc2. destruct (o Close2) eqn:HClose2; simpl.
  { rewrite !lookup_delete_ne by done. repeat split; eauto. }
  rewrite Hc1. destruct (o Close1) eqn:HClose1; simpl.
  { rewrite !lookup_delete_ne by done. repeat split; eauto. }
  rewrite lookup_delete_ne, Hf1 by done.
  destruct (o Rename1) eqn:HRename1; simpl.
  { rewrite !lookup_delete_ne by done. repeat split; eauto. }
  rewrite lookup_delete_eq. simpl.
  rewrite lookup_insert_ne, lookup_delete_ne, lookup_delete_ne, Hf2 by done.
  set (fs2 := <[oldPath s:=data (db s)]> (delete (Path s) (delete (oldPath s) fs))).
  assert (fs2 !! Path s = None) as H2s.
  { unfold fs2. by rewrite lookup_insert_ne, lookup_delete_eq. }
  assert (fs2 !! oldPath s = Some (data (db s))) as H2o.
  { unfold fs2. by rewrite lookup_insert_eq. }
  assert (fs2 !! Path s2 = Some (data (db s2))) as H2n.
  { unfold fs2. by rewrite lookup_insert_ne, !lookup_delete_ne. }
  clearbody fs2.
  destruct (o Rename2) eqn:HRename2; simpl.
  { rewrite H2o, H2s. destruct (o Rollback) eqn:HRollback; simpl.
    - split; [|split; [right; eauto|done]].
      split; [eauto|]. split; [done|]. split; [done|].
      intros [(Hok & _)|(e & _ & Hkept & _)]; [done|]. by rewrite H2s in Hkept.
    - rewrite lookup_insert_eq, lookup_insert_ne, lookup_delete_eq by done.
      split; [|split; [right; eauto|done]]. repeat split; eauto. }
  rewrite H2s. simpl. rewrite lookup_insert_eq.
  destruct (o Reopen) eqn:HReopen; simpl.
  { rewrite lookup_insert_eq, lookup_insert_ne, lookup_delete_ne, H2o by done.
    split; [|split; [right; eauto|done]]. repeat split; eauto. }
  destruct (o RmPost) eqn:HRmPost; simpl.
  - rewrite lookup_insert_eq, lookup_insert_ne, lookup_delete_ne, H2o by done.
    split; [|split; [right; eauto|done]]. repeat split; eauto.
  - rewrite lookup_delete_ne, lookup_insert_eq by done.
    rewrite lookup_delete_eq. split; [done|]. split; [by left|done].
Qed.

(** After a successful replace the live store answers from the
    contents of the shadow shard. *)
Lemma GetFilter_after_replace {Filter : Type} `{!Sbloom.FilterOps Filter}
    (o : Faults) (fs : FS) (s s2 : Store) (c : ascii) :
  good s2 → replaced s s2 (Replace o fs s s2) →
  GetFilter (Filter := Filter) (r_s (Replace o fs s s2)) c = GetFilter s2 c.
Proof.
  intros [Hw Hc] (_ & _ & _ & Hdb & Hw'). unfold GetFilter, with_rlock, TryRLock.
  rewrite Hw, Hw', Hdb. unfold db_Get. rewrite Hc. done.
Qed.

End ReplaceProperties.

Lemma scenario_coherent :
  Replace.coherent Scenario.disk Scenario.shard ∧
  Replace.coherent Scenario.disk Scenario.shadow ∧
  Replace.layout Scenario.shard Scenario.shadow.
Proof.
  unfold Replace.coherent, Replace.layout.
  repeat split; try (vm_compute; reflexivity); vm_compute; discriminate.
Defined.

Lemma C3_witness :
  (((∃ e, Replace.r_err (Replace.Replace (Scenario.rename2_fails false)
            Scenario.disk Scenario.shard Scenario.shadow)
          = Store.Err (Store.ErrJoin1 e)) ∧
    Replace.kept Scenario.shard
      (Replace.Replace (Scenario.rename2_fails false)
         Scenario.disk Scenario.shard Scenario.shadow) ∧
    Replace.r_fs (Replace.Replace (Scenario.rename2_fails false)
        Scenario.disk Scenario.shard Scenario.shadow) !! Replace.oldPath Scenario.shard
      = None) ∧
   (Replace.replaced Scenario.shard Scenario.shadow
      (Replace.Replace (Scenario.rename2_fails false)
         Scenario.disk Scenario.shard Scenario.shadow) ∨
    ∃ e, Replace.r_err (Replace.Replace (Scenario.rename2_fails false)
           Scenario.disk Scenario.shard Scenario.shadow)
         = Store.Err e) ∧
   Store.writer (Store.blocked
     (Replace.r_s (Replace.Replace (Scenario.rename2_fails false)
        Scenario.disk Scenario.shard Scenario.shadow))) = false) ∧
  (((∃ e, Replace.r_err (Replace.Replace Scenario.reopen_fails
            Scenario.disk Scenario.shard Scenario.shadow)
          = Store.Err e) ∧
    Replace.r_fs (Replace.Replace Scenario.reopen_fails
        Scenario.disk Scenario.shard Scenario.shadow) !! Store.Path Scenario.shard
      = Some (Store.data (Store.db Scenario.shadow)) ∧
    Replace.r_fs (Replace.Replace Scenario.reopen_fails
        Scenario.disk Scenario.shard Scenario.shadow) !! Replace.oldPath Scenario.shard
      = Some (Store.data (Store.db Scenario.shard)) ∧
    Store.closed (Store.db
      (Replace.r_s (Replace.Replace Scenario.reopen_fails
         Scenario.disk Scenario.shard Scenario.shadow))) = true) ∧
   (Replace.replaced Scenario.shard Scenario.shadow
      (Replace.Replace Scenario.reopen_fails
         Scenario.disk Scenario.shard Scenario.shadow) ∨
    ∃ e, Replace.r_err (Replace.Replace Scenario.reopen_fails
           Scenario.disk Scenario.shard Scenario.shadow)
         = Store.Err e) ∧
   Store.writer (Store.blocked
     (Replace.r_s (Replace.Replace Scenario.reopen_fails
        Scenario.disk Scenario.shard Scenario.shadow))) = false).
Proof.
  split.
  - exact (C3_replace_outcomes (Scenario.rename2_fails false)
             Scenario.disk Scenario.shard Scenario.shadow
             (proj1 scenario_coherent) (proj1 (proj2 scenario_coherent))
             (proj2 (proj2 scenario_coherent))).
  - exact (C3_replace_outcomes Scenario.reopen_fails
             Scenario.disk Scenario.shard Scenario.shadow
             (proj1 scenario_coherent) (proj1 (proj2 scenario_coherent))
             (proj2 (proj2 scenario_coherent))).
Defined.

(** C3 as stated fails: when the second rename and then the rollback
    rename fail, [Replace] returns the joined error, the old shard sits
    at [db-old] and the live path holds nothing. *)
Lemma C3_counterexample :
  Replace.coherent Scenario.disk Scenario.shard ∧
  Replace.coherent Scenario.disk Scenario.shadow ∧
  Replace.layout Scenario.shard Scenario.shadow ∧
  ¬ Replace.all_or_nothing Scenario.shard Scenario.shadow
      (Replace.Replace (Scenario.rename2_fails true)
         Scenario.disk Scenario.shard Scenario.shadow).
Proof.
  destruct scenario_coherent as (H1 & H2 & H3).
  split; [done|]. split; [done|]. split; [done|].
  assert (Replace.r_fs (Replace.Replace (Scenario.rename2_fails true)
            Scenario.disk Scenario.shard Scenario.shadow)
          !! Store.Path Scenario.shard = None) as Hnone
    by (vm_compute; reflexivity).
  assert (Replace.r_err (Replace.Replace (Scenario.rename2_fails true)
            Scenario.disk Scenario.shard Scenario.shadow)
          ≠ Store.Ok ()) as Herr
    by (vm_compute; discriminate).
  intros [(Hok & _)|(e & _ & Hkept & _)]; [exact (Herr Hok)|].
  rewrite Hnone in Hkept. discriminate.
Qed.

(** C5. On a library whose name does not end in a digit the
    specification asks for the single tag [lib=<basename>]; [Generate] emits the three
    variants, because the guard [lastChar >= '0' || lastChar <= '9']
    holds of every byte. *)
Theorem C5_lib_variants_at_nondigit :
  Tags.Generate "/usr/lib/libfoo.so"
    = Some ["lib=libfoo.so"; "lib=libfoo.so"; "lib=foo"]
  ∧ Tags.is_digit (GoStrings.last_byte "libfoo.so") = false
  ∧ Tags.lib_tags_spec "libfoo.so" = ["lib=libfoo.so"].
Proof. vm_compute. auto. Qed.

(** C6. With the names [A], [B], [C] stored, the range of prefix [A]
    holds one name and the limit is [1], so [A] is asked for;
    the loop stops at [i == n-1] and returns no name at all. *)
Theorem C6_limit_off_by_one :
  (Store.range_scan (Store.data (Store.db Scenario.shard)) "A" "B").*1 = ["A"]
  ∧ Store.GetPkgNamesByPrefix Scenario.shard "A" 1
    = ([Store.Scan "A" "B"], Store.Ok []).
Proof. vm_compute. auto. Qed.

(** ** The properties on the shard of the scenario *)

Lemma C1_witness :
  Store.Confidence Scenario.hit_B
    = Store.mkConf (length (Store.Overlap Scenario.hit_B)) (length Scenario.query) ∧
  (∀ x, x ∈ Store.Overlap Scenario.hit_B →
        x ∈ Scenario.query ∧ x ∈ Store.Tags (Store.Package_ Scenario.hit_B)) ∧
  Qlt 0 (Store.conf_Q (Store.Confidence Scenario.hit_B)) ∧
  Qle (Store.conf_Q (Store.Confidence Scenario.hit_B)) 1.
Proof.
  apply (C1_confidence_is_overlap_ratio (Filter := list bool)
           Scenario.shard Scenario.query
           (Store.Search Scenario.shard Scenario.query).1
           [Scenario.hit_A; Scenario.hit_B; Scenario.hit_C]).
  - vm_compute. reflexivity.
  - right. left.
Defined.

Lemma C4_witness :
  Store.GetPkg Scenario.shard_in_replace "A" = ([], Store.Err Store.ErrBlocked).
Proof.
  apply (C4_blocked_operations_fail_fast (Filter := list bool)
           Scenario.shard_in_replace Scenario.batch ∅ "A"%char "A" "A" 10
           (Store.mkMeta "etag" "")).
  reflexivity.
Defined.

Lemma C7_witness :
  ∃ rs2,
    Store.Search Scenario.shard ["lib=libX.so.1"; "bin=foo"]
      = ((Store.Search Scenario.shard Scenario.query).1, Store.Ok rs2) ∧
    (∀ r1, r1 ∈ [Scenario.hit_A; Scenario.hit_B; Scenario.hit_C] →
       ∃ r2, r2 ∈ rs2 ∧
         Store.same_match Scenario.query ["lib=libX.so.1"; "bin=foo"] r1 r2) ∧
    (∀ r2, r2 ∈ rs2 →
       ∃ r1, r1 ∈ [Scenario.hit_A; Scenario.hit_B; Scenario.hit_C] ∧
         Store.same_match Scenario.query ["lib=libX.so.1"; "bin=foo"] r1 r2).
Proof.
  apply (C7_same_tags_same_matches (Filter := list bool) Scenario.shard
           Scenario.query ["lib=libX.so.1"; "bin=foo"]).
  - intros x. unfold Scenario.query.
    rewrite !elem_of_cons, !elem_of_nil. tauto.
  - vm_compute. reflexivity.
Defined.

(** C7 as stated fails: with ["bin=foo"] given twice the tags are the
    same set, yet package [B] scores [1/3] instead of [1/2]. *)
Lemma C7_counterexample :
  (∀ x, x ∈ Scenario.query_dup ↔ x ∈ Scenario.query) ∧
  (Store.Search Scenario.shard Scenario.query_dup).2
    = Store.Ok [Scenario.hit_A_dup; Scenario.hit_C_dup; Scenario.hit_B_dup] ∧
  (Store.Search Scenario.shard Scenario.query).2
    = Store.Ok [Scenario.hit_A; Scenario.hit_B; Scenario.hit_C] ∧
  Store.Package_ Scenario.hit_B_dup = Store.Package_ Scenario.hit_B ∧
  ¬ Qeq (Store.conf_Q (Store.Confidence Scenario.hit_B_dup))
        (Store.conf_Q (Store.Confidence Scenario.hit_B)).
Proof.
  split; [|split; [|split; [|split]]].
  - intros x. unfold Scenario.query_dup, Scenario.query.
    rewrite !elem_of_cons, !elem_of_nil. tauto.
  - vm_compute. reflexivity.
  - vm_compute. reflexivity.
  - reflexivity.
  - vm_compute. discriminate.
Qed.

Lemma C10_witness :
  ∃ t, Store.Search Scenario.shard [] = (t, Store.Ok []) ∧
       Forall Store.filter_read t.
Proof.
  apply (C10_empty_query_finds_nothing (Filter := list bool) Scenario.shard).
  - reflexivity.
  - reflexivity.
  - apply StoreFacts.filters_decode_spec. vm_compute. reflexivity.
Defined.

(** C10 as stated fails: while a replace holds the write lock the
    search with no tag is refused like any other. *)
Lemma C10_counterexample :
  Store.Search (Filter := list bool) Scenario.shard_in_replace []
    = ([], Store.Err Store.ErrBlocked)
  ∧ ¬ ∃ t, Store.Search (Filter := list bool) Scenario.shard_in_replace []
           = (t, Store.Ok []).
Proof.
  assert (Store.Search (Filter := list bool) Scenario.shard_in_replace []
          = ([], Store.Err Store.ErrBlocked)) as Heq
    by (vm_compute; reflexivity).
  split; [done|]. intros [t Ht]. rewrite Heq in Ht. discriminate.
Qed.

Lemma C8_witness :
  @nil Store.event = [] ∧ "justfoo" ∈ ["justfoo"] ∧
  ¬ Regex.contains Regex.tagRegex (list_ascii_of_string "justfoo").
Proof.
  apply (proj1 (proj2 (C8_invalid_tag_iff (Filter := list bool)
                         Scenario.shard ["justfoo"]))).
  vm_compute. reflexivity.
Defined.

Lemma C9_witness :
  Store.GetPkgNamesByPrefix Scenario.shard "" 2
  = ([], Store.Panic Store.OutOfRange) ∧
  ((∃ t names, Store.GetPkgNamesByPrefix Scenario.shard "A" 2 = (t, Store.Ok names))
   ∨ Store.GetPkgNamesByPrefix Scenario.shard "A" 2
     = ([], Store.Err Store.ErrBlocked)).
Proof.
  split.
  - apply (proj1 (proj2 (proj2 (C9_prefix_index_in_range Scenario.shard "" 2)))).
    + reflexivity.
    + reflexivity.
  - apply (proj1 (proj2 (C9_prefix_index_in_range Scenario.shard "A" 2))).
    + discriminate.
    + lia.
    + reflexivity.
Defined.

(** C9 as stated fails: while a replace holds the write lock, the call
    with the empty prefix is evaluated without a panic; it returns
    [ErrBlocked] and has not looked at the prefix. *)
Lemma C9_counterexample :
  Store.writer (Store.blocked Scenario.shard_in_replace) = true ∧
  Store.GetPkgNamesByPrefix Scenario.shard_in_replace "" 2
  = ([], Store.Err Store.ErrBlocked) ∧
  ∀ p, (Store.GetPkgNamesByPrefix Scenario.shard_in_replace "" 2).2
       ≠ Store.Panic p.
Proof.
  split; [reflexivity|]. split; [reflexivity|]. intros p. discriminate.
Qed.

(** * Further properties of the stores, the refresh and the tags *)

(** ** The byte order of keys and the range of a prefix *)
Module OrderFacts.
Import GoStrings Store.

Lemma str_le_nil_l t : String.le EmptyString t.
Proof. by destruct t. Qed.

Lemma str_le_nil_r s : String.le s EmptyString ↔ s = EmptyString.
Proof. destruct s; split; done. Qed.

Lemma str_le_cons a s b t :
  String.le (String a s) (String b t)
  ↔ (N_of_ascii a < N_of_ascii b)%N ∨ (a = b ∧ String.le s t).
Proof.
  unfold String.le, String.leb. simpl. unfold Ascii.compare.
  destruct (N.compare_spec (N_of_ascii a) (N_of_ascii b)) as [Heq|Hlt|Hgt].
  - assert (a = b) as ->.
    { apply (f_equal ascii_of_N) in Heq. by rewrite !ascii_N_embedding in Heq. }
    split; [by right|]. intros [?|[_ ?]]; [lia|done].
  - split; [by left|done].
  - split; [done|]. intros [?|[-> _]]; lia.
Qed.

Lemma HasPrefix_nil s : HasPrefix s EmptyString = true.
Proof. by destruct s. Qed.

Lemma N_of_byte_succ c :
  (N_of_ascii c < 255)%N → N_of_ascii (byte_succ c) = (N_of_ascii c + 1)%N.
Proof.
  intros Hc. unfold byte_succ, nat_of_ascii.
  rewrite Nat.mod_small by lia.
  unfold ascii_of_nat. rewrite N_ascii_embedding; lia.
Qed.

Lemma N_of_byte_succ_wrap c :
  N_of_ascii c = 255%N → byte_succ c = "000"%char.
Proof.
  intros Hc. unfold byte_succ, nat_of_ascii. rewrite Hc. reflexivity.
Qed.

Lemma N_of_ascii_bound c : (N_of_ascii c < 256)%N.
Proof. apply N_ascii_bounded. Qed.

(** The bounds that [GetPkgNamesByPrefix] computes select exactly the
    keys that begin with the prefix, unless the last byte wraps. *)
Lemma in_range_prefix init l k v :
  (N_of_ascii l < 255)%N →
  in_range (init +:+ String l EmptyString)
           (init +:+ String (byte_succ l) EmptyString) (k, v)
  ↔ HasPrefix k (init +:+ String l EmptyString) = true.
Proof.
  intros Hl. unfold in_range. simpl. revert k.
  induction init as [|a init IH]; intros k.
  - change (EmptyString +:+ ?x) with x.
    destruct k as [|d k']; simpl.
    + split; [|done]. intros (H & _). by apply str_le_nil_r in H.
    + rewrite !str_le_cons, N_of_byte_succ by done. unfold byte_eqb.
      rewrite HasPrefix_nil, andb_true_r, bool_decide_eq_true. split.
      * intros ([Hlt|[Heq _]] & [Hlt'|[Heq' Hk']] & Hne); [lia| |done|done].
        apply str_le_nil_r in Hk'. by subst.
      * intros ->. split; [right; split; [done|apply str_le_nil_l]|].
        split; [left; lia|]. intros [= Heq _].
        apply (f_equal N_of_ascii) in Heq. rewrite N_of_byte_succ in Heq by done. lia.
  - change (String a init +:+ ?x) with (String a (init +:+ x)).
    destruct k as [|d k']; simpl.
    + split; [|done]. intros (H & _). by apply str_le_nil_r in H.
    + rewrite !str_le_cons. unfold byte_eqb. rewrite andb_true_iff, bool_decide_eq_true.
      rewrite <-IH. split.
      * intros ([Hlt|[Heq1 H1]] & [Hlt'|[Heq H2]] & Hne); subst; try lia.
        split; [done|]. split; [done|]. split; [done|]. by intros ->.
      * intros (-> & H1 & H2 & Hne). split; [by right|]. split; [by right|].
        by intros [= ->].
Qed.

(** When the last byte of the prefix is [0xFF] its successor wraps to
    [0x00]: the upper bound lies below the lower one and no key is in
    range. *)
Lemma in_range_wrap init l kv :
  N_of_ascii l = 255%N →
  ¬ in_range (init +:+ String l EmptyString)
             (init +:+ String (byte_succ l) EmptyString) kv.
Proof.
  intros Hl (H1 & H2 & _). rewrite (N_of_byte_succ_wrap _ Hl) in H2.
  assert (String.le (init +:+ String l EmptyString)
                    (init +:+ String "000"%char EmptyString)) as Hle
    by (by etrans).
  clear -Hle Hl. induction init as [|a init IH].
  - change (EmptyString +:+ ?x) with x in Hle.
    apply str_le_cons in Hle as [Hlt|[-> _]].
    + change (N_of_ascii "000"%char) with 0%N in Hlt. lia.
    + by vm_compute in Hl.
  - change (String a init +:+ ?x) with (String a (init +:+ x)) in Hle.
    apply str_le_cons in Hle as [Hlt|[_ ?]]; [lia|auto].
Qed.

End OrderFacts.
(** ** Names by prefix: what the iterator bounds select *)
Module PrefixFacts.
Import GoStrings Store StoreFacts OrderFacts.

Local Instance key_le_trans : Transitive key_le.
Proof. intros a b c. unfold key_le. apply transitivity. Qed.

Lemma range_scan_keys_sorted (m : gmap string string) lower upper :
  StronglySorted String.le (range_scan m lower upper).*1.
Proof.
  apply (StronglySorted_fmap fst key_le); [done|].
  unfold range_scan. apply (StronglySorted_merge_sort key_le).
Qed.

Lemma range_scan_keys_NoDup (m : gmap string string) lower upper :
  NoDup (range_scan m lower upper).*1.
Proof.
  unfold range_scan. rewrite merge_sort_Permutation.
  eapply sublist_NoDup; [apply (NoDup_fst_map_to_list m)|].
  apply fmap_sublist, sublist_filter.
Qed.

Lemma collect_names_all n i keys :
  (n ≤ 0)%Z → (0 ≤ i)%Z → collect_names n i keys = keys.
Proof.
  intros Hn. revert i. induction keys as [|k rest IH]; intros i Hi; simpl; [done|].
  destruct (Z.eqb_spec i (n - 1)); [lia|]. rewrite IH by lia. done.
Qed.

Lemma collect_names_is_take n keys :
  ∃ m, collect_names n 0 keys = take m keys.
Proof.
  destruct (Z.le_gt_cases n 0).
  - exists (length keys). by rewrite collect_names_all, firstn_all by lia.
  - exists (Z.to_nat (n - 1 - 0)). apply collect_names_take; lia.
Qed.

Lemma split_last_app prefix init l :
  split_last prefix = Some (init, l) → prefix = init +:+ String l EmptyString.
Proof.
  revert init. induction prefix as [|c rest IH]; intros init; [done|].
  simpl. destruct (split_last rest) as [[init' l']|] eqn:Hr.
  - intros [= <- <-]. by rewrite (IH init').
  - intros [= <- <-]. apply split_last_None in Hr. by subst.
Qed.

(** X1. Every name that [GetPkgNamesByPrefix] returns is a key of the
    database that begins with the prefix, and the names come out in
    ascending order without repetition. *)
Theorem GetPkgNamesByPrefix_names (s : Store) (prefix : string) (n : Z)
    (t : list event) (names : list string) :
  GetPkgNamesByPrefix s prefix n = (t, Ok names) →
  (∀ name, name ∈ names →
     is_Some (data (db s) !! name) ∧ HasPrefix name prefix = true) ∧
  StronglySorted String.le names ∧ NoDup names.
Proof.
  unfold GetPkgNamesByPrefix, with_rlock.
  destruct (TryRLock (blocked s)); [|done].
  destruct (n <? 0)%Z; [done|].
  destruct (split_last prefix) as [[init l]|] eqn:Hsl; [|done].
  unfold bind, db_NewIter. destruct (closed (db s)); [done|]. simpl.
  intros [= <- <-].
  pose proof (split_last_app _ _ _ Hsl) as Hprefix.
  set (upper := init +:+ String (byte_succ l) EmptyString).
  destruct (collect_names_is_take n (range_scan (data (db s)) prefix upper).*1)
    as [m ->].
  split; [|split].
  - intros name Hin.
    assert (name ∈ (range_scan (data (db s)) prefix upper).*1) as Hin'
      by (eapply elem_of_sublist; [exact Hin|apply sublist_take]).
    clear Hin. apply list_elem_of_fmap in Hin' as ([k v] & -> & Hkv).
    apply elem_of_range_scan in Hkv as [Hk Hr]. simpl in *.
    split; [eauto|].
    destruct (N.lt_ge_cases (N_of_ascii l) 255) as [Hl|Hl].
    + rewrite Hprefix. apply (in_range_prefix init l k v Hl).
      by rewrite <-Hprefix.
    + exfalso. apply (in_range_wrap init l (k, v)).
      * pose proof (N_of_ascii_bound l). lia.
      * by rewrite <-Hprefix.
  - pose proof (range_scan_keys_sorted (data (db s)) prefix upper) as Hs.
    rewrite <-(take_drop m) in Hs. by apply StronglySorted_app_1_l in Hs.
  - eapply sublist_NoDup; [apply range_scan_keys_NoDup|apply sublist_take].
Qed.

(** X2. With the limit [0] the loop never meets [i == n-1]: every key that
    begins with the prefix is returned, reserved keys included. *)
Theorem GetPkgNamesByPrefix_limit_zero (s : Store) (prefix init : string) (l : ascii) :
  good s → split_last prefix = Some (init, l) → (N_of_ascii l < 255)%N →
  ∃ t names,
    GetPkgNamesByPrefix s prefix 0 = (t, Ok names) ∧
    ∀ name, name ∈ names
            ↔ is_Some (data (db s) !! name) ∧ HasPrefix name prefix = true.
Proof.
  intros [Hw Hc] Hsl Hl. unfold GetPkgNamesByPrefix.
  rewrite with_rlock_free by done. simpl. rewrite Hsl.
  unfold bind, db_NewIter. rewrite Hc. simpl.
  rewrite collect_names_all by lia.
  eexists _, _. split; [done|]. intros name.
  pose proof (split_last_app _ _ _ Hsl) as Hp.
  rewrite list_elem_of_fmap. split.
  - intros ([k v] & -> & Hkv). apply elem_of_range_scan in Hkv as [Hk Hr].
    simpl in *. split; [eauto|]. rewrite Hp in Hr |- *.
    by apply (in_range_prefix init l k v Hl).
  - intros [[v Hv] Hpre]. exists (name, v). split; [done|].
    apply elem_of_range_scan. split; [done|]. rewrite Hp in Hpre |- *.
    by apply (in_range_prefix init l name v Hl).
Qed.

(** X3. A prefix whose last byte is [0xFF] finds nothing: [prefix[len-1]+1]
    wraps to [0x00] and the range is empty. *)
Theorem GetPkgNamesByPrefix_last_byte_wraps
    (s : Store) (prefix init : string) (l : ascii) (n : Z) :
  good s → split_last prefix = Some (init, l) → N_of_ascii l = 255%N → (0 ≤ n)%Z →
  ∃ t, GetPkgNamesByPrefix s prefix n = (t, Ok []).
Proof.
  intros [Hw Hc] Hsl Hl Hn. unfold GetPkgNamesByPrefix.
  rewrite with_rlock_free by done.
  destruct (Z.ltb_spec n 0); [lia|]. rewrite Hsl.
  unfold bind, db_NewIter. rewrite Hc. simpl.
  assert (range_scan (data (db s)) prefix (init +:+ String (byte_succ l) EmptyString) = [])
    as ->.
  { apply elem_of_nil_inv. intros kv [_ Hr]%elem_of_range_scan.
    rewrite (split_last_app _ _ _ Hsl) in Hr. by apply in_range_wrap in Hr. }
  eexists. done.
Qed.

End PrefixFacts.

(** ** The search: order, soundness and completeness of the scan *)
Module SearchFacts.
Import GoStrings Store Sbloom StoreFacts OrderFacts StoreViews.

Global Instance result_le_total : Total result_le.
Proof.
  intros a b. unfold result_le, result_cmp, conf_lt.
  destruct (Nat.ltb_spec (num (Confidence a) * den (Confidence b))
                         (num (Confidence b) * den (Confidence a))) as [H1|H1];
  destruct (Nat.ltb_spec (num (Confidence b) * den (Confidence a))
                         (num (Confidence a) * den (Confidence b))) as [H2|H2];
    try lia; try (by left); try (by right).
  rewrite (String.compare_antisym (Name (Package_ a)) (Name (Package_ b))).
  destruct (String.compare (Name (Package_ b)) (Name (Package_ a))); simpl;
    try (by left); by right.
Qed.

Lemma Sorted_impl_elem {A} (R R' : relation A) (l : list A) :
  (∀ a b, a ∈ l → b ∈ l → R a b → R' a b) → Sorted R l → Sorted R' l.
Proof.
  intros Himpl Hs. induction Hs as [|a l Hs IH Hhd]; [constructor|].
  constructor.
  - apply IH. intros x y Hx Hy. apply Himpl; by right.
  - destruct Hhd as [|b l' Hab]; constructor.
    apply Himpl; [left|right; left|done].
Qed.


Lemma startChars_no_wrap c : c ∈ startChars → (N_of_ascii c < 255)%N.
Proof.
  intros Hc%list_elem_of_In.
  assert (forallb (λ c, (N_of_ascii c <? 255)%N) startChars = true) as Hall
    by (vm_compute; reflexivity).
  rewrite forallb_forall in Hall. by apply N.ltb_lt, Hall.
Qed.

Lemma in_range_start c k v :
  c ∈ startChars →
  in_range (String c EmptyString) (String (byte_succ c) EmptyString) (k, v)
  ↔ k ≠ EmptyString ∧ first_byte k = c.
Proof.
  intros Hc%startChars_no_wrap.
  rewrite (in_range_prefix EmptyString c k v Hc).
  change (EmptyString +:+ ?x) with x.
  destruct k as [|d k']; simpl; [split; [done|by intros [? _]]|].
  unfold byte_eqb. rewrite HasPrefix_nil, andb_true_r, bool_decide_eq_true.
  split; [by intros ->|by intros [_ ->]].
Qed.

Section WithLibraries.
Context {Filter : Type} `{!FilterOps Filter}.

(** X4. The results come out ranked. *)
Theorem Search_ranked (s : Store) (T : list string) (t : list event)
    (rs : list TagResult) :
  Search s T = (t, Ok rs) → Sorted ranked rs.
Proof.
  intros Hs.
  assert (Sorted result_le rs) as Hsorted.
  { revert Hs. unfold Search. destruct (find _ T); [done|].
    destruct (SearchThreads s <=? 0)%Z.
    - intros [= <- <-]. constructor.
    - unfold bind. destruct (run_workers s T iterOpts []) as [t' [res| |]]; [|done..].
      intros [= <- <-]. apply SortResults_Sorted. }
  eapply Sorted_impl_elem; [|exact Hsorted].
  intros a b Ha Hb Hab.
  destruct (Search_ok _ _ _ _ _ Hs Ha) as (Hne & opta & kva & _ & _ & Hsa).
  destruct (Search_ok _ _ _ _ _ Hs Hb) as (_ & optb & kvb & _ & _ & Hsb).
  apply scan_entry_Some in Hsa as (Hca & _). apply scan_entry_Some in Hsb as (Hcb & _).
  unfold result_le, result_cmp, conf_lt in Hab. rewrite Hca, Hcb in Hab. simpl in Hab.
  assert (0 < length T)%nat as HT by (destruct T; [done|simpl; lia]).
  destruct (Nat.ltb_spec (length (Overlap a) * length T)
                         (length (Overlap b) * length T)) as [H1|H1]; [done|].
  split; [nia|]. intros Heq. rewrite Heq, Nat.ltb_irrefl in Hab.
  unfold String.le, String.leb.
  by destruct (String.compare (Name (Package_ a)) (Name (Package_ b))).
Qed.

(** X5. A result is a package of the shard: its name is a key whose first
    byte is one of [startChars] and its tags are the stored value,
    split.  Filters, metadata and packages that begin with any other
    byte are never returned. *)
Theorem Search_returns_stored_packages (s : Store) (T : list string)
    (t : list event) (rs : list TagResult) (r : TagResult) :
  Search s T = (t, Ok rs) → r ∈ rs →
  ∃ v, data (db s) !! Name (Package_ r) = Some v ∧
       Tags (Package_ r) = Split v US ∧
       Name (Package_ r) ≠ EmptyString ∧
       first_byte (Name (Package_ r)) ∈ startChars ∧
       Overlap r ≠ [].
Proof.
  intros Hs Hr.
  destruct (Search_ok _ _ _ _ _ Hs Hr) as (Hne & opt & [k v] & Hopt & Hkv & Hscan).
  apply scan_entry_Some in Hscan as (Hconf & _ & Hpkg & Hz).
  apply elem_of_range_scan in Hkv as [Hk Hrange]. simpl in *.
  unfold iterOpts in Hopt. apply list_elem_of_fmap in Hopt as (c & -> & Hc).
  apply (in_range_start c k v Hc) in Hrange as [Hk0 Hkc]. simpl in *.
  exists v. rewrite Hpkg. simpl. repeat split; try done; [by rewrite Hkc|].
  intros Hnil. rewrite Hconf, Hnil in Hz. unfold conf_is_zero in Hz. simpl in Hz.
  destruct T; [done|]. done.
Qed.

Lemma run_workers_each s tags opts acc t rs :
  run_workers s tags opts acc = (t, Ok rs) →
  (∀ r, r ∈ acc → r ∈ rs) ∧
  ∀ opt, opt ∈ opts →
    ∃ t' out, search_opt s tags opt = (t', Ok out) ∧ ∀ r, r ∈ out → r ∈ rs.
Proof.
  revert acc t. induction opts as [|opt rest IH]; intros acc t; simpl.
  - intros [= <- <-]. split; [done|]. by intros opt ?%elem_of_nil.
  - unfold bind at 1.
    destruct (search_opt s tags opt) as [t1 [out| |]] eqn:Hs; [|done..].
    destruct (run_workers s tags rest (acc ++ out)) as [t2 r2] eqn:Hr.
    intros [= <- ->]. destruct (IH _ _ Hr) as [Hacc Hrest].
    split.
    + intros r Hin. apply Hacc, elem_of_app. by left.
    + intros opt' [->|Hin]%elem_of_cons; [|by apply Hrest].
      exists t1, out. split; [done|]. intros r Hin. apply Hacc, elem_of_app. by right.
Qed.

(** The result that the scan of the range of [name] adds for a stored
    package, once the filter of its first byte reports a tag of the
    query. *)
Lemma Search_hit (s : Store) (T : list string) (t : list event)
    (rs : list TagResult) (name v tag : string) (f : Filter) (t' : list event) :
  Search s T = (t, Ok rs) → (0 < SearchThreads s)%Z →
  data (db s) !! name = Some v →
  name ≠ EmptyString → first_byte name ∈ startChars →
  tag ∈ T → tag ∈ Split v US →
  GetFilter s (first_byte name) = (t', Ok f) → Lookup f tag = true →
  mkResult (mkConf (length (filter (λ stag, stag ∈ Split v US) T)) (length T))
           (filter (λ stag, stag ∈ Split v US) T)
           (mkPackage name (Split v US)) ∈ rs.
Proof.
  intros Hs Hthreads Hv Hname Hc HT Hv' Hf Hlook.
  revert Hs. unfold Search. destruct (find _ T); [done|].
  destruct (Z.leb_spec (SearchThreads s) 0); [lia|].
  unfold bind. destruct (run_workers s T iterOpts []) as [t1 [res| |]] eqn:Hrw; [|done..].
  intros [= <- <-].
  destruct (run_workers_each _ _ _ _ _ _ Hrw) as [_ Hall].
  set (c := first_byte name) in *.
  destruct (Hall (String c EmptyString, String (byte_succ c) EmptyString))
    as (t2 & out & Hopt & Hout).
  { unfold iterOpts. apply list_elem_of_fmap. by exists c. }
  revert Hopt. unfold search_opt, bind, filter_gate. simpl. fold c. rewrite Hf.
  assert (existsb (Lookup f) T = true) as ->.
  { apply existsb_exists. exists tag. split; [by apply list_elem_of_In|done]. }
  simpl. unfold db_NewIter. destruct (closed (db s)); [done|]. simpl.
  intros [= <- <-].
  set (ov := filter (λ stag, stag ∈ Split v US) T).
  assert (tag ∈ ov) as Hov by (apply list_elem_of_filter; done).
  apply SortResults_elem, Hout, list_elem_of_omap. exists (name, v). split.
  - apply elem_of_range_scan. split; [done|]. by apply in_range_start.
  - unfold scan_entry, overlap, conf_is_zero. simpl. fold ov.
    destruct ov; [by apply elem_of_nil in Hov|done].
Qed.

(** X6. The scan misses nothing the filter lets through: a stored package
    whose name begins with one of [startChars] and that carries a tag
    of the query is returned, as soon as the filter of its first byte
    reports that tag. *)
Theorem Search_finds (s : Store) (T : list string) (t : list event)
    (rs : list TagResult) (name v tag : string) (f : Filter) (t' : list event) :
  Search s T = (t, Ok rs) → (0 < SearchThreads s)%Z →
  data (db s) !! name = Some v →
  name ≠ EmptyString → first_byte name ∈ startChars →
  tag ∈ T → tag ∈ Split v US →
  GetFilter s (first_byte name) = (t', Ok f) → Lookup f tag = true →
  ∃ r, r ∈ rs ∧ Package_ r = mkPackage name (Split v US) ∧ tag ∈ Overlap r.
Proof.
  intros Hs Hthreads Hv Hname Hc HT Hv' Hf Hlook.
  eexists. split.
  - by eapply (Search_hit s T t rs name v tag f t').
  - split; [done|]. simpl. by apply list_elem_of_filter.
Qed.

(** X7. Without filters nothing is scanned: a shard that holds no filter
    for any starting byte answers every well-formed query with an
    empty list, whatever packages it holds. *)
Theorem Search_without_filters (s : Store) (T : list string) :
  good s →
  (∀ c, c ∈ startChars → data (db s) !! filterKey c = None) →
  (∀ tag, tag ∈ T → Regex.MatchString Regex.tagRegex tag = true) →
  ∃ t, Search s T = (t, Ok []) ∧ Forall filter_read t.
Proof.
  intros [Hw Hc] Hnone Hvalid. unfold Search.
  destruct (find _ T) as [bad|] eqn:Hfind.
  { apply find_some in Hfind as [Hin Hbad]. apply list_elem_of_In in Hin.
    rewrite (Hvalid _ Hin) in Hbad. done. }
  destruct (SearchThreads s <=? 0)%Z; [exists []; by split|].
  assert (∀ opts acc, (∀ opt, opt ∈ opts → first_byte opt.1 ∈ startChars) →
    ∃ t, run_workers s T opts acc = (t, Ok acc) ∧ Forall filter_read t) as Hrun.
  { induction opts as [|opt rest IH]; intros acc Hopts; simpl.
    - exists []. by split.
    - destruct (IH acc) as (t & Ht & Hall).
      { intros opt' ?. apply Hopts. by right. }
      unfold bind at 1, search_opt, bind, filter_gate, GetFilter.
      rewrite with_rlock_free by done. unfold bind, db_Get. rewrite Hc.
      rewrite Hnone by (apply Hopts; left). simpl. rewrite app_nil_r, Ht.
      eexists. split; [done|]. constructor; [by eexists|done]. }
  destruct (Hrun iterOpts []) as (t & Ht & Hall).
  { intros opt (c & -> & Hin)%list_elem_of_fmap. done. }
  exists t. unfold bind. rewrite Ht. simpl. rewrite app_nil_r. done.
Qed.

(** With worker threads, an open and unblocked store whose filters
    decode runs every range of a well-formed query to its end. *)
Lemma Search_runs (s : Store) (T : list string) :
  good s → (0 < SearchThreads s)%Z →
  (∀ c v, c ∈ startChars → data (db s) !! filterKey c = Some v →
          is_Some (GobDecode (Filter := Filter) v)) →
  (∀ tag, tag ∈ T → Regex.MatchString Regex.tagRegex tag = true) →
  ∃ t res, run_workers (Filter := Filter) s T iterOpts [] = (t, Ok res) ∧
           Search (Filter := Filter) s T = (t, Ok (SortResults res)).
Proof.
  intros [Hw Hc] Hthr Hdec Hvalid.
  assert (∀ opts acc, (∀ opt, opt ∈ opts → first_byte opt.1 ∈ startChars) →
    ∃ t rs, run_workers (Filter := Filter) s T opts acc = (t, Ok rs)) as Hrun.
  { induction opts as [|opt rest IH]; intros acc Hopts; simpl.
    - by eexists _, _.
    - assert (∃ t out, search_opt (Filter := Filter) s T opt = (t, Ok out))
        as (t1 & out & Heq).
      { unfold search_opt, bind, filter_gate, GetFilter.
        rewrite with_rlock_free by done. unfold bind, db_Get, db_NewIter. rewrite Hc.
        destruct (data (db s) !! filterKey (first_byte opt.1)) as [v|] eqn:Hv.
        - destruct (Hdec _ v (Hopts opt ltac:(left)) Hv) as [f Hf].
          rewrite Hf. simpl. destruct (existsb (Lookup f) T); simpl; by eexists _, _.
        - simpl. by eexists _, _. }
      destruct (IH (acc ++ out)) as (t2 & rs & Heq2).
      { intros opt' ?. apply Hopts. by right. }
      unfold bind. rewrite Heq, Heq2. by eexists _, _. }
  destruct (Hrun iterOpts []) as (t & rs & Ht).
  { intros opt (c & -> & Hin)%list_elem_of_fmap. done. }
  exists t, rs. split; [done|]. unfold Search.
  destruct (find _ T) as [bad|] eqn:Hfind.
  { apply find_some in Hfind as [Hin Hbad]. apply list_elem_of_In in Hin.
    rewrite (Hvalid _ Hin) in Hbad. done. }
  destruct (Z.leb_spec (SearchThreads s) 0); [lia|].
  unfold bind. rewrite Ht. simpl. by rewrite app_nil_r.
Qed.

(** X8. On an open and unblocked store whose filters decode, a search with
    well-formed tags returns a result list: a missing filter is passed
    over and no range of the scan ends the search with an error. *)
Theorem Search_completes (s : Store) (T : list string) :
  good s →
  (∀ c v, c ∈ startChars → data (db s) !! filterKey c = Some v →
          is_Some (GobDecode (Filter := Filter) v)) →
  (∀ tag, tag ∈ T → Regex.MatchString Regex.tagRegex tag = true) →
  ∃ t rs, Search (Filter := Filter) s T = (t, Ok rs).
Proof.
  intros Hgood Hdec Hvalid.
  destruct (Z.leb_spec (SearchThreads s) 0) as [Hle|Hlt].
  - unfold Search. destruct (find _ T) as [bad|] eqn:Hfind.
    { apply find_some in Hfind as [Hin Hbad]. apply list_elem_of_In in Hin.
      rewrite (Hvalid _ Hin) in Hbad. done. }
    destruct (Z.leb_spec (SearchThreads s) 0); [|lia]. by eexists _, _.
  - destruct (Search_runs s T Hgood Hlt Hdec Hvalid) as (t & res & _ & Heq).
    by eexists _, _.
Qed.


End WithLibraries.

End SearchFacts.

(** ** [WriteBatch]: what it writes *)
Module BatchFacts.
Import GoStrings Store Sbloom StoreFacts IngestFacts StoreViews.

Global Instance string_le_antisymm : AntiSymm (=) String.le.
Proof. apply _. Qed.

Lemma Compact_cons2 x y rest :
  Compact (x :: y :: rest)
  = if bool_decide (x = y) then Compact (y :: rest) else x :: Compact (y :: rest).
Proof. done. Qed.

Lemma Compact_sorted l :
  StronglySorted String.le l →
  StronglySorted String.le (Compact l) ∧ NoDup (Compact l).
Proof.
  induction 1 as [|x l Hs IH Hall]; [split; constructor|].
  destruct IH as [IHs IHn]. destruct l as [|y rest].
  - split; [repeat constructor|]. apply NoDup_singleton.
  - rewrite Compact_cons2. case_bool_decide as Hxy; [done|]. split.
    + constructor; [done|]. apply Forall_forall. intros z Hz.
      apply (proj1 (Compact_elem _ _)) in Hz.
      by eapply Forall_forall in Hall.
    + constructor; [|done]. intros Hx. apply (proj1 (Compact_elem _ _)) in Hx.
      apply Hxy. apply (anti_symm String.le).
      * eapply Forall_forall in Hall; [done|left].
      * apply StronglySorted_inv in Hs as [_ Hy].
        apply elem_of_cons in Hx as [->|Hx]; [done|].
        by eapply Forall_forall in Hy.
Qed.

Lemma merged_tags_sorted m item :
  StronglySorted String.le (merged_tags m item) ∧ NoDup (merged_tags m item).
Proof.
  apply Compact_sorted. unfold Sort. apply (StronglySorted_merge_sort String.le).
Qed.

Lemma merged_tags_elem m item T :
  T ∈ merged_tags m item ↔ T ∈ stored_tags m (rName item) ∨ T ∈ rTags item.
Proof. unfold merged_tags. by rewrite Compact_Sort_elem, elem_of_app. Qed.

Lemma stored_tags_sep_free m name T : T ∈ stored_tags m name → sep_free T = true.
Proof.
  unfold stored_tags. destruct (m !! name); [apply Split_sep_free|by intros ?%elem_of_nil].
Qed.

Lemma Split_join_merged m item :
  skipped item = false → (∀ T, T ∈ rTags item → sep_free T = true) →
  Split (join (merged_tags m item)) US = merged_tags m item.
Proof.
  intros Hskip Hfree. apply Split_join.
  - apply Compact_Sort_nonempty. apply orb_false_iff in Hskip as [_ Hlen].
    destruct (rTags item); [done|]. by destruct (stored_tags m (rName item)).
  - intros T [?|?]%merged_tags_elem; [by eapply stored_tags_sep_free|auto].
Qed.

Section WithLibraries.
Context {Filter : Type} `{!FilterOps Filter}.

Lemma WriteBatch_item_writes s item b (filters : gmap ascii Filter) :
  closed (db s) = false →
  ∃ t filters',
    WriteBatch_item s item (b, filters)
    = (t, Ok (b ++ batch_writes (data (db s)) [item], filters')).
Proof.
  intros Hc. unfold WriteBatch_item, batch_writes. simpl. fold (skipped item).
  destruct (skipped item) eqn:Hskip.
  { simpl. rewrite app_nil_r. by eexists _, _. }
  unfold db_Get. rewrite Hc. unfold merged_tags, stored_tags.
  destruct (data (db s) !! rName item) as [curVal|] eqn:Hcur; simpl.
  - destruct (joinTags_spec (first_byte (rName item))
                (Compact (Sort (Split curVal US ++ rTags item))) filters)
      as (filters' & -> & _). by eexists _, _.
  - destruct (joinTags_spec (first_byte (rName item)) (Compact (Sort (rTags item))) filters)
      as (filters' & -> & _). by eexists _, _.
Qed.

Lemma WriteBatch_loop_writes s batch b (filters : gmap ascii Filter) :
  closed (db s) = false →
  ∃ t filters',
    WriteBatch_loop s batch (b, filters)
    = (t, Ok (b ++ batch_writes (data (db s)) batch, filters')).
Proof.
  intros Hc. revert b filters. induction batch as [|item rest IH]; intros b filters.
  - simpl. rewrite app_nil_r. by eexists _, _.
  - destruct (WriteBatch_item_writes s item b filters Hc) as (t1 & f1 & Heq1).
    destruct (IH (b ++ batch_writes (data (db s)) [item]) f1) as (t2 & f2 & Heq2).
    exists (t1 ++ t2), f2. cbn [WriteBatch_loop]. unfold bind. rewrite Heq1, Heq2.
    do 3 f_equal. rewrite <-app_assoc. f_equal.
    unfold batch_writes. simpl. by destruct (skipped item).
Qed.

(** On an open and unblocked store [WriteBatch] succeeds, and the
    database it leaves is the old one with the writes of the batch
    applied in order. *)
Lemma WriteBatch_data s batch (filters : gmap ascii Filter) :
  good s →
  ∃ t s' filters',
    WriteBatch s batch filters = (t, Ok (s', filters')) ∧
    good s' ∧ SearchThreads s' = SearchThreads s ∧ Path s' = Path s ∧
    data (db s') = foldl (λ m kv, <[kv.1 := kv.2]> m) (data (db s))
                         (batch_writes (data (db s)) batch).
Proof.
  intros [Hw Hc]. unfold WriteBatch. rewrite with_rlock_free by done.
  destruct (WriteBatch_loop_writes s batch [] filters Hc) as (t & f' & Heq).
  unfold bind. rewrite Heq. unfold db_Apply. rewrite Hc. simpl.
  by eexists _, _, _.
Qed.

Lemma elem_of_batch_writes m batch k v :
  (k, v) ∈ batch_writes m batch ↔
  ∃ item, item ∈ batch ∧ skipped item = false ∧ rName item = k ∧
          v = join (merged_tags m item).
Proof.
  unfold batch_writes. rewrite list_elem_of_omap. split.
  - intros (item & Hin & Heq). destruct (skipped item) eqn:Hs; [done|].
    injection Heq as <- <-. eauto.
  - intros (item & Hin & Hs & <- & ->). exists item. by rewrite Hs.
Qed.

Lemma batch_writes_keys_sublist m batch :
  (batch_writes m batch).*1 `sublist_of` (rName <$> batch).
Proof.
  induction batch as [|item rest IH]; simpl; [done|].
  unfold batch_writes in *. simpl. destruct (skipped item); simpl.
  - by apply sublist_cons.
  - by apply sublist_skip.
Qed.

Lemma apply_lookup_NoDup (m : gmap string string) (b : list (string * string)) k v :
  NoDup b.*1 → (k, v) ∈ b →
  foldl (λ m kv, <[kv.1 := kv.2]> m) m b !! k = Some v.
Proof.
  revert m. induction b as [|[k' v'] b IH]; intros m; simpl.
  - by intros _ ?%elem_of_nil.
  - intros [Hfresh Hnd]%NoDup_cons [[= -> ->]|Hin]%elem_of_cons.
    + destruct (foldl _ (<[k':=v']> m) b !! k') as [w|] eqn:Hw.
      * apply apply_lookup in Hw as [Hin|Hm].
        -- destruct Hfresh. apply list_elem_of_fmap. by exists (k', w).
        -- rewrite lookup_insert_eq in Hm. congruence.
      * assert (is_Some (foldl (λ m kv, <[kv.1:=kv.2]> m) (<[k':=v']> m) b !! k')) as [? ?].
        { apply apply_is_Some. right. rewrite lookup_insert_eq. eauto. }
        congruence.
    + by apply IH.
Qed.

Lemma apply_lookup_other (m : gmap string string) (b : list (string * string)) k :
  k ∉ b.*1 → foldl (λ m kv, <[kv.1 := kv.2]> m) m b !! k = m !! k.
Proof.
  revert m. induction b as [|[k' v'] b IH]; intros m; simpl; [done|].
  intros [Hne Hnot]%not_elem_of_cons. rewrite IH by done.
  by apply lookup_insert_ne.
Qed.

(** X10. [WriteBatch] never removes a package and never touches a package
    that the batch does not name; the names it adds are the names of
    the records that have a name and at least one tag. *)
Theorem WriteBatch_keys (s : Store) (batch : list Record_)
    (filters : gmap ascii Filter) :
  good s →
  ∃ t s' filters',
    WriteBatch s batch filters = (t, Ok (s', filters')) ∧
    (∀ k, is_Some (data (db s') !! k) ↔
          is_Some (data (db s) !! k) ∨
          ∃ item, item ∈ batch ∧ rName item = k ∧
                  k ≠ EmptyString ∧ rTags item ≠ []) ∧
    (∀ k, (∀ item, item ∈ batch → rName item ≠ k) →
          data (db s') !! k = data (db s) !! k).
Proof.
  intros Hgood.
  destruct (WriteBatch_data s batch filters Hgood) as (t & s' & f' & Heq & _ & _ & _ & Hdata).
  exists t, s', f'. split; [done|]. rewrite Hdata. split.
  - intros k. split.
    + intros [v Hv]. apply apply_lookup in Hv as [Hin|Hm]; [right|left; eauto].
      apply elem_of_batch_writes in Hin as (item & Hin & Hskip & <- & _).
      exists item. split; [done|]. split; [done|].
      apply orb_false_iff in Hskip as [H1 H2].
      split; [by destruct (rName item)|by destruct (rTags item)].
    + intros [Hold|(item & Hin & <- & Hn & Ht)]; apply apply_is_Some; [by right|left].
      apply list_elem_of_fmap. exists (rName item, join (merged_tags (data (db s)) item)).
      split; [done|]. apply elem_of_batch_writes. exists item.
      split; [done|]. split; [|done]. unfold skipped. apply orb_false_iff.
      split; [by destruct (rName item)|by destruct (rTags item)].
  - intros k Hk. apply apply_lookup_other.
    intros ([k' v] & -> & Hin)%list_elem_of_fmap.
    apply elem_of_batch_writes in Hin as (item & Hin & _ & Heq' & _).
    by apply (Hk item).
Qed.

(** X11. For a record of a batch that names each package once, [WriteBatch]
    leaves under the name the tags that were stored together with the
    tags of the record, in ascending order and each once. *)
Theorem WriteBatch_merges (s : Store) (batch : list Record_)
    (filters : gmap ascii Filter) (item : Record_) :
  good s → NoDup (rName <$> batch) → item ∈ batch →
  rName item ≠ EmptyString → rTags item ≠ [] →
  (∀ T, T ∈ rTags item → sep_free T = true) →
  ∃ t s' filters' tags,
    WriteBatch s batch filters = (t, Ok (s', filters')) ∧
    GetPkg s' (rName item) = ([Read (rName item)], Ok (mkPackage (rName item) tags)) ∧
    (∀ T, T ∈ tags ↔ T ∈ stored_tags (data (db s)) (rName item) ∨ T ∈ rTags item) ∧
    StronglySorted String.le tags ∧ NoDup tags.
Proof.
  intros Hgood Hnd Hin Hn Ht Hfree.
  destruct (WriteBatch_data s batch filters Hgood)
    as (t & s' & f' & Heq & [Hw' Hc'] & _ & _ & Hdata).
  exists t, s', f', (merged_tags (data (db s)) item). split; [done|].
  assert (skipped item = false) as Hskip.
  { unfold skipped. apply orb_false_iff.
    split; [by destruct (rName item)|by destruct (rTags item)]. }
  split; [|split; [apply merged_tags_elem|apply merged_tags_sorted]].
  unfold GetPkg. rewrite with_rlock_free by done. unfold bind, db_Get. rewrite Hc', Hdata.
  rewrite (apply_lookup_NoDup _ _ (rName item) (join (merged_tags (data (db s)) item))).
  - simpl. by rewrite Split_join_merged.
  - eapply sublist_NoDup; [exact Hnd|apply batch_writes_keys_sublist].
  - apply elem_of_batch_writes. by exists item.
Qed.

End WithLibraries.

End BatchFacts.

(** ** The shard that a refresh builds *)
Module RefreshFacts.
Import GoStrings Store Sbloom Pull StoreFacts IngestFacts StoreViews PullViews
  BatchFacts SearchFacts.

Lemma skipped_false item :
  skipped item = false ↔ rName item ≠ EmptyString ∧ rTags item ≠ [].
Proof.
  unfold skipped. rewrite orb_false_iff.
  destruct (rName item), (rTags item); simpl; split; intros [? ?]; done.
Qed.

Lemma merged_tags_nonempty m item : skipped item = false → merged_tags m item ≠ [].
Proof.
  intros [_ Ht]%skipped_false. apply Compact_Sort_nonempty.
  destruct (rTags item); [done|]. by destruct (stored_tags m (rName item)).
Qed.

(** Each key after a batch: written by the one record of that name, or
    left alone because no record of that name had anything to write. *)
Lemma after_batch_cases m batch k :
  NoDup (rName <$> batch) →
  (∀ item T, item ∈ batch → T ∈ rTags item → sep_free T = true) →
  (∃ item, item ∈ batch ∧ skipped item = false ∧ rName item = k ∧
           after_batch m batch !! k = Some (join (merged_tags m item)) ∧
           stored_tags (after_batch m batch) k = merged_tags m item) ∨
  (after_batch m batch !! k = m !! k ∧
   stored_tags (after_batch m batch) k = stored_tags m k ∧
   ∀ item, item ∈ batch → rName item = k → skipped item = true).
Proof.
  intros Hnd Hfree. unfold after_batch.
  destruct (decide (k ∈ (batch_writes m batch).*1)) as [Hin|Hnot].
  - left. apply list_elem_of_fmap in Hin as ([k' v] & -> & Hin).
    pose proof Hin as Hin'.
    apply elem_of_batch_writes in Hin as (item & Hitem & Hskip & <- & ->).
    exists item. split; [done|]. split; [done|]. split; [done|].
    assert (foldl (λ m kv, <[kv.1:=kv.2]> m) m (batch_writes m batch) !! rName item
            = Some (join (merged_tags m item))) as Hl.
    { apply apply_lookup_NoDup; [|done].
      eapply sublist_NoDup; [exact Hnd|apply batch_writes_keys_sublist]. }
    split; [done|]. unfold stored_tags at 1. simpl. rewrite Hl.
    apply Split_join_merged; [done|]. intros T. by apply Hfree.
  - right. assert (foldl (λ m kv, <[kv.1:=kv.2]> m) m (batch_writes m batch) !! k
                   = m !! k) as Hl by by apply apply_lookup_other.
    split; [done|]. split; [unfold stored_tags; by rewrite Hl|].
    intros item Hitem <-. destruct (skipped item) eqn:Hskip; [done|].
    destruct Hnot. apply list_elem_of_fmap.
    exists (rName item, join (merged_tags m item)). split; [done|].
    apply elem_of_batch_writes. by exists item.
Qed.

Section WithLibraries.
Context {Filter : Type} `{!FilterOps Filter} `{!MetaCodec}.

Lemma records_names (col : gmap string Record_) :
  (∀ k cur, col !! k = Some cur → rName cur = k) →
  rName <$> records col = (map_to_list col).*1.
Proof.
  intros Hwf. unfold records. rewrite <-list_fmap_compose.
  apply Forall_fmap_ext, Forall_forall. intros [k cur] Hin%elem_of_map_to_list.
  simpl. by apply Hwf.
Qed.

Lemma collect_wf (col : gmap string Record_) rec :
  (∀ k cur, col !! k = Some cur → rName cur = k) →
  ∀ k cur, collect col rec !! k = Some cur → rName cur = k.
Proof.
  intros Hwf k cur. unfold collect.
  destruct (col !! rName rec) as [curRec|] eqn:Hcur.
  - destruct (decide (k = rName rec)) as [->|Hne].
    + rewrite lookup_insert_eq. intros [= <-]. simpl. by apply Hwf.
    + rewrite lookup_insert_ne by done. apply Hwf.
  - destruct (decide (k = rName rec)) as [->|Hne].
    + rewrite lookup_insert_eq. by intros [= <-].
    + rewrite lookup_insert_ne by done. apply Hwf.
Qed.

Lemma collect_sound (col : gmap string Record_) rec k T :
  (∀ k cur, col !! k = Some cur → rName cur = k) →
  pending (collect col rec) k T →
  pending col k T ∨ (k = rName rec ∧ T ∈ rTags rec).
Proof.
  intros Hwf (cur & Hcur & HT). unfold collect in Hcur.
  destruct (col !! rName rec) as [curRec|] eqn:Hold.
  - destruct (decide (k = rName rec)) as [->|Hne].
    + rewrite lookup_insert_eq in Hcur. injection Hcur as <-. simpl in HT.
      apply elem_of_app in HT as [HT|HT]; [left|by right].
      by exists curRec.
    + rewrite lookup_insert_ne in Hcur by done. left. by exists cur.
  - destruct (decide (k = rName rec)) as [->|Hne].
    + rewrite lookup_insert_eq in Hcur. injection Hcur as <-. by right.
    + rewrite lookup_insert_ne in Hcur by done. left. by exists cur.
Qed.

Lemma exact_inv_start dir :
  exact_inv [] (mkState (Filter := Filter) (Open dir ∅) ∅ ∅ 0).
Proof.
  split; [done|]. split; [done|]. simpl.
  split; [intros k cur; by rewrite lookup_empty|].
  split; [by intros rec T ?%elem_of_nil|].
  split; [intros k [v Hv]; by rewrite lookup_empty in Hv|].
  split; [intros k; unfold stored_tags; rewrite lookup_empty; split; constructor|].
  split.
  - intros k T [HT|(cur & Hcur & _)].
    + unfold stored_tags in HT. rewrite lookup_empty in HT. by apply elem_of_nil in HT.
    + by rewrite lookup_empty in Hcur.
  - by intros k T _ (rec & ?%elem_of_nil & _).
Qed.

Lemma collect_exact seen s2 (filters : gmap ascii Filter) col i i' rec :
  exact_inv seen (mkState s2 filters col i) →
  (∀ T, T ∈ rTags rec → sep_free T = true) →
  exact_inv (rec :: seen) (mkState s2 filters (collect col rec) i').
Proof.
  intros (Hgood & Hthr & Hwf & Hfree & Hne & Hsorted & Hsound & Hcomplete) Hrec.
  simpl in *. split; [done|]. split; [done|]. simpl.
  split; [by apply collect_wf|].
  split. { intros rec' T [->|Hin]%elem_of_cons; [apply Hrec|by apply Hfree]. }
  split; [done|]. split; [done|]. split.
  - intros k T [HT|HT].
    + destruct (Hsound k T) as (rec' & Hin & Hn & HT'); [by left|].
      exists rec'. split; [by right|done].
    + apply collect_sound in HT as [HT|[-> HT]]; [|exists rec; split; [by left|done]|done].
      destruct (Hsound k T) as (rec' & Hin & Hn & HT'); [by right|].
      exists rec'. split; [by right|done].
  - intros k T Hk (rec' & [->|Hin]%elem_of_cons & <- & HT).
    + right. by apply collect_new.
    + destruct (Hcomplete (rName rec') T Hk) as [?|?]; [by exists rec'|by left|].
      right. by apply collect_pending.
Qed.

Lemma flush_exact seen s2 (filters : gmap ascii Filter) col i i' t s' filters' :
  exact_inv seen (mkState s2 filters col i) →
  WriteBatch s2 (records col) filters = (t, Ok (s', filters')) →
  exact_inv seen (mkState s' filters' ∅ i').
Proof.
  intros (Hgood & Hthr & Hwf & Hfree & Hne & Hsorted & Hsound & Hcomplete) Heq.
  simpl in *.
  destruct (WriteBatch_data s2 (records col) filters Hgood)
    as (t0 & s0 & f0 & Heq0 & Hgood' & Hthr' & _ & Hdata).
  rewrite Heq in Heq0. injection Heq0 as <- <- <-.
  fold (after_batch (data (db s2)) (records col)) in Hdata.
  assert (NoDup (rName <$> records col)) as Hnd.
  { rewrite records_names by done. apply NoDup_fst_map_to_list. }
  assert (∀ item T, item ∈ records col → T ∈ rTags item → sep_free T = true) as Hbfree.
  { intros item T [k Hk]%elem_of_records HT.
    destruct (Hsound k T) as (rec & Hin & _ & HTr); [|by eapply Hfree].
    right. by exists item. }
  assert (∀ item, item ∈ records col → col !! rName item = Some item) as Hrec.
  { intros item [k Hk]%elem_of_records. by rewrite (Hwf _ _ Hk). }
  split; [done|]. simpl. split; [congruence|]. rewrite Hdata.
  split; [intros k cur; by rewrite lookup_empty|]. split; [done|].
  split.
  { intros k Hsome.
    destruct (after_batch_cases (data (db s2)) (records col) k Hnd Hbfree)
      as [(item & Hin & Hskip & Hk & Hl & ->)|(Hl & -> & _)].
    - by apply merged_tags_nonempty.
    - apply Hne. by rewrite <-Hl. }
  split.
  { intros k.
    destruct (after_batch_cases (data (db s2)) (records col) k Hnd Hbfree)
      as [(item & Hin & Hskip & Hk & Hl & ->)|(Hl & -> & _)].
    - apply merged_tags_sorted.
    - apply Hsorted. }
  split.
  - intros k T [HT|(cur & Hcur & _)]; [|by rewrite lookup_empty in Hcur].
    destruct (after_batch_cases (data (db s2)) (records col) k Hnd Hbfree)
      as [(item & Hin & Hskip & Hk & Hl & Hst)|(Hl & Hst & _)];
      rewrite Hst in HT.
    + apply merged_tags_elem in HT as [HT|HT]; apply Hsound.
      * left. by rewrite Hk in HT.
      * right. exists item. split; [|done]. rewrite <-Hk. by apply Hrec.
    + apply Hsound. by left.
  - intros k T Hk Hing. left.
    destruct (after_batch_cases (data (db s2)) (records col) k Hnd Hbfree)
      as [(item & Hin & Hskip & Hname & Hl & ->)|(Hl & -> & Hall)].
    + apply merged_tags_elem.
      destruct (Hcomplete k T Hk Hing) as [HT|(cur & Hcur & HT)].
      * left. by rewrite Hname.
      * right. apply Hrec in Hin. rewrite Hname in Hin. congruence.
    + destruct (Hcomplete k T Hk Hing) as [HT|(cur & Hcur & HT)]; [done|].
      assert (skipped cur = true) as Hskip.
      { apply Hall; [apply elem_of_records; by exists k|by apply (Hwf k)]. }
      assert (skipped cur = false); [|congruence].
      apply skipped_false. rewrite (Hwf _ _ Hcur).
      split; [done|]. intros Hnil. rewrite Hnil in HT. by apply elem_of_nil in HT.
Qed.

Lemma ingest_step_exact seen (st st' : state (Filter := Filter)) rec t :
  exact_inv seen st → (∀ T, T ∈ rTags rec → sep_free T = true) →
  ingest_step st rec = (t, Ok st') →
  exact_inv (rec :: seen) st'.
Proof.
  intros Hinv Hrec. unfold ingest_step. destruct (rError rec); [done|].
  destruct st as [s2 filters col i]. cbn [st_s2 st_filters st_collected st_i].
  destruct (batchSize <=? i)%nat.
  - pose proof (collect_exact seen s2 filters col i i rec Hinv Hrec) as Hinv1.
    unfold bind.
    destruct (WriteBatch s2 (records (collect col rec)) filters)
      as [t1 [[s1 f1]| |]] eqn:Heq; [|done..].
    cbn [ret fst snd]. intros [= <- <-]. by eapply flush_exact.
  - intros [= <- <-].
    by apply (collect_exact seen s2 filters col i (S i) rec).
Qed.

Lemma ingest_loop_exact recs seen (st st' : state (Filter := Filter)) t :
  exact_inv seen st →
  (∀ rec T, rec ∈ recs → T ∈ rTags rec → sep_free T = true) →
  ingest_loop st recs = (t, Ok st') →
  exact_inv (rev recs ++ seen) st'.
Proof.
  revert seen st t. induction recs as [|rec rest IH]; intros seen st t Hinv Hfree.
  - simpl. by intros [= <- <-].
  - cbn [ingest_loop]. unfold bind.
    destruct (ingest_step st rec) as [t1 [st1| |]] eqn:Hstep; [|done..].
    destruct (ingest_loop st1 rest) as [t2 [st2| |]] eqn:Hloop; [|done..].
    intros [= <- <-]. simpl. rewrite <-app_assoc. simpl.
    eapply IH; [|by intros rec' T Hin; apply Hfree; right|exact Hloop].
    eapply ingest_step_exact; [done| |done].
    intros T. apply Hfree. by left.
Qed.

Lemma WriteFilters_loop_other (d d' : DB) (l : list (ascii * Filter)) t k :
  WriteFilters_loop d l = (t, Ok d') → k ∉ (filterKey <$> l.*1) →
  data d' !! k = data d !! k.
Proof.
  revert d t. induction l as [|[c f] rest IH]; intros d t; simpl.
  - by intros [= <- <-].
  - unfold bind, db_Set. destruct (closed d); [done|]. simpl.
    destruct (WriteFilters_loop _ rest) as [t1 [d1| |]] eqn:Hloop; [|done..].
    intros [= <- <-] [Hne Hnot]%not_elem_of_cons.
    rewrite (IH _ _ Hloop Hnot). simpl. by apply lookup_insert_ne.
Qed.

Lemma WriteFilters_data s (filters : gmap ascii Filter) :
  good s →
  ∃ d', WriteFilters s filters = ([], Ok (set_db s d')) ∧ closed d' = false ∧
    (∀ k, (∀ c, is_Some (filters !! c) → k ≠ filterKey c) →
          data d' !! k = data (db s) !! k) ∧
    (∀ c f, filters !! c = Some f → data d' !! filterKey c = Some (GobEncode f)).
Proof.
  intros [Hw Hc].
  destruct (WriteFilters_loop_spec (db s) (map_to_list filters) Hc)
    as (d' & Heq & Hc' & _ & _ & Hset).
  exists d'. split.
  { unfold WriteFilters. rewrite with_rlock_free by done. unfold bind. by rewrite Heq. }
  split; [done|]. split.
  - intros k Hk. apply (WriteFilters_loop_other _ _ _ _ _ Heq).
    intros (c & -> & ([c' f] & -> & Hin)%list_elem_of_fmap)%list_elem_of_fmap.
    apply elem_of_map_to_list in Hin. by apply (Hk c').
  - intros c f Hcf. apply Hset; [apply NoDup_fst_map_to_list|].
    by apply elem_of_map_to_list.
Qed.

Lemma WriteMeta_data s meta :
  good s →
  WriteMeta s meta
  = ([], Ok (set_db s (mkDB (<[metaKey := Marshal meta]> (data (db s))) false))).
Proof.
  intros [Hw Hc]. unfold WriteMeta. rewrite with_rlock_free by done.
  unfold bind, db_Set. by rewrite Hc.
Qed.

Lemma filterKey_not_metaKey c : filterKey c ≠ metaKey.
Proof. done. Qed.

Lemma reserved_first_byte k :
  first_byte k ≠ STX → k ≠ metaKey ∧ ∀ c, k ≠ filterKey c.
Proof. intros Hk. split; [|intros c]; by intros ->. Qed.

(** What [refresh] leaves: the shard of the loop with the filters and
    the metadata written over it. *)
Lemma refresh_shard dir recs meta t s' :
  refresh dir recs meta = (t, Ok s') →
  (∀ rec T, rec ∈ recs → T ∈ rTags rec → sep_free T = true) →
  ∃ s2 (filters : gmap ascii Filter),
    exact_inv (rev recs) (mkState s2 filters ∅ 0) ∧
    good s' ∧ SearchThreads s' = 4%Z ∧
    data (db s') !! metaKey = Some (Marshal meta) ∧
    (∀ c f, filters !! c = Some f →
            data (db s') !! filterKey c = Some (GobEncode f)) ∧
    (∀ k, k ≠ metaKey → (∀ c, is_Some (filters !! c) → k ≠ filterKey c) →
          data (db s') !! k = data (db s2) !! k).
Proof.
  intros Href Hfree. unfold refresh in Href.
  destruct (ingest_loop (mkState (Open dir ∅) ∅ ∅ 0) recs) as [t1 [st| |]] eqn:Hloop;
    [|done..].
  pose proof (ingest_loop_exact recs [] _ _ _ (exact_inv_start dir) Hfree Hloop) as Hinv.
  rewrite app_nil_r in Hinv. unfold bind at 1 in Href.
  assert (∃ t2 s2 filters,
    (if bool_decide (st_collected st = ∅)
     then ret (st_s2 st, st_filters st)
     else WriteBatch (st_s2 st) (records (st_collected st)) (st_filters st))
    = (t2, Ok (s2, filters)) ∧
    exact_inv (rev recs) (mkState s2 filters ∅ 0))
    as (t2 & s2 & filters & Heq2 & Hinv2).
  { destruct st as [s2 filters col i]. cbn [st_s2 st_filters st_collected] in *.
    case_bool_decide as Hempty.
    - eexists _, _, _. split; [done|]. subst col.
      exact Hinv.
    - destruct (WriteBatch s2 (records col) filters) as [t2 [[s2' f2]| |]] eqn:Heq;
        [|done..].
      eexists _, _, _. split; [done|]. by eapply flush_exact. }
  rewrite Heq2 in Href. unfold bind at 1 in Href. cbn [fst snd] in Href.
  pose proof Hinv2 as (Hgood2 & Hthr2 & _).
  cbn [st_s2] in Hgood2, Hthr2.
  destruct (WriteFilters_data s2 filters Hgood2) as (d3 & Heq3 & Hc3 & Hother3 & Hset3).
  rewrite Heq3 in Href. unfold bind in Href.
  rewrite WriteMeta_data in Href by (split; [apply Hgood2|done]).
  injection Href as <- <-.
  exists s2, filters. split; [done|]. split; [split; [apply Hgood2|done]|].
  split; [done|]. simpl. split; [by rewrite lookup_insert_eq|]. split.
  - intros c f Hcf. rewrite lookup_insert_ne by (symmetry; apply filterKey_not_metaKey).
    by apply Hset3.
  - intros k Hk1 Hk2. rewrite lookup_insert_ne by done. by apply Hother3.
Qed.

Lemma ingested_rev_elem {A} (x : A) l : x ∈ rev l → x ∈ l.
Proof. intros Hin. apply list_elem_of_In. apply in_rev. by apply list_elem_of_In. Qed.

Lemma ingested_rev recs name T : ingested (rev recs) name T → ingested recs name T.
Proof.
  intros (rec & Hin & Hn & HT). exists rec. split; [|done].
  apply list_elem_of_In. apply in_rev. by apply list_elem_of_In.
Qed.

Lemma ingested_to_rev recs name T : ingested recs name T → ingested (rev recs) name T.
Proof.
  intros (rec & Hin & Hn & HT). exists rec. split; [|done]. by apply elem_of_rev.
Qed.

(** X12. The tags of a package in a refreshed shard are the tags that the
    records of the refresh carry under its name, in ascending order and
    each once. *)
Theorem refresh_GetPkg_exact (dir : string) (recs : list Record_) (meta : RepoMeta)
    (t : list event) (s' : Store) (name : string) (rec : Record_) :
  refresh (Filter := Filter) dir recs meta = (t, Ok s') →
  (∀ rec T, rec ∈ recs → T ∈ rTags rec → sep_free T = true) →
  first_byte name ≠ STX → name ≠ EmptyString →
  rec ∈ recs → rName rec = name → rTags rec ≠ [] →
  ∃ tags,
    GetPkg s' name = ([Read name], Ok (mkPackage name tags)) ∧
    (∀ T, T ∈ tags ↔ ∃ rec, rec ∈ recs ∧ rName rec = name ∧ T ∈ rTags rec) ∧
    StronglySorted String.le tags ∧ NoDup tags.
Proof.
  intros Href Hfree Hfirst Hname Hin Hrec Htags.
  destruct (refresh_shard dir recs meta t s' Href Hfree)
    as (s2 & filters & Hinv & [Hw Hc] & _ & _ & _ & Hother).
  destruct Hinv as (_ & _ & _ & _ & _ & Hsorted & Hsound & Hcomplete).
  cbn [st_s2 st_collected] in *.
  destruct (reserved_first_byte name Hfirst) as [Hmeta Hfil].
  assert (data (db s') !! name = data (db s2) !! name) as Hsame.
  { apply Hother; [done|]. intros c _. apply Hfil. }
  assert (∀ T, T ∈ stored_tags (data (db s2)) name ↔ ingested recs name T) as Hiff.
  { intros T. split.
    - intros HT. apply ingested_rev, Hsound. by left.
    - intros Hing. apply ingested_to_rev in Hing.
      destruct (Hcomplete name T Hname Hing) as [?|(cur & Hcur & _)]; [done|].
      by rewrite lookup_empty in Hcur. }
  exists (stored_tags (data (db s2)) name). split; [|split; [done|apply Hsorted]].
  unfold GetPkg. rewrite with_rlock_free by done. unfold bind, db_Get.
  rewrite Hc, Hsame. unfold stored_tags in *.
  destruct (data (db s2) !! name) as [v|]; [done|].
  destruct (rTags rec) as [|T0 ?] eqn:HT0; [done|].
  assert (T0 ∈ []) as Hbad%elem_of_nil; [|done].
  apply Hiff. exists rec. rewrite HT0. split; [done|]. split; [done|]. left.
Qed.

Lemma key_inv_start dir :
  key_inv [] (mkState (Filter := Filter) (Open dir ∅) ∅ ∅ 0).
Proof.
  split; [done|]. simpl.
  split; [intros k cur; by rewrite lookup_empty|].
  split; [intros k [v Hv]; by rewrite lookup_empty in Hv|].
  intros k T (cur & Hcur & _). by rewrite lookup_empty in Hcur.
Qed.

Lemma ingested_cons rec seen k T : ingested seen k T → ingested (rec :: seen) k T.
Proof. intros (rec' & Hin & Hn & HT). exists rec'. split; [by right|done]. Qed.

Lemma collect_keys seen s2 (filters : gmap ascii Filter) col i i' rec :
  key_inv seen (mkState s2 filters col i) →
  key_inv (rec :: seen) (mkState s2 filters (collect col rec) i').
Proof.
  intros (Hgood & Hwf & Hdata & Hpend). simpl in *.
  split; [done|]. simpl. split; [by apply collect_wf|].
  split.
  - intros k Hk. destruct (Hdata k Hk) as [T HT]. exists T. by apply ingested_cons.
  - intros k T HT.
    apply collect_sound in HT as [HT|[-> HT]]; [|exists rec; split; [by left|done]|done].
    by apply ingested_cons, Hpend.
Qed.

Lemma flush_keys seen s2 (filters : gmap ascii Filter) col i i' t s' filters' :
  key_inv seen (mkState s2 filters col i) →
  WriteBatch s2 (records col) filters = (t, Ok (s', filters')) →
  key_inv seen (mkState s' filters' ∅ i').
Proof.
  intros (Hgood & Hwf & Hdata & Hpend) Heq. simpl in *.
  destruct (WriteBatch_data s2 (records col) filters Hgood)
    as (t0 & s0 & f0 & Heq0 & Hgood' & _ & _ & Hnew).
  rewrite Heq in Heq0. injection Heq0 as <- <- <-.
  split; [done|]. simpl.
  split; [intros k cur; by rewrite lookup_empty|].
  split; [|intros k T (cur & Hcur & _); by rewrite lookup_empty in Hcur].
  intros k [v Hv]. rewrite Hnew in Hv.
  apply apply_lookup in Hv as [Hin|Hold]; [|apply Hdata; by eexists].
  apply elem_of_batch_writes in Hin as (item & Hitem & Hskip & Hk & _).
  apply skipped_false in Hskip as [_ Htags].
  destruct (rTags item) as [|T rest] eqn:HT; [done|].
  exists T. apply Hpend. exists item.
  apply elem_of_records in Hitem as [k' Hk'].
  rewrite <-Hk, (Hwf _ _ Hk'). split; [done|]. rewrite HT. left.
Qed.

Lemma ingest_step_keys seen (st st' : state (Filter := Filter)) rec t :
  key_inv seen st → ingest_step st rec = (t, Ok st') → key_inv (rec :: seen) st'.
Proof.
  intros Hinv. unfold ingest_step. destruct (rError rec); [done|].
  destruct st as [s2 filters col i]. cbn [st_s2 st_filters st_collected st_i].
  destruct (batchSize <=? i)%nat.
  - pose proof (collect_keys seen s2 filters col i i rec Hinv) as Hinv1.
    unfold bind.
    destruct (WriteBatch s2 (records (collect col rec)) filters)
      as [t1 [[s1 f1]| |]] eqn:Heq; [|done..].
    cbn [ret fst snd]. intros [= <- <-]. by eapply flush_keys.
  - intros [= <- <-]. by apply (collect_keys seen s2 filters col i (S i) rec).
Qed.

Lemma ingest_loop_keys recs seen (st st' : state (Filter := Filter)) t :
  key_inv seen st → ingest_loop st recs = (t, Ok st') →
  key_inv (rev recs ++ seen) st'.
Proof.
  revert seen st t. induction recs as [|rec rest IH]; intros seen st t Hinv.
  - simpl. by intros [= <- <-].
  - cbn [ingest_loop]. unfold bind.
    destruct (ingest_step st rec) as [t1 [st1| |]] eqn:Hstep; [|done..].
    destruct (ingest_loop st1 rest) as [t2 [st2| |]] eqn:Hloop; [|done..].
    intros [= <- <-]. simpl. rewrite <-app_assoc. simpl.
    eapply IH; [|exact Hloop]. by eapply ingest_step_keys.
Qed.

(** The names of a refreshed shard, whatever bytes the tags hold. *)
Lemma refresh_keys dir recs meta t s' :
  refresh dir recs meta = (t, Ok s') →
  ∃ s2 (filters : gmap ascii Filter),
    key_inv (rev recs) (mkState s2 filters ∅ 0) ∧ good s' ∧
    (∀ k, k ≠ metaKey → (∀ c, is_Some (filters !! c) → k ≠ filterKey c) →
          data (db s') !! k = data (db s2) !! k).
Proof.
  intros Href. unfold refresh in Href.
  destruct (ingest_loop (mkState (Open dir ∅) ∅ ∅ 0) recs) as [t1 [st| |]] eqn:Hloop;
    [|done..].
  pose proof (ingest_loop_keys recs [] _ _ _ (key_inv_start dir) Hloop) as Hinv.
  rewrite app_nil_r in Hinv. unfold bind at 1 in Href.
  assert (∃ t2 s2 filters,
    (if bool_decide (st_collected st = ∅)
     then ret (st_s2 st, st_filters st)
     else WriteBatch (st_s2 st) (records (st_collected st)) (st_filters st))
    = (t2, Ok (s2, filters)) ∧
    key_inv (rev recs) (mkState s2 filters ∅ 0))
    as (t2 & s2 & filters & Heq2 & Hinv2).
  { destruct st as [s2 filters col i]. cbn [st_s2 st_filters st_collected] in *.
    case_bool_decide as Hempty.
    - eexists _, _, _. split; [done|]. subst col.
      exact Hinv.
    - destruct (WriteBatch s2 (records col) filters) as [t2 [[s2' f2]| |]] eqn:Heq;
        [|done..].
      eexists _, _, _. split; [done|]. by eapply flush_keys. }
  rewrite Heq2 in Href. unfold bind at 1 in Href. cbn [fst snd] in Href.
  pose proof Hinv2 as (Hgood2 & _).
  cbn [st_s2] in Hgood2.
  destruct (WriteFilters_data s2 filters Hgood2) as (d3 & Heq3 & Hc3 & Hother3 & Hset3).
  rewrite Heq3 in Href. unfold bind in Href.
  rewrite WriteMeta_data in Href by (split; [apply Hgood2|done]).
  injection Href as <- <-.
  exists s2, filters. split; [done|]. split; [split; [apply Hgood2|done]|].
  intros k Hk1 Hk2. simpl. rewrite lookup_insert_ne by done. by apply Hother3.
Qed.

(** X13. A name under which the refresh read no tag is not in the shard:
    [GetPkg] answers with [ErrNotFound]. *)
Theorem refresh_GetPkg_unknown (dir : string) (recs : list Record_) (meta : RepoMeta)
    (t : list event) (s' : Store) (name : string) :
  refresh (Filter := Filter) dir recs meta = (t, Ok s') →
  first_byte name ≠ STX →
  (∀ rec, rec ∈ recs → rName rec = name → rTags rec = []) →
  GetPkg s' name = ([Read name], Err ErrNotFound).
Proof.
  intros Href Hfirst Hnone.
  destruct (refresh_keys dir recs meta t s' Href)
    as (s2 & filters & Hinv & [Hw Hc] & Hother).
  destruct Hinv as (_ & _ & Hdata & _).
  cbn [st_s2 st_collected] in *.
  destruct (reserved_first_byte name Hfirst) as [Hmeta Hfil].
  unfold GetPkg. rewrite with_rlock_free by done. unfold bind, db_Get.
  rewrite Hc, Hother; [|done|by intros c _].
  destruct (data (db s2) !! name) as [v|] eqn:Hv; [|done].
  destruct (Hdata name) as (T & rec & Hin%ingested_rev_elem & Hn & HT); [by eexists|].
  rewrite (Hnone rec Hin Hn) in HT. by apply elem_of_nil in HT.
Qed.

(** X14. After a refresh, a search finds every package of the records that
    carries one of the searched tags. *)
Theorem refresh_then_Search_finds (dir : string) (recs : list Record_)
    (meta : RepoMeta) (t : list event) (s' : Store) (T : list string)
    (rec : Record_) (tag : string) :
  refresh (Filter := Filter) dir recs meta = (t, Ok s') →
  (∀ rec T, rec ∈ recs → T ∈ rTags rec → sep_free T = true) →
  (∀ rec, rec ∈ recs → first_byte (rName rec) ≠ STX) →
  (∀ tag, tag ∈ T → Regex.MatchString Regex.tagRegex tag = true) →
  rec ∈ recs → rName rec ≠ EmptyString → first_byte (rName rec) ∈ startChars →
  tag ∈ rTags rec → tag ∈ T →
  ∃ t' rs r,
    Search (Filter := Filter) s' T = (t', Ok rs) ∧ r ∈ rs ∧
    Name (Package_ r) = rName rec ∧ tag ∈ Tags (Package_ r) ∧ tag ∈ Overlap r.
Proof.
  intros Href Hfree Hfirst Hvalid Hin Hname Hstart Htag HT.
  destruct (refresh_shard dir recs meta t s' Href Hfree)
    as (s2 & filters & Hinv & Hgood & Hthr & _ & Hset & Hother).
  destruct Hinv as (_ & _ & _ & _ & Hne & _ & Hsound & Hcomplete).
  cbn [st_s2 st_collected] in *.
  destruct (refresh_spec (λ _, True) dir recs meta t s') as (filters0 & _ & Hget & Hrecs);
    [done..|].
  destruct (Hrecs rec tag Hin Hname Htag) as [(f & Hf & Hlook) _].
  assert (∃ v, data (db s') !! rName rec = Some v ∧ tag ∈ Split v US) as (v & Hv & Htagv).
  { destruct (reserved_first_byte (rName rec) (Hfirst rec Hin)) as [Hmeta Hfil].
    rewrite Hother; [|done|by intros c _].
    destruct (Hcomplete (rName rec) tag Hname) as [Hst|(cur & Hcur & _)].
    - apply ingested_to_rev. by exists rec.
    - unfold stored_tags in Hst. destruct (data (db s2) !! rName rec) as [v|]; [eauto|].
      by apply elem_of_nil in Hst.
    - by rewrite lookup_empty in Hcur. }
  assert (0 < SearchThreads s')%Z as Hpos by (rewrite Hthr; lia).
  destruct (Search_runs s' T Hgood Hpos) as (t' & res & _ & HS); [|done|].
  { intros c vc _ Hcv. destruct (filters !! c) as [fc|] eqn:Hfc.
    - rewrite (Hset c fc Hfc) in Hcv. injection Hcv as <-.
      rewrite GobDecode_GobEncode. by eexists.
    - rewrite Hother in Hcv; [|apply filterKey_not_metaKey|].
      + assert (stored_tags (data (db s2)) (filterKey c) ≠ []) as Hst.
        { apply Hne. by eexists. }
        destruct (stored_tags (data (db s2)) (filterKey c)) as [|T0 ?] eqn:Hst0; [done|].
        destruct (Hsound (filterKey c) T0) as (rec0 & Hin0%ingested_rev_elem & Hn0 & _).
        { left. rewrite Hst0. left. }
        destruct (Hfirst rec0 Hin0). by rewrite Hn0.
      + intros c' [fc' Hfc'] [= ->]. congruence. }
  pose proof (Hget _ _ Hf) as Hgf.
  pose proof (Search_hit s' T t' _ (rName rec) v tag f _
                HS Hpos Hv Hname Hstart HT Htagv Hgf Hlook) as Hr.
  eexists t', _, _. split; [exact HS|]. split; [exact Hr|]. simpl.
  split; [done|]. split; [done|]. by apply list_elem_of_filter.
Qed.

Lemma bind_Ok_inv {A B} (m : M A) (k : A → M B) t b :
  bind m k = (t, Ok b) →
  ∃ t1 a t2, m = (t1, Ok a) ∧ k a = (t2, Ok b) ∧ t = t1 ++ t2.
Proof.
  unfold bind. destruct m as [t1 [a| |]]; [|done..].
  destruct (k a) as [t2 r] eqn:Hk. intros [= <- ->]. by eexists _, _, _.
Qed.

(** Reads of a store look at the lock, at whether the database is
    open, and at one key. *)
Lemma GetPkg_ext s1 s2 name :
  writer (blocked s1) = writer (blocked s2) → closed (db s1) = closed (db s2) →
  data (db s1) !! name = data (db s2) !! name →
  GetPkg s1 name = GetPkg s2 name.
Proof.
  intros Hw Hc Hd. unfold GetPkg, with_rlock, TryRLock, bind, db_Get.
  rewrite Hw, Hc, Hd. by destruct (writer (blocked s2)).
Qed.

Lemma GetFilter_ext s1 s2 c :
  writer (blocked s1) = writer (blocked s2) → closed (db s1) = closed (db s2) →
  data (db s1) !! filterKey c = data (db s2) !! filterKey c →
  GetFilter (Filter := Filter) s1 c = GetFilter s2 c.
Proof.
  intros Hw Hc Hd. unfold GetFilter, with_rlock, TryRLock, bind, db_Get.
  rewrite Hw, Hc, Hd. by destruct (writer (blocked s2)).
Qed.

Lemma GetMeta_ext s1 s2 :
  writer (blocked s1) = writer (blocked s2) → closed (db s1) = closed (db s2) →
  data (db s1) !! metaKey = data (db s2) !! metaKey →
  GetMeta s1 = GetMeta s2.
Proof.
  intros Hw Hc Hd. unfold GetMeta, with_rlock, TryRLock, bind, db_Get.
  rewrite Hw, Hc, Hd. by destruct (writer (blocked s2)).
Qed.

(** X15. [WriteFilters] then [GetFilter]: each filter that was written is
    read back; the filters of other first bytes, the packages and the
    metadata are as before. *)
Theorem WriteFilters_then_GetFilter (s : Store) (filters : gmap ascii Filter) :
  good s →
  ∃ s',
    WriteFilters s filters = ([], Ok s') ∧
    (∀ c f, filters !! c = Some f →
            GetFilter s' c = ([Read (filterKey c)], Ok f)) ∧
    (∀ c, filters !! c = None → GetFilter (Filter := Filter) s' c = GetFilter s c) ∧
    (∀ name, (∀ c, is_Some (filters !! c) → name ≠ filterKey c) →
             GetPkg s' name = GetPkg s name) ∧
    GetMeta s' = GetMeta s.
Proof.
  intros Hgood. pose proof Hgood as [Hw Hc].
  destruct (WriteFilters_data s filters Hgood) as (d' & Heq & Hc' & Hother & Hset).
  exists (set_db s d'). split; [done|]. split; [|split; [|split]].
  - intros c f Hcf. apply GetFilter_stored; [done|]. by apply Hset.
  - intros c Hnone. apply GetFilter_ext; [done|simpl; congruence|]. simpl.
    apply Hother. intros c' [f Hf] [= ->]. congruence.
  - intros name Hname. apply GetPkg_ext; [done|simpl; congruence|]. simpl.
    by apply Hother.
  - apply GetMeta_ext; [done|simpl; congruence|]. simpl.
    apply Hother. intros c _. apply not_eq_sym, filterKey_not_metaKey.
Qed.

(** X16. [WriteMeta] then [GetMeta]: when the JSON codec reads back what it
    wrote, the metadata comes back; packages and filters are as before. *)
Theorem WriteMeta_then_GetMeta (s s' : Store) (meta : RepoMeta) (t : list event) :
  WriteMeta s meta = (t, Ok s') →
  Unmarshal (Marshal meta) = Some meta →
  GetMeta s' = ([Read metaKey], Ok meta) ∧
  (∀ name, name ≠ metaKey → GetPkg s' name = GetPkg s name) ∧
  (∀ c, GetFilter (Filter := Filter) s' c = GetFilter s c).
Proof.
  unfold WriteMeta. destruct (writer (blocked s)) eqn:Hw.
  { by rewrite with_rlock_blocked. }
  rewrite with_rlock_free by done. unfold bind, db_Set.
  destruct (closed (db s)) eqn:Hc; [done|]. simpl. intros [= <- <-] Hrt.
  split; [|split].
  - unfold GetMeta. rewrite with_rlock_free by done. unfold bind, db_Get. simpl.
    rewrite lookup_insert_eq, Hrt. done.
  - intros name Hname. apply GetPkg_ext; [done|simpl; congruence|]. simpl.
    by apply lookup_insert_ne.
  - intros c. apply GetFilter_ext; [done|simpl; congruence|]. simpl.
    apply lookup_insert_ne, not_eq_sym, filterKey_not_metaKey.
Qed.

Lemma WriteMeta_inv s meta t s' :
  WriteMeta s meta = (t, Ok s') →
  good s' ∧ data (db s') !! metaKey = Some (Marshal meta).
Proof.
  unfold WriteMeta. destruct (writer (blocked s)) eqn:Hw.
  { by rewrite with_rlock_blocked. }
  rewrite with_rlock_free by done. unfold bind, db_Set.
  destruct (closed (db s)) eqn:Hc; [done|]. simpl. intros [= <- <-].
  split; [done|]. simpl. by rewrite lookup_insert_eq.
Qed.

(** The metadata that a refresh was given is what [GetMeta] reads from
    the refreshed shard. *)
Lemma refresh_GetMeta (dir : string) (recs : list Record_) (meta : RepoMeta)
    (t : list event) (s' : Store) :
  refresh (Filter := Filter) dir recs meta = (t, Ok s') →
  Unmarshal (Marshal meta) = Some meta →
  GetMeta s' = ([Read metaKey], Ok meta).
Proof.
  unfold refresh. intros (t1 & st & t2 & _ & H2 & _)%bind_Ok_inv Hrt.
  apply bind_Ok_inv in H2 as (t3 & sf & t4 & _ & H4 & _).
  apply bind_Ok_inv in H4 as (t5 & s3 & t6 & _ & H6 & _).
  apply WriteMeta_inv in H6 as [[Hw Hc] Hm].
  unfold GetMeta. rewrite with_rlock_free by done. unfold bind, db_Get.
  by rewrite Hc, Hm, Hrt.
Qed.

Lemma ingest_loop_app (st : state (Filter := Filter)) l1 l2 :
  ingest_loop st (l1 ++ l2) = bind (ingest_loop st l1) (λ st', ingest_loop st' l2).
Proof.
  revert st. induction l1 as [|rec rest IH]; intros st; simpl.
  - by destruct (ingest_loop st l2) as [? ?].
  - unfold bind at 1 3. destruct (ingest_step st rec) as [t1 [st1| |]]; [|done..].
    rewrite IH. unfold bind.
    destruct (ingest_loop st1 rest) as [t2 [st2| |]]; [|done..].
    destruct (ingest_loop st2 l2) as [t3 r3]. by rewrite app_assoc.
Qed.

(** X17. A refresh stops at the first record that carries an error and
    returns that error: no shard is produced. *)
Theorem refresh_first_error (dir : string) (pre post : list Record_)
    (rec : Record_) (msg : string) (meta : RepoMeta) :
  Forall (λ rec, rError rec = None) pre → rError rec = Some msg →
  ∃ t, refresh (Filter := Filter) dir (pre ++ rec :: post) meta
       = (t, Err (ErrOther msg)).
Proof.
  intros Hpre Herr.
  destruct (ingest_loop_total (λ _, True) pre [] _ (ingest_inv_start _ dir)) as (t1 & st1 & Heq);
    [done..|].
  unfold refresh. rewrite ingest_loop_app, Heq. cbn [ingest_loop].
  unfold bind, ingest_step. rewrite Herr. simpl. by eexists.
Qed.

(** X18. A refresh whose records carry no error runs to the end and yields
    an open, unblocked shard: its own writes never meet the lock or a
    closed database, and no record, be it without a name or without
    tags, makes a write panic.  (The database of the model fails only
    when it is closed.) *)
Theorem refresh_completes (dir : string) (recs : list Record_) (meta : RepoMeta) :
  Forall (λ rec, rError rec = None) recs →
  ∃ t s', refresh (Filter := Filter) dir recs meta = (t, Ok s') ∧ good s'.
Proof.
  intros Hall.
  destruct (refresh_total (λ _, True) dir recs meta) as (t & s' & Heq); [done..|].
  exists t, s'. split; [done|].
  by destruct (refresh_spec (λ _, True) dir recs meta t s') as (filters & Hgood & _).
Qed.

End WithLibraries.

End RefreshFacts.

(** ** The filter and the stored tags after a refresh *)
Section RefreshProperties.
Import GoStrings Store Sbloom Pull StoreFacts IngestFacts StoreViews PullViews
  RefreshFacts.
Context {Filter : Type} `{!FilterOps Filter} `{!MetaCodec}.


End RefreshProperties.

(** ** [Store.Replace]: the store it hands back *)
Module ReplaceFacts.
Import GoStrings Store Sbloom Replace StoreFacts.


Section WithLibraries.
Context {Filter : Type} `{!FilterOps Filter} `{!MetaCodec}.






End WithLibraries.

End ReplaceFacts.

(** ** [tags.Generate]: the tags it writes *)
Module TagFacts.
Import GoStrings Tags TagKinds RegexFacts.

Lemma shape kind value : kind ∈ tag_kinds → tag_shape (kind +:+ "=" +:+ value).
Proof. intros Hk. by exists kind, value. Qed.

Ltac kind_in := unfold tag_kinds; repeat first [by left | right].

Lemma lib_tags_shape name tags : lib_tags name = Some tags → Forall tag_shape tags.
Proof.
  unfold lib_tags. destruct (Cut name ".so") as [[libName soversion] ok].
  destruct (ok && soversionIsValid soversion).
  - intros [= <-]. destruct (_ || _); repeat constructor.
    + apply (shape "lib" name). kind_in.
    + apply (shape "lib" (libName +:+ ".so")). kind_in.
    + apply (shape "lib" (TrimPrefix libName "lib")). kind_in.
    + apply (shape "lib" name). kind_in.
  - case_bool_decide; [|done]. intros [= <-]. repeat constructor.
    + apply (shape "lib" name). kind_in.
    + apply (shape "lib" (TrimSuffix name ".a")). kind_in.
Qed.

Lemma bucket_shape filePath name elem tags :
  bucket filePath name elem = Some tags → Forall tag_shape tags.
Proof.
  unfold bucket.
  repeat (case_bool_decide; [try done|]).
  all: try (intros [= <-]; repeat constructor).
  all: try (destruct (ext_in _ _); [|done]; intros [= <-]; repeat constructor).
  all: try by apply lib_tags_shape.
  all: try done.
  - apply (shape "bin" name). kind_in.
  - apply (shape "icon" name). kind_in.
  - apply (shape "man" (manualName name)). kind_in.
  - apply (shape "py" (pythonName filePath)). kind_in.
  - apply (shape "pkgcfg" (TrimSuffix name ".pc")). kind_in.
  - apply (shape "desktop" (TrimSuffix name ".desktop")). kind_in.
  - apply (shape "dbus" (TrimSuffix name ".service")). kind_in.
  - apply (shape "systemd" name). kind_in.
  - destruct (ext_in _ _); [|done].
    destruct (Cut filePath "include/") as [[before hdrName] ok].
    intros [= <-]. repeat constructor.
    apply (shape "hdr" (if ok then hdrName else name)). kind_in.
Qed.

Lemma lib_tags_length name tags :
  lib_tags name = Some tags → (1 <= length tags <= 3)%nat.
Proof.
  unfold lib_tags. destruct (Cut name ".so") as [[libName soversion] ok].
  destruct (ok && soversionIsValid soversion).
  - intros [= <-]. destruct (_ || _); simpl; lia.
  - case_bool_decide; [|done]. intros [= <-]. simpl. lia.
Qed.

Lemma bucket_length filePath name elem tags :
  bucket filePath name elem = Some tags → (1 <= length tags <= 3)%nat.
Proof.
  unfold bucket.
  repeat (case_bool_decide; [try done|]).
  all: try (intros [= <-]; simpl; lia).
  all: try (destruct (ext_in _ _); [|done]; try intros [= <-]; simpl; try lia).
  all: try by apply lib_tags_length.
  all: try done.
  destruct (Cut filePath "include/") as [[before hdrName] ok].
  intros [= <-]. simpl. lia.
Qed.

Lemma walk_Some filePath name elems tags :
  walk filePath name elems = Some tags →
  ∃ elem, elem ∈ elems ∧ bucket filePath name elem = Some tags.
Proof.
  induction elems as [|elem rest IH]; simpl; [done|].
  destruct (bucket filePath name elem) as [tags'|] eqn:Hb.
  - intros [= <-]. exists elem. split; [left|done].
  - intros (elem' & Hin & Hb')%IH. exists elem'. split; [by right|done].
Qed.

Lemma LastIndexByte_Some s c :
  c ∈ list_ascii_of_string s → is_Some (LastIndexByte s c).
Proof.
  induction s as [|b s IH]; simpl; [by intros ?%elem_of_nil|].
  intros [->|Hin]%elem_of_cons.
  - destruct (LastIndexByte s b); [by eexists|].
    unfold byte_eqb. rewrite bool_decide_eq_true_2 by done. by eexists.
  - destruct (IH Hin) as [i ->]. by eexists.
Qed.

Lemma LastIndexByte_elem s c i :
  LastIndexByte s c = Some i → c ∈ list_ascii_of_string s.
Proof.
  revert i. induction s as [|b s IH]; intros i; simpl; [done|].
  destruct (LastIndexByte s c) as [j|] eqn:Hl.
  - intros _. right. by eapply IH.
  - unfold byte_eqb. case_bool_decide as Hb; [|done]. intros _. subst. left.
Qed.

Lemma matches_plus_class p w :
  w ≠ [] → Forall (λ c, p c = true) w → Regex.matches (Regex.Plus (Regex.Class p)) w.
Proof.
  intros Hne Hall. destruct w as [|c w]; [done|]. clear Hne.
  apply Forall_cons in Hall as [Hc Hall].
  change (c :: w) with ([c] ++ w). constructor; [by constructor|].
  induction Hall as [|d w Hd Hall IH]; [constructor|].
  change (d :: w) with ([d] ++ w). constructor; [by constructor|done].
Qed.

Lemma list_ascii_app s1 s2 :
  list_ascii_of_string (s1 +:+ s2) = list_ascii_of_string s1 ++ list_ascii_of_string s2.
Proof. induction s1 as [|c s1 IH]; simpl; [done|]. by rewrite IH. Qed.

(** A tag of a known kind whose value begins with a byte other than the
    newline is accepted by [tagRegex]; with an empty value it is not. *)
Lemma kind_tag_validity kind value :
  kind ∈ tag_kinds →
  (value = EmptyString →
   Regex.MatchString Regex.tagRegex (kind +:+ "=" +:+ value) = false) ∧
  (∀ c rest, value = String c rest → c ≠ "010"%char →
   Regex.MatchString Regex.tagRegex (kind +:+ "=" +:+ value) = true).
Proof.
  intros Hk. split.
  - intros ->. unfold tag_kinds in Hk.
    repeat (apply elem_of_cons in Hk as [->|Hk]; [by vm_compute|]).
    by apply elem_of_nil in Hk.
  - intros c rest -> Hc. apply MatchString_spec.
    exists [], (list_ascii_of_string kind ++ ["="%char] ++ [c]), (list_ascii_of_string rest).
    split.
    { rewrite list_ascii_app. simpl. by rewrite <-!app_assoc. }
    constructor; [|constructor].
    + apply matches_plus_class.
      * unfold tag_kinds in Hk.
        repeat (apply elem_of_cons in Hk as [->|Hk]; [done|]).
        by apply elem_of_nil in Hk.
      * unfold tag_kinds in Hk.
        repeat (apply elem_of_cons in Hk as [->|Hk]; [by repeat constructor|]).
        by apply elem_of_nil in Hk.
    + by constructor.
    + apply (matches_plus_class _ [c]); [done|]. constructor; [|done].
      unfold Regex.dot_byte. apply negb_true_iff, Nat.eqb_neq. intros Hn.
      apply Hc. rewrite <-(ascii_nat_embedding c), Hn. done.
Qed.

(** X21. Every tag that [Generate] returns is [kind=value] with one of the
    eleven kinds.  [Search] accepts the tag when the value begins with
    a byte other than the newline, and rejects it when the value is
    empty. *)
Theorem Generate_tags (filePath : string) (tags : list string) (tag : string) :
  Generate filePath = Some tags → tag ∈ tags →
  ∃ kind value,
    tag = kind +:+ "=" +:+ value ∧ kind ∈ tag_kinds ∧
    (value = EmptyString → Regex.MatchString Regex.tagRegex tag = false) ∧
    (∀ c rest, value = String c rest → c ≠ "010"%char →
       Regex.MatchString Regex.tagRegex tag = true).
Proof.
  unfold Generate. destruct (LastIndexByte filePath "/") as [lastSlash|]; [|done].
  intros Hgen Hin.
  assert (tag_shape tag) as (kind & value & -> & Hk).
  { destruct (walk _ _ _) as [tags'|] eqn:Hwalk.
    - injection Hgen as <-. apply walk_Some in Hwalk as (elem & _ & Hb).
      apply bucket_shape in Hb. by eapply Forall_forall in Hb.
    - injection Hgen as <-. apply list_elem_of_singleton in Hin as ->.
      apply (shape "file" filePath). kind_in. }
  exists kind, value. split; [done|]. split; [done|]. by apply kind_tag_validity.
Qed.

(** X22. [Generate] panics on the paths without a slash and on no other
    path; what it returns holds between one and three tags.  A path
    that an importer roots with a slash is therefore never refused and
    never left without a tag. *)
Theorem Generate_defined (filePath : string) :
  (Generate filePath = None ↔ "/"%char ∉ list_ascii_of_string filePath) ∧
  (∀ tags, Generate filePath = Some tags → (1 <= length tags <= 3)%nat) ∧
  (∃ tags, Generate ("/" +:+ filePath) = Some tags).
Proof.
  assert (∀ p tags, Generate p = Some tags → (1 <= length tags <= 3)%nat) as Hlen.
  { intros p tags. unfold Generate. destruct (LastIndexByte p "/"); [|done].
    destruct (walk _ _ _) as [tags'|] eqn:Hwalk; intros [= <-].
    - apply walk_Some in Hwalk as (elem & _ & Hb). by eapply bucket_length.
    - simpl. lia. }
  assert (∀ p, "/"%char ∈ list_ascii_of_string p → is_Some (Generate p)) as Hsome.
  { intros p [i Hi]%LastIndexByte_Some. unfold Generate. rewrite Hi.
    by destruct (walk _ _ _). }
  split; [|split; [apply Hlen|]].
  - split.
    + intros Hnone Hin. apply Hsome in Hin as [tags Htags]. congruence.
    + intros Hno. unfold Generate.
      destruct (LastIndexByte filePath "/") as [i|] eqn:Hi; [|done].
      destruct Hno. by eapply LastIndexByte_elem.
  - destruct (Hsome ("/" +:+ filePath)) as [tags Htags]; [left|by exists tags].
Qed.

Lemma byte_lt_le a b : byte_lt a b = negb (byte_le b a).
Proof. unfold byte_lt, byte_le. apply Nat.ltb_antisym. Qed.

Lemma isNum_cons c s : isNum (String c s) = is_digit c && isNum s.
Proof.
  simpl. unfold is_digit. rewrite !byte_lt_le.
  by destruct (byte_le "0" c), (byte_le c "9").
Qed.

Lemma forallb_isNum_Split s :
  forallb isNum (Split s ".")
  = forallb (λ c, is_digit c || byte_eqb c ".") (list_ascii_of_string s).
Proof.
  induction s as [|c s IH]; [done|]. cbn [Split list_ascii_of_string forallb].
  rewrite <-IH. unfold byte_eqb. case_bool_decide as Hdot.
  - subst c. done.
  - rewrite orb_false_r. destruct (Split s ".") as [|w ws]; simpl.
    + rewrite !byte_lt_le. unfold is_digit.
      by destruct (byte_le "0" c), (byte_le c "9").
    + rewrite !byte_lt_le. unfold is_digit.
      by destruct (byte_le "0" c), (byte_le c "9").
Qed.

(** X23. [soversionIsValid] accepts the strings made of decimal digits and
    dots, in any arrangement, and no other string. *)
Theorem soversionIsValid_spec (s : string) :
  soversionIsValid s = true ↔ Forall version_byte (list_ascii_of_string s).
Proof.
  unfold soversionIsValid. case_bool_decide as Hs.
  { subst s. split; [constructor|done]. }
  rewrite forallb_isNum_Split, forallb_forall, Forall_forall.
  unfold version_byte, byte_eqb. split.
  - intros Hall c Hc%list_elem_of_In. specialize (Hall c Hc).
    apply orb_true_iff in Hall as [?|Hdot]; [by left|right].
    by apply bool_decide_eq_true in Hdot.
  - intros Hall c Hc%list_elem_of_In. apply orb_true_iff.
    destruct (Hall c Hc) as [?|Hdot]; [by left|right]. by apply bool_decide_eq_true.
Qed.

End TagFacts.

(** ** The combined store over its shards *)
Module CombinedFacts.
Import GoStrings Store Sbloom Iface Combined StoreFacts IngestFacts StoreViews SearchFacts.

Lemma first_panic_None {A} (rs : list (reply A)) :
  Forall (λ r, ∃ out err, r = Return out err) rs → first_panic rs = None.
Proof. induction 1 as [|r rs (out & err & ->) _ IH]; [done|]. exact IH. Qed.

Lemma first_error_None {A} (handed : error → bool) (rs : list (reply A)) :
  Forall (λ r, ∀ out e, r = Return out (Some e) → handed e = false) rs →
  first_error handed rs = None.
Proof.
  induction 1 as [|r rs Hr _ IH]; [done|]. simpl.
  destruct r as [p|out [e|]]; [done| |done].
  by rewrite (Hr out e eq_refl).
Qed.


Lemma elem_of_values {A} (rs : list (reply A)) a :
  a ∈ values rs ↔ Return a None ∈ rs.
Proof.
  unfold values. rewrite list_elem_of_omap. split.
  - intros ([p|out [e|]] & Hin & Heq); try done. by injection Heq as ->.
  - intros Hin. by exists (Return a None).
Qed.

Lemma foldl_last {A} (d : A) (l : list A) :
  foldl (λ _ x, x) d l = default d (last l).
Proof.
  induction l as [|x l IH] using rev_ind; [done|].
  by rewrite foldl_snoc, last_snoc.
Qed.

Lemma values_cons {A} (r : reply A) rs :
  values (r :: rs)
  = match r with Return a None => a :: values rs | _ => values rs end.
Proof. by destruct r as [p|a [e|]]. Qed.

Lemma omap_cons_Some {A B} (f : A → option B) x y l :
  f x = Some y → omap f (x :: l) = y :: omap f l.
Proof. intros Hx. simpl. by rewrite Hx. Qed.

Lemma omap_all_None {A B} (f : A → option B) l :
  (∀ x, x ∈ l → f x = None) → omap f l = [].
Proof.
  induction l as [|x l IH]; [done|]. intros Hall. simpl.
  rewrite (Hall x) by left. apply IH. intros y ?. apply Hall. by right.
Qed.

Lemma values_app {A} (rs1 rs2 : list (reply A)) :
  values (rs1 ++ rs2) = values rs1 ++ values rs2.
Proof. unfold values. apply omap_app. Qed.

Lemma elem_of_concat {A} (x : A) (ls : list (list A)) :
  x ∈ concat ls ↔ ∃ l, x ∈ l ∧ l ∈ ls.
Proof.
  rewrite list_elem_of_In, in_concat. split.
  - intros (l & Hl & Hx). exists l. by rewrite !list_elem_of_In.
  - intros (l & Hx & Hl). exists l. by rewrite <-!list_elem_of_In.
Qed.

Lemma concat_Permutation_proper {A} (l1 l2 : list (list A)) :
  l1 ≡ₚ l2 → concat l1 ≡ₚ concat l2.
Proof.
  induction 1 as [|x l1 l2 _ IH|x y l|l1 l2 l3 _ IH1 _ IH2]; simpl.
  - done.
  - by rewrite IH.
  - rewrite !app_assoc. f_equiv. apply Permutation_app_comm.
  - by rewrite IH1.
Qed.

(** Results with a confidence over the same query that are sorted by
    [SortResults] are ranked. *)
Lemma sorted_ranked (T : list string) (rs : list TagResult) :
  T ≠ [] →
  (∀ r, r ∈ rs → Confidence r = mkConf (length (Overlap r)) (length T)) →
  Sorted result_le rs → Sorted ranked rs.
Proof.
  intros HT Hconf. apply Sorted_impl_elem. intros a b Ha Hb Hab.
  unfold result_le, result_cmp, conf_lt in Hab.
  rewrite (Hconf a Ha), (Hconf b Hb) in Hab. simpl in Hab.
  assert (0 < length T)%nat as Hpos by (destruct T; [done|simpl; lia]).
  destruct (Nat.ltb_spec (length (Overlap a) * length T)
                         (length (Overlap b) * length T)) as [H1|H1]; [done|].
  split; [nia|]. intros Heq. rewrite Heq, Nat.ltb_irrefl in Hab.
  unfold String.le, String.leb.
  by destruct (String.compare (Name (Package_ a)) (Name (Package_ b))).
Qed.

Section WithLibraries.
Context {Filter : Type} `{!FilterOps Filter}.

Lemma GetPkg_of_store (s : Store.Store) name :
  good s →
  ro_GetPkg (of_store (Filter := Filter) s) name
  = match data (db s) !! name with
    | Some v => Return (mkPackage name (Split v US)) None
    | None => Return no_package (Some (StoreErr ErrNotFound))
    end.
Proof.
  intros [Hw Hc]. simpl. unfold lift, Store.GetPkg. rewrite with_rlock_free by done.
  unfold bind, db_Get. rewrite Hc. by destruct (data (db s) !! name).
Qed.

Lemma GetPkg_values (shards : list Store.Store) name :
  Forall good shards →
  values ((λ s, ro_GetPkg s name) <$> (of_store (Filter := Filter) <$> shards))
  = omap (λ s, (λ v, mkPackage name (Split v US)) <$> data (db s) !! name) shards.
Proof.
  induction 1 as [|s shards Hs _ IH]; [done|].
  rewrite !fmap_cons, values_cons, IH.
  rewrite (GetPkg_of_store s name Hs).
  destruct (data (db s) !! name) eqn:Hv; simpl; by rewrite Hv.
Qed.

Lemma GetPkg_quiet (shards : list Store.Store) name :
  Forall good shards →
  first_panic ((λ s, ro_GetPkg s name) <$> (of_store (Filter := Filter) <$> shards)) = None ∧
  first_error (λ e, negb (is_not_found e))
    ((λ s, ro_GetPkg s name) <$> (of_store (Filter := Filter) <$> shards)) = None.
Proof.
  intros Hgood. split.
  - apply first_panic_None. rewrite !Forall_fmap. eapply Forall_impl; [exact Hgood|].
    intros s Hs.
    change (∃ out err, ro_GetPkg (of_store (Filter := Filter) s) name = Return out err).
    rewrite (GetPkg_of_store s name Hs).
    destruct (data (db s) !! name); by eexists _, _.
  - apply first_error_None. rewrite !Forall_fmap. eapply Forall_impl; [exact Hgood|].
    intros s Hs.
    change (∀ out e, ro_GetPkg (of_store (Filter := Filter) s) name = Return out (Some e) →
                     negb (is_not_found e) = false).
    intros out e. rewrite (GetPkg_of_store s name Hs).
    destruct (data (db s) !! name); [done|]. by intros [= <- <-].
Qed.

(** X24. Over open and unblocked shards, in whatever order they finish:
    [GetPkg] returns the package as one of the shards holds it, tags
    of different shards are not put together; when no shard holds the
    name the error is the one of package [combined]. *)
Theorem GetPkg_shards (shards : list Store.Store) (name : string) :
  Forall good shards → name ≠ EmptyString →
  match Combined.GetPkg (of_store (Filter := Filter) <$> shards) name with
  | Return pkg None =>
      ∃ s v, s ∈ shards ∧ data (db s) !! name = Some v ∧
             pkg = mkPackage name (Split v US)
  | Return pkg (Some e) =>
      e = ErrNoSuchPackage name ∧ pkg = no_package ∧
      ∀ s, s ∈ shards → data (db s) !! name = None
  | Crash _ => False
  end.
Proof.
  intros Hgood Hname. unfold Combined.GetPkg.
  destruct (GetPkg_quiet shards name Hgood) as [-> ->].
  rewrite (GetPkg_values shards name Hgood), foldl_last.
  destruct (last _) as [pkg|] eqn:Hlast; simpl.
  - apply last_Some_elem_of, list_elem_of_omap in Hlast as (s & Hs & Hpkg).
    destruct (data (db s) !! name) as [v|] eqn:Hv; [|done].
    injection Hpkg as <-. simpl. rewrite bool_decide_eq_false_2 by done. eauto.
  - split; [done|]. split; [done|]. intros s Hs.
    apply last_None in Hlast.
    destruct (data (db s) !! name) as [v|] eqn:Hv; [|done].
    assert (mkPackage name (Split v US) ∈ @nil Package) as Hbad%elem_of_nil; [|done].
    rewrite <-Hlast. apply list_elem_of_omap. exists s. by rewrite Hv.
Qed.

(** X25. Among the shards that hold the name, the one that finishes last
    decides the answer of [GetPkg]. *)
Theorem GetPkg_last_holder (pre post : list Store.Store) (s : Store.Store)
    (name v : string) :
  Forall good (pre ++ s :: post) → name ≠ EmptyString →
  data (db s) !! name = Some v →
  (∀ s', s' ∈ post → data (db s') !! name = None) →
  Combined.GetPkg (of_store (Filter := Filter) <$> (pre ++ s :: post)) name
  = Return (mkPackage name (Split v US)) None.
Proof.
  intros Hgood Hname Hv Hpost. unfold Combined.GetPkg.
  destruct (GetPkg_quiet _ name Hgood) as [-> ->].
  rewrite (GetPkg_values _ name Hgood), foldl_last.
  rewrite omap_app.
  rewrite (omap_cons_Some _ s (mkPackage name (Split v US))) by (by rewrite Hv).
  rewrite (omap_all_None _ post) by (intros s' Hs'; by rewrite (Hpost s' Hs')).
  rewrite last_snoc. simpl. by rewrite bool_decide_eq_false_2.
Qed.

(** X26. [GetPkgNamesByPrefix] over stores that all answer: the names come
    out in ascending order, at most [n] of them, each from one of the
    stores, and the same whatever the order in which the stores
    finish.  With the limit [0] no name is returned. *)
Theorem GetPkgNamesByPrefix_combined (done : list ReadOnly) (prefix : string) (n : Z) :
  (0 ≤ n)%Z →
  Forall (λ s, ∃ names, ro_GetPkgNamesByPrefix s prefix n = Return names None) done →
  ∃ out,
    Combined.GetPkgNamesByPrefix done prefix n = Return out None ∧
    StronglySorted String.le out ∧ (Z.of_nat (length out) ≤ n)%Z ∧
    (∀ x, x ∈ out → ∃ s names, s ∈ done ∧
        ro_GetPkgNamesByPrefix s prefix n = Return names None ∧ x ∈ names) ∧
    (∀ done', done' ≡ₚ done →
        Combined.GetPkgNamesByPrefix done' prefix n = Return out None).
Proof.
  intros Hn Hall.
  assert (∀ l, Forall (λ s, ∃ names, ro_GetPkgNamesByPrefix s prefix n = Return names None) l →
    first_panic ((λ s, ro_GetPkgNamesByPrefix s prefix n) <$> l) = None ∧
    first_error (λ _, true) ((λ s, ro_GetPkgNamesByPrefix s prefix n) <$> l) = None)
    as Hquiet.
  { intros l Hl. split.
    - apply first_panic_None. rewrite Forall_fmap. eapply Forall_impl; [exact Hl|].
      intros s [names Hs]. by eexists _, _.
    - apply first_error_None. rewrite Forall_fmap. eapply Forall_impl; [exact Hl|].
      intros s [names Hs] out e. unfold compose. by rewrite Hs. }
  set (all := Sort (concat (values ((λ s, ro_GetPkgNamesByPrefix s prefix n) <$> done)))).
  assert (StronglySorted String.le all) as Hsorted
    by apply (StronglySorted_merge_sort String.le).
  set (out := if (n <? Z.of_nat (length all))%Z then take (Z.to_nat n) all else all).
  assert (Combined.GetPkgNamesByPrefix done prefix n = Return out None) as Heq.
  { unfold Combined.GetPkgNamesByPrefix. destruct (Hquiet done Hall) as [-> ->].
    fold all. unfold out. destruct (n <? Z.of_nat (length all))%Z; [|done].
    by destruct (Z.ltb_spec n 0); [lia|]. }
  assert (out `sublist_of` all) as Hsub.
  { unfold out. destruct (n <? Z.of_nat (length all))%Z; [apply sublist_take|done]. }
  exists out. split; [done|]. split; [|split; [|split]].
  - unfold out. destruct (n <? Z.of_nat (length all))%Z; [|done].
    rewrite <-(take_drop (Z.to_nat n) all) in Hsorted.
    by apply StronglySorted_app_1_l in Hsorted.
  - unfold out. destruct (Z.ltb_spec n (Z.of_nat (length all))); [|lia].
    rewrite length_take. lia.
  - intros x Hx.
    assert (x ∈ all) as Hx' by (eapply elem_of_sublist; [exact Hx|exact Hsub]).
    unfold all in Hx'. apply (proj1 (Sort_elem _ _)) in Hx'.
    apply (proj1 (elem_of_concat _ _)) in Hx' as (names & Hxn & Hnames).
    apply (proj1 (elem_of_values _ _)) in Hnames.
    apply (proj1 (list_elem_of_fmap _ _ _)) in Hnames as (s & Hs & Hin).
    by exists s, names.
  - intros done' Hperm.
    assert (Forall (λ s, ∃ names, ro_GetPkgNamesByPrefix s prefix n = Return names None)
              done') as Hall' by (by rewrite Hperm).
    unfold Combined.GetPkgNamesByPrefix. destruct (Hquiet done' Hall') as [-> ->].
    assert (Sort (concat (values ((λ s, ro_GetPkgNamesByPrefix s prefix n) <$> done')))
            = all) as ->.
    { apply (StronglySorted_unique String.le);
        [apply (StronglySorted_merge_sort String.le)|done|].
      unfold all, Sort. rewrite !merge_sort_Permutation.
      apply concat_Permutation_proper. unfold values. by rewrite Hperm. }
    fold out. unfold out. destruct (n <? Z.of_nat (length all))%Z; [|done].
    by destruct (Z.ltb_spec n 0); [lia|].
Qed.

Lemma Search_of_store (s : Store.Store) T t rs :
  Store.Search (Filter := Filter) s T = (t, Ok rs) →
  ro_Search (of_store (Filter := Filter) s) T = Return rs None.
Proof. intros Hs. simpl. unfold lift. by rewrite Hs. Qed.

Lemma values_Search (shards : list Store.Store) (T : list string)
    (rss : list (list TagResult)) :
  Forall2 (λ s rs, ∃ t, Store.Search (Filter := Filter) s T = (t, Ok rs)) shards rss →
  values ((λ s, ro_Search s T) <$> (of_store (Filter := Filter) <$> shards)) = rss.
Proof.
  induction 1 as [|s rs shards rss (t & Hs) _ IH]; [done|].
  rewrite !fmap_cons, values_cons, (Search_of_store s T t rs Hs). by rewrite IH.
Qed.

(** X27. [Search] over shards whose searches succeed: the results of all
    shards together, each as often as the shards give it, ranked as
    those of one shard are. *)
Theorem Search_shards (shards : list Store.Store) (T : list string) :
  Forall (λ s, ∃ t rs, Store.Search (Filter := Filter) s T = (t, Ok rs)) shards →
  ∃ out,
    Combined.Search (of_store (Filter := Filter) <$> shards) T = Return out None ∧
    Sorted ranked out ∧
    (∀ r, r ∈ out ↔
       ∃ s t rs, s ∈ shards ∧ Store.Search (Filter := Filter) s T = (t, Ok rs) ∧ r ∈ rs) ∧
    (∀ rss,
       Forall2 (λ s rs, ∃ t, Store.Search (Filter := Filter) s T = (t, Ok rs))
         shards rss →
       out ≡ₚ concat rss).
Proof.
  intros Hall. unfold Combined.Search.
  rewrite first_panic_None, first_error_None.
  2:{ rewrite !Forall_fmap. eapply Forall_impl; [exact Hall|].
      intros s (t & rs & Hs) out e. unfold compose.
      by rewrite (Search_of_store s T t rs Hs). }
  2:{ rewrite !Forall_fmap. eapply Forall_impl; [exact Hall|].
      intros s (t & rs & Hs). unfold compose.
      rewrite (Search_of_store s T t rs Hs). by eexists _, _. }
  eexists. split; [done|].
  assert (∀ r, r ∈ SortResults (concat (values ((λ s, ro_Search s T) <$>
                  (of_store (Filter := Filter) <$> shards)))) ↔
            ∃ s t rs, s ∈ shards ∧ Store.Search (Filter := Filter) s T = (t, Ok rs) ∧ r ∈ rs)
    as Hmem.
  { intros r. rewrite SortResults_elem, elem_of_concat. split.
    - intros (rs & Hr & Hrs).
      apply (proj1 (elem_of_values _ _)) in Hrs.
      apply (proj1 (list_elem_of_fmap _ _ _)) in Hrs as (ro & Hro & Hin).
      apply (proj1 (list_elem_of_fmap _ _ _)) in Hin as (s & -> & Hs).
      eapply Forall_forall in Hall as (t & rs' & Hsearch); [|exact Hs].
      rewrite (Search_of_store s T t rs' Hsearch) in Hro. injection Hro as ->.
      by exists s, t, rs'.
    - intros (s & t & rs & Hs & Hsearch & Hr). exists rs. split; [done|].
      apply elem_of_values, list_elem_of_fmap. exists (of_store s).
      split; [by rewrite (Search_of_store s T t rs Hsearch)|].
      apply list_elem_of_fmap. by exists s. }
  split; [|split; [exact Hmem|]].
  2:{ intros rss Hrss. rewrite (values_Search shards T rss Hrss).
      apply SortResults_Permutation. }
  eapply Sorted_impl_elem; [|apply SortResults_Sorted].
  intros a b Ha Hb Hab.
  apply Hmem in Ha as (sa & ta & rsa & _ & Hsa & Ha).
  apply Hmem in Hb as (sb & tb & rsb & _ & Hsb & Hb).
  destruct (Search_ok _ _ _ _ _ Hsa Ha) as (Hne & opta & kva & _ & _ & Hea).
  destruct (Search_ok _ _ _ _ _ Hsb Hb) as (_ & optb & kvb & _ & _ & Heb).
  apply scan_entry_Some in Hea as (Hca & _). apply scan_entry_Some in Heb as (Hcb & _).
  unfold result_le, result_cmp, conf_lt in Hab. rewrite Hca, Hcb in Hab. simpl in Hab.
  assert (0 < length T)%nat as HT by (destruct T; [done|simpl; lia]).
  destruct (Nat.ltb_spec (length (Overlap a) * length T)
                         (length (Overlap b) * length T)) as [H1|H1]; [done|].
  split; [nia|]. intros Heq. rewrite Heq, Nat.ltb_irrefl in Hab.
  unfold String.le, String.leb.
  by destruct (String.compare (Name (Package_ a)) (Name (Package_ b))).
Qed.




Lemma lift_blocked {A} (zero : A) (m : M A) :
  m = ([], Err ErrBlocked) → lift zero m = Return zero (Some (StoreErr ErrBlocked)).
Proof. by intros ->. Qed.



End WithLibraries.

End CombinedFacts.

(** ** The cache in front of a store *)
Module CachedFacts.
Import GoStrings Store Iface Cached.

Lemma Search_exp (cs : Cached.Store) (now later : Z) (tags : list string) :
  exp (Cached.Search cs now later tags).1 = exp cs.
Proof.
  unfold Cached.Search. destruct (cache_Get _ _ _); [done|].
  destruct (ro_Search _ _) as [p|res [e|]]; [done..|]. by case_bool_decide.
Qed.

Lemma step_exp (cs : Cached.Store) (o : op) : exp (step cs o) = exp cs.
Proof. destruct o as [t|other t t' tags]; [done|]. simpl. by rewrite Search_exp. Qed.

Lemma run_exp (cs : Cached.Store) (ops : list op) : exp (run cs ops) = exp cs.
Proof.
  revert cs. induction ops as [|o ops IH]; intros cs; [done|].
  unfold run in *. simpl. by rewrite IH, step_exp.
Qed.

Lemma DeleteExpired_lookup (items : gmap string Item) (now : Z) (k : string) :
  cache_DeleteExpired items now !! k
  = match items !! k with
    | Some it => if expired now it then None else Some it
    | None => None
    end.
Proof.
  unfold cache_DeleteExpired. destruct (items !! k) as [it|] eqn:Hk.
  - destruct (expired now it) eqn:He.
    + apply map_lookup_filter_None. right. intros it' Hit'. simpl.
      rewrite Hk in Hit'. injection Hit' as <-. by rewrite He.
    + apply map_lookup_filter_Some. done.
  - apply map_lookup_filter_None. by left.
Qed.





Lemma Search_cache_ok (cs : Cached.Store) (now later : Z) (tags : list string) :
  cache_ok cs → cache_ok (Cached.Search cs now later tags).1.
Proof.
  intros Hok. unfold Cached.Search.
  destruct (cache_Get (cache cs) now (cacheKey tags)) as [hit|]; [done|].
  destruct (ro_Search (inner cs) tags) as [p|res [e|]] eqn:Hs; [done..|].
  case_bool_decide as Hres; [|done].
  intros key it. simpl. unfold cache_Set.
  destruct (decide (key = cacheKey tags)) as [->|Hne].
  - rewrite lookup_insert_eq. intros [= <-]. split; [done|]. eauto.
  - rewrite lookup_insert_ne by done. apply Hok.
Qed.


(** X30. The cache only ever holds non-empty answers of the wrapped store:
    [Search] keeps that true, and so does the janitor, and what
    [Search] returns is an answer of the wrapped store to the query or,
    on a hit, to a query with the same key.  Errors and empty answers
    are passed on and not kept. *)
Theorem Search_keeps_cache_ok (cs cs' : Cached.Store) (now later : Z)
    (tags : list string) (r : reply (list TagResult)) :
  cache_ok cs → Cached.Search cs now later tags = (cs', r) →
  cache_ok cs' ∧ inner cs' = inner cs ∧
  match r with
  | Return rs None =>
      (∃ tags', cacheKey tags' = cacheKey tags ∧
                ro_Search (inner cs) tags' = Return rs None) ∧
      (rs = [] → cache cs' = cache cs)
  | Return rs (Some e) =>
      rs = [] ∧ cache cs' = cache cs ∧
      ∃ out, ro_Search (inner cs) tags = Return out (Some e)
  | Crash p => cache cs' = cache cs ∧ ro_Search (inner cs) tags = Crash p
  end ∧
  exp cs' = exp cs ∧ ∀ t, cache_ok (sweep cs' t).
Proof.
  intros Hok Hs.
  assert (∀ c, cache_ok c → ∀ t, cache_ok (sweep c t)) as Hsweep.
  { intros c Hc t key it. simpl. rewrite DeleteExpired_lookup.
    destruct (cache c !! key) as [it'|] eqn:Hk; [|done].
    destruct (expired t it'); [done|]. intros [= <-]. by apply Hc. }
  assert (exp cs' = exp cs) as Hexp.
  { pose proof (Search_exp cs now later tags) as He. by rewrite Hs in He. }
  assert (cache_ok cs') as Hok'.
  { pose proof (Search_cache_ok cs now later tags Hok) as Hc. by rewrite Hs in Hc. }
  revert Hs Hok'. unfold Cached.Search.
  destruct (cache_Get (cache cs) now (cacheKey tags)) as [hit|] eqn:Hhit;
    [intros Hs ?; revert Hs|].
  - intros [= <- <-]. split; [done|]. split; [done|].
    split; [|split; [done|by apply Hsweep]].
    unfold cache_Get in Hhit.
    destruct (cache cs !! cacheKey tags) as [it|] eqn:Hk; [|done].
    destruct (expired now it); [done|]. injection Hhit as <-.
    destruct (Hok _ _ Hk) as [Hne (tags' & Hk' & Hs)]. split; [eauto|done].
  - destruct (ro_Search (inner cs) tags) as [p|res [e|]] eqn:Hs.
    + intros [= <- <-] _. split; [done|]. split; [done|].
      split; [done|]. split; [done|by apply Hsweep].
    + intros [= <- <-] _. split; [done|]. split; [done|].
      split; [eauto|]. split; [done|by apply Hsweep].
    + intros Hcs' Hok'. split; [done|].
      revert Hcs'. case_bool_decide as Hres; intros [= <- <-].
      * split; [done|]. split; [split; [eauto|done]|]. split; [done|].
        intros t. by apply Hsweep.
      * split; [done|]. split; [split; [eauto|done]|]. split; [done|].
        by apply Hsweep.
Qed.

End CachedFacts.

(** ** The properties above on the shards of the scenario *)

Lemma scenario_good : Store.good Scenario.shard ∧ Store.good Scenario.shadow.
Proof. repeat split. Defined.

Lemma scenario_built :
  Pull.refresh (Filter := list bool) "/data/r/db" Scenario.batch (Store.mkMeta "etag" "")
  = (Scenario.built.1, Store.Ok Scenario.shard).
Proof. vm_compute. reflexivity. Defined.

Lemma scenario_sep_free rec T :
  rec ∈ Scenario.batch → T ∈ Store.rTags rec → Store.sep_free T = true.
Proof.
  unfold Scenario.batch. intros Hrec HT.
  repeat (apply elem_of_cons in Hrec as [->|Hrec]);
    [..|by apply elem_of_nil in Hrec]; simpl in HT;
    repeat (apply elem_of_cons in HT as [->|HT]);
    try reflexivity; by apply elem_of_nil in HT.
Defined.



Lemma scenario_search :
  Store.Search (Filter := list bool) Scenario.shard Scenario.query
  = ((Store.Search (Filter := list bool) Scenario.shard Scenario.query).1,
     Store.Ok [Scenario.hit_A; Scenario.hit_B; Scenario.hit_C]).
Proof. vm_compute. reflexivity. Defined.

Lemma scenario_query_valid tag :
  tag ∈ Scenario.query → Regex.MatchString Regex.tagRegex tag = true.
Proof.
  unfold Scenario.query. intros Htag.
  repeat (apply elem_of_cons in Htag as [->|Htag]);
    [vm_compute; reflexivity..|by apply elem_of_nil in Htag].
Defined.

Lemma GetPkgNamesByPrefix_names_witness :
  (∀ name, name ∈ ["A"] →
     is_Some (Store.data (Store.db Scenario.shard) !! name) ∧
     GoStrings.HasPrefix name "A" = true) ∧
  StronglySorted String.le ["A"] ∧ NoDup ["A"].
Proof.
  apply (PrefixFacts.GetPkgNamesByPrefix_names Scenario.shard "A" 0
           (Store.GetPkgNamesByPrefix Scenario.shard "A" 0).1 ["A"]).
  vm_compute. reflexivity.
Defined.

Lemma GetPkgNamesByPrefix_limit_zero_witness :
  ∃ t names,
    Store.GetPkgNamesByPrefix Scenario.shard "A" 0 = (t, Store.Ok names) ∧
    ∀ name, name ∈ names ↔
      is_Some (Store.data (Store.db Scenario.shard) !! name) ∧
      GoStrings.HasPrefix name "A" = true.
Proof.
  apply (PrefixFacts.GetPkgNamesByPrefix_limit_zero Scenario.shard "A" "" "A"%char).
  - apply scenario_good.
  - reflexivity.
  - reflexivity.
Defined.

Lemma GetPkgNamesByPrefix_last_byte_wraps_witness :
  ∃ t, Store.GetPkgNamesByPrefix Scenario.shard
         (String "A"%char (String "255"%char EmptyString)) 10
       = (t, Store.Ok []).
Proof.
  apply (PrefixFacts.GetPkgNamesByPrefix_last_byte_wraps Scenario.shard
           (String "A"%char (String "255"%char EmptyString)) "A" "255"%char 10).
  - apply scenario_good.
  - reflexivity.
  - reflexivity.
  - lia.
Defined.

Lemma Search_ranked_witness :
  Sorted StoreViews.ranked [Scenario.hit_A; Scenario.hit_B; Scenario.hit_C].
Proof.
  apply (SearchFacts.Search_ranked (Filter := list bool) Scenario.shard Scenario.query
           (Store.Search (Filter := list bool) Scenario.shard Scenario.query).1).
  exact scenario_search.
Defined.

Lemma Search_returns_stored_packages_witness :
  ∃ v, Store.data (Store.db Scenario.shard) !! Store.Name (Store.Package_ Scenario.hit_B)
       = Some v ∧
       Store.Tags (Store.Package_ Scenario.hit_B) = GoStrings.Split v Store.US ∧
       Store.Name (Store.Package_ Scenario.hit_B) ≠ EmptyString ∧
       Store.first_byte (Store.Name (Store.Package_ Scenario.hit_B)) ∈ Store.startChars ∧
       Store.Overlap Scenario.hit_B ≠ [].
Proof.
  apply (SearchFacts.Search_returns_stored_packages (Filter := list bool)
           Scenario.shard Scenario.query
           (Store.Search (Filter := list bool) Scenario.shard Scenario.query).1
           [Scenario.hit_A; Scenario.hit_B; Scenario.hit_C]).
  - exact scenario_search.
  - right. left.
Defined.

Lemma scenario_filter_B :
  Store.GetFilter (Filter := list bool) Scenario.shard "B"%char
  = ([Store.Read (Store.filterKey "B"%char)],
     Store.Ok (match (Store.GetFilter (Filter := list bool) Scenario.shard "B"%char).2 with
               | Store.Ok f => f
               | _ => []
               end)).
Proof. vm_compute. reflexivity. Defined.

Lemma Search_finds_witness :
  ∃ r, r ∈ [Scenario.hit_A; Scenario.hit_B; Scenario.hit_C] ∧
       Store.Package_ r = Store.mkPackage "B" (GoStrings.Split "lib=libX.so.1" Store.US) ∧
       "lib=libX.so.1" ∈ Store.Overlap r.
Proof.
  apply (SearchFacts.Search_finds (Filter := list bool) Scenario.shard Scenario.query
           (Store.Search (Filter := list bool) Scenario.shard Scenario.query).1
           [Scenario.hit_A; Scenario.hit_B; Scenario.hit_C]
           "B" "lib=libX.so.1" "lib=libX.so.1"
           (match (Store.GetFilter (Filter := list bool) Scenario.shard "B"%char).2 with
            | Store.Ok f => f
            | _ => []
            end)
           [Store.Read (Store.filterKey "B"%char)]).
  - exact scenario_search.
  - reflexivity.
  - vm_compute. reflexivity.
  - discriminate.
  - vm_compute. do 11 right. left.
  - right. left.
  - left.
  - exact scenario_filter_B.
  - vm_compute. reflexivity.
Defined.

Lemma Search_without_filters_witness :
  ∃ t, Store.Search (Filter := list bool) Scenario.shadow ["bin=bar"] = (t, Store.Ok []) ∧
       Forall Store.filter_read t.
Proof.
  apply (SearchFacts.Search_without_filters (Filter := list bool)
           Scenario.shadow ["bin=bar"]).
  - apply scenario_good.
  - intros c _. apply lookup_singleton_ne. discriminate.
  - intros tag Htag. apply list_elem_of_singleton in Htag as ->.
    vm_compute. reflexivity.
Defined.

Lemma Search_completes_witness :
  ∃ t rs, Store.Search (Filter := list bool) Scenario.shard Scenario.query
          = (t, Store.Ok rs).
Proof.
  apply (SearchFacts.Search_completes (Filter := list bool) Scenario.shard Scenario.query).
  - apply scenario_good.
  - apply StoreFacts.filters_decode_spec. vm_compute. reflexivity.
  - exact scenario_query_valid.
Defined.



Lemma WriteBatch_keys_witness :
  ∃ t s' filters',
    Store.WriteBatch (Filter := list bool) Scenario.fresh Scenario.batch ∅
    = (t, Store.Ok (s', filters')) ∧
    (∀ k, is_Some (Store.data (Store.db s') !! k) ↔
          is_Some (Store.data (Store.db Scenario.fresh) !! k) ∨
          ∃ item, item ∈ Scenario.batch ∧ Store.rName item = k ∧
                  k ≠ EmptyString ∧ Store.rTags item ≠ []) ∧
    (∀ k, (∀ item, item ∈ Scenario.batch → Store.rName item ≠ k) →
          Store.data (Store.db s') !! k = Store.data (Store.db Scenario.fresh) !! k).
Proof.
  apply (BatchFacts.WriteBatch_keys (Filter := list bool) Scenario.fresh Scenario.batch ∅).
  split; reflexivity.
Defined.

Lemma WriteBatch_merges_witness :
  ∃ t s' filters' tags,
    Store.WriteBatch (Filter := list bool) Scenario.shard
      [Store.mkRecord "A" ["bin=new"] None] ∅
    = (t, Store.Ok (s', filters')) ∧
    Store.GetPkg s' "A" = ([Store.Read "A"], Store.Ok (Store.mkPackage "A" tags)) ∧
    (∀ T, T ∈ tags ↔
          T ∈ StoreViews.stored_tags (Store.data (Store.db Scenario.shard)) "A" ∨
          T ∈ ["bin=new"]) ∧
    StronglySorted String.le tags ∧ NoDup tags.
Proof.
  apply (BatchFacts.WriteBatch_merges (Filter := list bool) Scenario.shard
           [Store.mkRecord "A" ["bin=new"] None] ∅
           (Store.mkRecord "A" ["bin=new"] None)).
  - apply scenario_good.
  - apply NoDup_singleton.
  - left.
  - discriminate.
  - discriminate.
  - intros T HT. apply list_elem_of_singleton in HT as ->. reflexivity.
Defined.

Lemma refresh_GetPkg_exact_witness :
  ∃ tags,
    Store.GetPkg Scenario.shard "A"
    = ([Store.Read "A"], Store.Ok (Store.mkPackage "A" tags)) ∧
    (∀ T, T ∈ tags ↔
       ∃ rec, rec ∈ Scenario.batch ∧ Store.rName rec = "A" ∧ T ∈ Store.rTags rec) ∧
    StronglySorted String.le tags ∧ NoDup tags.
Proof.
  apply (RefreshFacts.refresh_GetPkg_exact (Filter := list bool)
           "/data/r/db" Scenario.batch (Store.mkMeta "etag" "")
           Scenario.built.1 Scenario.shard "A"
           (Store.mkRecord "A" ["bin=foo"; "lib=libX.so.1"] None)).
  - exact scenario_built.
  - exact scenario_sep_free.
  - discriminate.
  - discriminate.
  - left.
  - reflexivity.
  - discriminate.
Defined.

Lemma refresh_GetPkg_unknown_witness :
  Store.GetPkg Scenario.shard "Z" = ([Store.Read "Z"], Store.Err Store.ErrNotFound).
Proof.
  apply (RefreshFacts.refresh_GetPkg_unknown (Filter := list bool)
           "/data/r/db" Scenario.batch (Store.mkMeta "etag" "")
           Scenario.built.1 Scenario.shard "Z").
  - exact scenario_built.
  - discriminate.
  - unfold Scenario.batch. intros rec Hrec.
    repeat (apply elem_of_cons in Hrec as [->|Hrec]);
      [discriminate..|by apply elem_of_nil in Hrec].
Defined.

Lemma refresh_then_Search_finds_witness :
  ∃ t' rs r,
    Store.Search (Filter := list bool) Scenario.shard Scenario.query = (t', Store.Ok rs) ∧
    r ∈ rs ∧ Store.Name (Store.Package_ r) = "B" ∧
    "lib=libX.so.1" ∈ Store.Tags (Store.Package_ r) ∧
    "lib=libX.so.1" ∈ Store.Overlap r.
Proof.
  apply (RefreshFacts.refresh_then_Search_finds (Filter := list bool)
           "/data/r/db" Scenario.batch (Store.mkMeta "etag" "")
           Scenario.built.1 Scenario.shard Scenario.query
           (Store.mkRecord "B" ["lib=libX.so.1"] None) "lib=libX.so.1").
  - exact scenario_built.
  - exact scenario_sep_free.
  - unfold Scenario.batch. intros rec Hrec.
    repeat (apply elem_of_cons in Hrec as [->|Hrec]);
      [discriminate..|by apply elem_of_nil in Hrec].
  - exact scenario_query_valid.
  - right. left.
  - discriminate.
  - vm_compute. do 11 right. left.
  - left.
  - right. left.
Defined.

Lemma WriteFilters_then_GetFilter_witness :
  ∃ s',
    Store.WriteFilters Scenario.fresh {["A"%char := [true; false]]} = ([], Store.Ok s') ∧
    (∀ c f, ({["A"%char := [true; false]]} : gmap ascii (list bool)) !! c = Some f →
            Store.GetFilter s' c = ([Store.Read (Store.filterKey c)], Store.Ok f)) ∧
    (∀ c, ({["A"%char := [true; false]]} : gmap ascii (list bool)) !! c = None →
          Store.GetFilter (Filter := list bool) s' c = Store.GetFilter Scenario.fresh c) ∧
    (∀ name,
       (∀ c, is_Some (({["A"%char := [true; false]]} : gmap ascii (list bool)) !! c) →
             name ≠ Store.filterKey c) →
       Store.GetPkg s' name = Store.GetPkg Scenario.fresh name) ∧
    Store.GetMeta s' = Store.GetMeta Scenario.fresh.
Proof.
  apply (RefreshFacts.WriteFilters_then_GetFilter (Filter := list bool)
           Scenario.fresh {["A"%char := [true; false]]}).
  split; reflexivity.
Defined.

Lemma WriteMeta_then_GetMeta_witness :
  Store.GetMeta (Store.set_db Scenario.fresh
     (Store.mkDB {[Store.metaKey := Store.Marshal (Store.mkMeta "etag" "")]} false))
  = ([Store.Read Store.metaKey], Store.Ok (Store.mkMeta "etag" "")) ∧
  (∀ name, name ≠ Store.metaKey →
     Store.GetPkg (Store.set_db Scenario.fresh
       (Store.mkDB {[Store.metaKey := Store.Marshal (Store.mkMeta "etag" "")]} false)) name
     = Store.GetPkg Scenario.fresh name) ∧
  (∀ c, Store.GetFilter (Filter := list bool) (Store.set_db Scenario.fresh
       (Store.mkDB {[Store.metaKey := Store.Marshal (Store.mkMeta "etag" "")]} false)) c
     = Store.GetFilter Scenario.fresh c).
Proof.
  apply (RefreshFacts.WriteMeta_then_GetMeta (Filter := list bool) Scenario.fresh
           (Store.set_db Scenario.fresh
              (Store.mkDB {[Store.metaKey := Store.Marshal (Store.mkMeta "etag" "")]} false))
           (Store.mkMeta "etag" "") []).
  - vm_compute. reflexivity.
  - vm_compute. reflexivity.
Defined.

Lemma refresh_first_error_witness :
  ∃ t, Pull.refresh (Filter := list bool) "/data/r/db"
         ([Store.mkRecord "A" ["bin=foo"] None] ++
          Store.mkRecord "B" [] (Some "truncated index") ::
          [Store.mkRecord "C" ["bin=foo"] None])
         (Store.mkMeta "etag" "")
       = (t, Store.Err (Store.ErrOther "truncated index")).
Proof.
  apply (RefreshFacts.refresh_first_error (Filter := list bool) "/data/r/db"
           [Store.mkRecord "A" ["bin=foo"] None]
           [Store.mkRecord "C" ["bin=foo"] None]
           (Store.mkRecord "B" [] (Some "truncated index")) "truncated index"
           (Store.mkMeta "etag" "")).
  - repeat constructor.
  - reflexivity.
Defined.

Lemma refresh_completes_witness :
  ∃ t s', Pull.refresh (Filter := list bool) "/data/r/db" Scenario.batch
            (Store.mkMeta "etag" "") = (t, Store.Ok s') ∧ Store.good s'.
Proof.
  apply (RefreshFacts.refresh_completes (Filter := list bool) "/data/r/db"
           Scenario.batch (Store.mkMeta "etag" "")).
  repeat constructor.
Defined.



Lemma Generate_tags_witness :
  ∃ kind value,
    "bin=firefox" = kind +:+ "=" +:+ value ∧ kind ∈ TagKinds.tag_kinds ∧
    (value = EmptyString → Regex.MatchString Regex.tagRegex "bin=firefox" = false) ∧
    (∀ c rest, value = String c rest → c ≠ "010"%char →
       Regex.MatchString Regex.tagRegex "bin=firefox" = true).
Proof.
  apply (TagFacts.Generate_tags "/usr/bin/firefox" ["bin=firefox"] "bin=firefox").
  - vm_compute. reflexivity.
  - left.
Defined.

Lemma Generate_defined_witness :
  Tags.Generate "firefox" = None ∧
  (1 <= length ["lib=libfoo.so"; "lib=libfoo.so"; "lib=foo"] <= 3)%nat.
Proof.
  destruct (TagFacts.Generate_defined "firefox") as (Hnone & _ & _).
  destruct (TagFacts.Generate_defined "/usr/lib/libfoo.so") as (_ & Hlen & _).
  split.
  - apply Hnone. vm_compute. intros Hin.
    repeat (apply elem_of_cons in Hin as [Hin|Hin]; [discriminate|]).
    by apply elem_of_nil in Hin.
  - apply Hlen. vm_compute. reflexivity.
Defined.

Lemma soversionIsValid_spec_witness : Tags.soversionIsValid "1..2" = true.
Proof.
  apply (proj2 (TagFacts.soversionIsValid_spec "1..2")).
  repeat constructor; by right.
Defined.

Lemma GetPkg_shards_witness :
  match Combined.GetPkg
          (Iface.of_store (Filter := list bool) <$> [Scenario.shard; Scenario.shadow]) "D"
  with
  | Iface.Return pkg None =>
      ∃ s v, s ∈ [Scenario.shard; Scenario.shadow] ∧
             Store.data (Store.db s) !! "D" = Some v ∧
             pkg = Store.mkPackage "D" (GoStrings.Split v Store.US)
  | Iface.Return pkg (Some e) =>
      e = Iface.ErrNoSuchPackage "D" ∧ pkg = Iface.no_package ∧
      ∀ s, s ∈ [Scenario.shard; Scenario.shadow] →
           Store.data (Store.db s) !! "D" = None
  | Iface.Crash _ => False
  end.
Proof.
  apply (CombinedFacts.GetPkg_shards (Filter := list bool)
           [Scenario.shard; Scenario.shadow] "D").
  - repeat constructor.
  - discriminate.
Defined.

Lemma GetPkg_last_holder_witness :
  Combined.GetPkg
    (Iface.of_store (Filter := list bool) <$>
       ([Scenario.shard] ++ Scenario.mirror :: [Scenario.shadow])) "A"
  = Iface.Return (Store.mkPackage "A" (GoStrings.Split "bin=qux" Store.US)) None ∧
  Combined.GetPkg
    (Iface.of_store (Filter := list bool) <$>
       ([Scenario.mirror] ++ Scenario.shard :: [Scenario.shadow])) "A"
  = Iface.Return
      (Store.mkPackage "A"
         (GoStrings.Split ("bin=foo" +:+ String Store.US "lib=libX.so.1") Store.US))
      None.
Proof.
  split.
  - apply (CombinedFacts.GetPkg_last_holder (Filter := list bool)
             [Scenario.shard] [Scenario.shadow] Scenario.mirror "A" "bin=qux").
    + repeat constructor.
    + discriminate.
    + vm_compute. reflexivity.
    + intros s' Hs'. apply list_elem_of_singleton in Hs' as ->.
      vm_compute. reflexivity.
  - apply (CombinedFacts.GetPkg_last_holder (Filter := list bool)
             [Scenario.mirror] [Scenario.shadow] Scenario.shard "A"
             ("bin=foo" +:+ String Store.US "lib=libX.so.1")).
    + repeat constructor.
    + discriminate.
    + vm_compute. reflexivity.
    + intros s' Hs'. apply list_elem_of_singleton in Hs' as ->.
      vm_compute. reflexivity.
Defined.

Lemma GetPkgNamesByPrefix_combined_witness :
  ∃ out,
    Combined.GetPkgNamesByPrefix
      (Iface.of_store (Filter := list bool) <$> [Scenario.shard; Scenario.shadow]) "A" 10
    = Iface.Return out None ∧
    StronglySorted String.le out ∧ (Z.of_nat (length out) ≤ 10)%Z ∧
    (∀ x, x ∈ out → ∃ s names,
        s ∈ Iface.of_store (Filter := list bool) <$> [Scenario.shard; Scenario.shadow] ∧
        Iface.ro_GetPkgNamesByPrefix s "A" 10 = Iface.Return names None ∧ x ∈ names) ∧
    (∀ done',
        done' ≡ₚ Iface.of_store (Filter := list bool) <$> [Scenario.shard; Scenario.shadow] →
        Combined.GetPkgNamesByPrefix done' "A" 10 = Iface.Return out None).
Proof.
  apply (CombinedFacts.GetPkgNamesByPrefix_combined
           (Iface.of_store (Filter := list bool) <$> [Scenario.shard; Scenario.shadow])
           "A" 10).
  - lia.
  - repeat constructor; eexists; vm_compute; reflexivity.
Defined.

Lemma scenario_shadow_search :
  Store.Search (Filter := list bool) Scenario.shadow Scenario.query
  = ((Store.Search (Filter := list bool) Scenario.shadow Scenario.query).1, Store.Ok []).
Proof. vm_compute. reflexivity. Defined.

Lemma Search_shards_witness :
  ∃ out,
    Combined.Search
      (Iface.of_store (Filter := list bool) <$>
         [Scenario.shard; Scenario.shadow; Scenario.shard])
      Scenario.query
    = Iface.Return out None ∧
    Sorted StoreViews.ranked out ∧
    (∀ r, r ∈ out ↔
       ∃ s t rs, s ∈ [Scenario.shard; Scenario.shadow; Scenario.shard] ∧
         Store.Search (Filter := list bool) s Scenario.query = (t, Store.Ok rs) ∧ r ∈ rs) ∧
    (∀ rss,
       Forall2 (λ s rs, ∃ t, Store.Search (Filter := list bool) s Scenario.query
                             = (t, Store.Ok rs))
         [Scenario.shard; Scenario.shadow; Scenario.shard] rss →
       out ≡ₚ concat rss).
Proof.
  apply (CombinedFacts.Search_shards (Filter := list bool)
           [Scenario.shard; Scenario.shadow; Scenario.shard] Scenario.query).
  repeat constructor.
  - eexists _, _. exact scenario_search.
  - eexists _, _. exact scenario_shadow_search.
  - eexists _, _. exact scenario_search.
Defined.





Lemma Search_keeps_cache_ok_witness :
  Cached.cache_ok (Cached.Search CacheScenario.cold 0 5 ["justfoo"]).1 ∧
  Cached.inner (Cached.Search CacheScenario.cold 0 5 ["justfoo"]).1
  = CacheScenario.shard ∧
  ([] = @nil Store.TagResult ∧
   Cached.cache (Cached.Search CacheScenario.cold 0 5 ["justfoo"]).1 = ∅ ∧
   ∃ out, Iface.ro_Search CacheScenario.shard ["justfoo"]
          = Iface.Return out (Some (Iface.StoreErr (Store.ErrInvalidTag "justfoo")))) ∧
  Cached.exp (Cached.Search CacheScenario.cold 0 5 ["justfoo"]).1
  = CacheScenario.hour ∧
  ∀ t, Cached.cache_ok
         (Cached.sweep (Cached.Search CacheScenario.cold 0 5 ["justfoo"]).1 t).
Proof.
  apply (CachedFacts.Search_keeps_cache_ok
           CacheScenario.cold
           (Cached.Search CacheScenario.cold 0 5 ["justfoo"]).1
           0 5 ["justfoo"]
           (Iface.Return [] (Some (Iface.StoreErr (Store.ErrInvalidTag "justfoo"))))).
  - intros key rs Hkey. simpl in Hkey. by rewrite lookup_empty in Hkey.
  - reflexivity.
Defined.

(** ** The scenarios of the specification, run on the model *)

Example generate_bin : Tags.Generate "/usr/bin/firefox" = Some ["bin=firefox"]%string.
Proof. vm_compute. reflexivity. Qed.
Example generate_soname : Tags.Generate "/usr/lib/x86_64-linux-gnu/libaudit.so.1.0.0" = Some ["lib=libaudit.so.1.0.0"; "lib=libaudit.so"; "lib=audit"]%string.
Proof. vm_compute. reflexivity. Qed.
Example generate_desktop : Tags.Generate "/usr/share/applications/firefox.desktop" = Some ["desktop=firefox"]%string.
Proof. vm_compute. reflexivity. Qed.
Example generate_fallback : Tags.Generate "/etc/weirdfile" = Some ["file=/etc/weirdfile"]%string.
Proof. vm_compute. reflexivity. Qed.
Example generate_so_nondigit : Tags.Generate "/usr/lib/libfoo.so" = Some ["lib=libfoo.so"; "lib=libfoo.so"; "lib=foo"]%string.
Proof. vm_compute. reflexivity. Qed.
Example generate_man : Tags.Generate "/usr/share/man/man1/ls.1.gz" = Some ["man=ls.1"]%string.
Proof. vm_compute. reflexivity. Qed.
Example generate_python : Tags.Generate "/usr/lib/python3/dist-packages/foo/bar.py" = Some ["py=foo"]%string.
Proof. vm_compute. reflexivity. Qed.
Example generate_header : Tags.Generate "/usr/include/foo/bar.h" = Some ["hdr=foo/bar.h"]%string.
Proof. vm_compute. reflexivity. Qed.

Example tag_without_equals : Regex.MatchString Regex.tagRegex "justfoo" = false.
Proof. vm_compute. reflexivity. Qed.
Example tag_plain : Regex.MatchString Regex.tagRegex "bin=foo" = true.
Proof. vm_compute. reflexivity. Qed.
Example tag_unanchored : Regex.MatchString Regex.tagRegex "!!a=b!" = true.
Proof. vm_compute. reflexivity. Qed.
Example tag_without_kind : Regex.MatchString Regex.tagRegex "=b" = false.
Proof. vm_compute. reflexivity. Qed.
Example tag_without_value : Regex.MatchString Regex.tagRegex "a=" = false.
Proof. vm_compute. reflexivity. Qed.

Example scenario_refresh_completes : ∃ t s, Scenario.built = (t, Store.Ok s).
Proof. vm_compute. eauto. Qed.
Example scenario_search_order :
  (Store.Search (Filter := list bool) Scenario.shard ["bin=foo"; "lib=libX.so.1"]).2 =
  Store.Ok [ Store.mkResult (Store.mkConf 2 2) ["bin=foo"; "lib=libX.so.1"] (Store.mkPackage "A" ["bin=foo"; "lib=libX.so.1"]);
       Store.mkResult (Store.mkConf 1 2) ["lib=libX.so.1"] (Store.mkPackage "B" ["lib=libX.so.1"]);
       Store.mkResult (Store.mkConf 1 2) ["bin=foo"] (Store.mkPackage "C" ["bin=foo"]) ].
Proof. vm_compute. reflexivity. Qed.
Example scenario_names_limit_one :
  (Store.GetPkgNamesByPrefix Scenario.shard "A" 1).2 = Store.Ok [].
Proof. vm_compute. reflexivity. Qed.
Example combined_search_repeats :
  Combined.Search
    (Iface.of_store (Filter := list bool) <$> [Scenario.shard; Scenario.shard])
    Scenario.query
  = Iface.Return
      [Scenario.hit_A; Scenario.hit_A; Scenario.hit_B; Scenario.hit_B;
       Scenario.hit_C; Scenario.hit_C] None.
Proof. vm_compute. reflexivity. Qed.
Example cached_entry_hits_within_the_hour :
  (Cached.Search CacheScenario.warm CacheScenario.hour (CacheScenario.hour + 1)
     CacheScenario.joined_query).2
  = Iface.Return CacheScenario.results None ∧
  Cached.cache_Get (Cached.cache CacheScenario.warm) CacheScenario.hour
    (Cached.cacheKey CacheScenario.joined_query) = Some CacheScenario.results.
Proof. vm_compute. split; reflexivity. Qed.
Example cached_entry_expires :
  Cached.cache_Get (Cached.cache CacheScenario.warm) (CacheScenario.hour + 6)
    (Cached.cacheKey Scenario.query) = None.
Proof. vm_compute. reflexivity. Qed.
